(** * Cambria-on-Automerge: the op/patch translator and the history-replaying
      engine of [cambriamerge], embedded in Rocq.

    The TypeScript module is embedded function by function.  JavaScript
    objects used as dictionaries are [gmap]s, arrays are lists, numbers are
    integers ([Z]; fractions and [NaN]-producing arithmetic do not occur in
    the module, [parseInt] answers [None] where JavaScript answers [NaN]),
    a [throw] is the [Throw] constructor of [result].  The Automerge
    backend, the Cambria lens library and the [uuid] library are external
    to the module: their entry points are the fields of the classes
    [AutomergeBackend], [CambriaLenses] and [Uuid]; the part of the
    Automerge state the module reads by [getIn] is the map [byObject] of
    [ObjectRecord]s. *)

From Stdlib Require Import ZArith Ascii String List Lia DecimalString DecimalPos DecimalZ.
From stdpp Require Import base option list gmap strings relations.

Set Warnings "-register-all".
Local Open Scope string_scope.
Local Open Scope Z_scope.

(* ===================================================================== *)
(** ** JavaScript values, exceptions *)
(* ===================================================================== *)

Module JS.

(** The values the module moves around untyped ([any]). *)
Inductive Value : Type :=
| Undefined
| Null
| Bool (b : bool)
| Num (n : Z)
| Str (s : string)
| Arr (items : list Value)
| Obj (props : list (string * Value)).

(** JavaScript truthiness, for [a || b], [a && b] and [if (a)]. *)
Definition truthy (v : Value) : bool :=
  match v with
  | Undefined | Null => false
  | Bool b => b
  | Num n => negb (Z.eqb n 0)
  | Str s => negb (String.eqb s "")
  | Arr _ | Obj _ => true
  end.

(** [a === b] on the values compared by the module: primitives by value.
    Arrays and objects are compared by reference in JavaScript; the module
    never compares two of them, and the model answers [false]. *)
Definition strict_eq (a b : Value) : bool :=
  match a, b with
  | Undefined, Undefined => true
  | Null, Null => true
  | Bool x, Bool y => Bool.eqb x y
  | Num x, Num y => Z.eqb x y
  | Str x, Str y => String.eqb x y
  | _, _ => false
  end.

(** What a [throw] carries: the class of the error and the fixed part of
    its message.  [TypeError] is the implicit error of reading a property
    of [undefined] or [null].  [OutOfFuel] is not a JavaScript error: it
    marks a run of the model's fuel-bounded recursion that was cut short. *)
Inductive Exn : Type :=
| TypeError
| RangeError (msg : string)
| Error (msg : string)
| OutOfFuel.

Inductive result (A : Type) : Type :=
| Ok (a : A)
| Throw (e : Exn).
Global Arguments Ok {A} a.
Global Arguments Throw {A} e.

Definition bind {A B} (m : result A) (k : A -> result B) : result B :=
  match m with
  | Ok a => k a
  | Throw e => Throw e
  end.

Fixpoint assoc (k : string) (l : list (string * Value)) : Value :=
  match l with
  | [] => Undefined
  | (k', v) :: l' => if String.eqb k k' then v else assoc k l'
  end.

(** [v.name] for a plain property: [TypeError] on [undefined] and [null],
    [undefined] on primitives and on objects without the property. *)
Definition getProp (v : Value) (name : string) : result Value :=
  match v with
  | Undefined | Null => Throw TypeError
  | Obj props => Ok (assoc name props)
  | _ => Ok Undefined
  end.

(** [typeof v] restricted to the question the module asks:
    is it one of ['string', 'number', 'boolean']? *)
Definition isScalarType (v : Value) : bool :=
  match v with
  | Str _ | Num _ | Bool _ => true
  | _ => false
  end.

Definition isArray (v : Value) : bool :=
  match v with Arr _ => true | _ => false end.

(** [typeof v === 'object' && Object.keys(v).length === 0], reached only
    after [null] and arrays were handled. *)
Definition isEmptyObject (v : Value) : bool :=
  match v with Obj [] => true | _ => false end.

End JS.
Export JS.

Global Instance result_bind : MBind result := fun A B k m => JS.bind m k.
Global Instance result_ret : MRet result := @Ok.

(* ===================================================================== *)
(** ** Strings: [split], [join], [parseInt], [String(n)] *)
(* ===================================================================== *)

Module Str.

Abbreviation slash := ("/"%char).
Abbreviation colon := (":"%char).

(** [s.split(c)]: always at least one piece. *)
Fixpoint split (c : ascii) (s : string) : list string :=
  match s with
  | EmptyString => [EmptyString]
  | String a s' =>
      if Ascii.eqb a c then EmptyString :: split c s'
      else match split c s' with
           | [] => [String a EmptyString]
           | p :: ps => String a p :: ps
           end
  end.

(** [l.join(sep)]. *)
Fixpoint join (sep : string) (l : list string) : string :=
  match l with
  | [] => EmptyString
  | [x] => x
  | x :: l' => x +:+ sep +:+ join sep l'
  end.

(** [l.pop()]: the last element ([None] is [undefined], on the empty
    array) and the array that is left. *)
Definition pop {A} (l : list A) : option A * list A :=
  (last l, removelast l).

Definition isDigit (a : ascii) : bool :=
  let n := nat_of_ascii a in (Nat.leb 48 n && Nat.leb n 57)%bool.

Definition digitVal (a : ascii) : Z := Z.of_nat (nat_of_ascii a) - 48.

(** White space skipped by [parseInt] (the ASCII part of it). *)
Definition isSpace (a : ascii) : bool :=
  let n := nat_of_ascii a in
  (Nat.eqb n 32 || (Nat.leb 9 n && Nat.leb n 13))%bool.

Fixpoint skipSpaces (s : string) : string :=
  match s with
  | String a s' => if isSpace a then skipSpaces s' else s
  | EmptyString => s
  end.

(** The longest digit prefix read in base ten; [acc] is [None] until a
    digit was seen. *)
Fixpoint digits (s : string) (acc : option Z) : option Z :=
  match s with
  | String a s' =>
      if isDigit a then digits s' (Some (10 * default 0 acc + digitVal a))
      else acc
  | EmptyString => acc
  end.

(** [parseInt(s, 10)]; [None] is [NaN]. *)
Definition parseInt (s : string) : option Z :=
  match skipSpaces s with
  | String "-" s' => Z.opp <$> digits s' None
  | String "+" s' => digits s' None
  | s' => digits s' None
  end.

(** [String(n)] and [`${n}`] for an integer. *)
Definition ofZ (n : Z) : string := NilEmpty.string_of_int (Z.to_int n).

End Str.

(* ===================================================================== *)
(** ** Automerge 0.14 data: ops, changes, patches, the introspected state *)
(* ===================================================================== *)

Abbreviation Clock := (gmap string Z).

Inductive OpAction : Type :=
| AIns | ADel | AInc | ALink | ASet
| AMakeText | AMakeTable | AMakeList | AMakeMap.

(** An [Op] as the module reads and builds it: [obj] is typed
    [string] but holds whatever path resolution produced ([null] too),
    [key], [value] and [elem] are optional. *)
Record Op : Type := mkOp {
  op_action : OpAction;
  op_obj : Value;
  op_key : option string;
  op_value : Value;
  op_elem : option Z;
}.

Record Change : Type := mkChange {
  ch_actor : string;
  ch_seq : Z;
  ch_deps : Clock;
  ch_message : string;
  ch_ops : list Op;
}.

Global Instance Change_inhabited : Inhabited Change :=
  populate (mkChange "" 0 ∅ "" []).

(** A diff is a plain JSON object the module never looks into. *)
Definition Diff := Value.

(** The patch the backend hands out: [{diffs, clock, deps}]. *)
Record AutomergePatch : Type := mkPatch {
  ap_diffs : list Diff;
  ap_clock : option Clock;
  ap_deps : option Clock;
}.

(** [_elemIds]: Automerge's [SkipList], an ordered sequence of element
    ids with the value stored at each. *)
Definition SkipList := list (string * Value).

Module SkipList.

Fixpoint indexOfFrom (i : Z) (key : string) (l : SkipList) : Z :=
  match l with
  | [] => -1
  | (k, _) :: l' => if String.eqb k key then i else indexOfFrom (i + 1) key l'
  end.

(** [indexOf(key)]: the position of the id, [-1] when it is absent or
    when the key is the empty string. *)
Definition indexOf (l : SkipList) (key : string) : Z :=
  if String.eqb key "" then -1 else indexOfFrom 0 key l.

(** [keyOf(index)]: a negative index counts from the end; [None]
    ([null]) out of bounds. *)
Definition keyOf (l : SkipList) (index : Z) : option string :=
  let index := if index <? 0 then index + Z.of_nat (length l) else index in
  if (index <? 0) || (Z.of_nat (length l) <=? index) then None
  else fst <$> l !! Z.to_nat index.

Fixpoint valueOf (l : SkipList) (key : string) : Value :=
  match l with
  | [] => Undefined
  | (k, v) :: l' => if String.eqb k key then v else valueOf l' key
  end.

(** [getValue(key)]: a [RangeError] unless the key is a nonempty string,
    [undefined] when the id has no node. *)
Definition getValue (l : SkipList) (key : option string) : result Value :=
  match key with
  | None => Throw (RangeError "Key must be a nonempty string")
  | Some k =>
      if String.eqb k "" then Throw (RangeError "Key must be a nonempty string")
      else Ok (valueOf l k)
  end.

End SkipList.

(** One entry of [opSet.byObject]: the creating op, the ops per key (first
    one wins), the element ids of a list, the ops that link to the object. *)
Record ObjectRecord : Type := mkObjectRecord {
  _init : option Op;
  _keys : gmap string (list Op);
  _elemIds : option SkipList;
  _inbound : list Op;
}.

(** Cambria's JSON Patch operations. *)
Inductive PatchKind : Type := PAdd | PRemove | PReplace | POther.

Record PatchOp : Type := mkPatchOp {
  po_op : PatchKind;
  po_path : string;
  po_value : Value;
}.

Definition CloudinaPatch := list PatchOp.

(* ===================================================================== *)
(** ** The external libraries *)
(* ===================================================================== *)

(** Automerge's [Backend], with the one view of its state the module
    reads: [state.getIn(['opSet', 'byObject', id])]. *)
Class AutomergeBackend : Type := {
  BackendState : Type;
  byObject : BackendState -> gmap string ObjectRecord;
  Backend_init : BackendState;
  Backend_applyChanges :
    BackendState -> list Change -> result (BackendState * AutomergePatch);
  Backend_applyLocalChange :
    BackendState -> Change -> result (BackendState * AutomergePatch);
  Backend_getPatch : BackendState -> result AutomergePatch;
  Backend_getMissingDeps : BackendState -> Clock;
}.

(** Cambria's lens graph and lens evaluator. *)
Class CambriaLenses : Type := {
  LensGraph : Type;
  LensOp : Type;
  JSONSchema7 : Type;
  initLensGraph : LensGraph;
  registerLens : LensGraph -> string -> string -> list LensOp -> result LensGraph;
  lensGraphSchema : LensGraph -> string -> option JSONSchema7;
  lensFromTo : LensGraph -> string -> string -> result (list LensOp);
  applyLensToPatch :
    list LensOp -> CloudinaPatch -> option JSONSchema7 -> result CloudinaPatch;
}.

(** [uuid.v5(name, namespace)]. *)
Class Uuid : Type := { v5 : string -> string -> string }.

(* ===================================================================== *)
(** ** The module: constants, shadow instances, path and id resolution *)
(* ===================================================================== *)

Definition MAGIC_UUID : string := "f1bb7a0b-2d26-48ca-aaa3-92c63bbb5c50".
Definition ROOT_ID : string := "00000000-0000-0000-0000-000000000000".
Definition CAMBRIA_MAGIC_ACTOR : string := "0000000000".

Inductive ObjectType : Type := TList | TObject.

Abbreviation ElemCache := (gmap string Op).
Abbreviation PathCache := (gmap string Value).

(** Change objects are referred to by their address in a heap. *)
Abbreviation ChangeRef := nat (only parsing).
Abbreviation Heap := (gmap nat Change).

(** [x || 0] for a number that may be missing. *)
Definition orZero (x : option Z) : Z := default 0 x.

(** [op.key && elemCache[op.key]] as a condition. *)
Definition keyInCache (key : option string) (elemCache : gmap string Op) : bool :=
  match key with
  | Some k => negb (String.eqb k "") && bool_decide (is_Some (elemCache !! k))
  | None => false
  end.

Section Translator.
Context `{!AutomergeBackend, !CambriaLenses, !Uuid}.

(** A shadow instance: an Automerge backend and the bookkeeping kept
    next to it. *)
Record Instance : Type := mkInstance {
  clock : Clock;
  schema : string;
  deps : Clock;
  elem : gmap string Z;
  bootstrapped : bool;
  state : BackendState;
}.

(** [state.getIn(['opSet', 'byObject', objId])]; an id that is not a
    string is the key of no entry. *)
Definition objectRecord (st : BackendState) (objId : Value) : option ObjectRecord :=
  match objId with
  | Str id => byObject st !! id
  | _ => None
  end.

(** [state.getIn(['opSet', 'byObject', objId, '_elemIds'])] followed by a
    method call: [TypeError] when there is no skip list. *)
Definition elemIdsOf (st : BackendState) (objId : Value) : result SkipList :=
  match objectRecord st objId ≫= _elemIds with
  | Some l => Ok l
  | None => Throw TypeError
  end.

Definition findIndexOfElem (st : BackendState) (objId : Value) (insertKey : string)
  : result Z :=
  if String.eqb insertKey "_head" then Ok (-1)
  else l ← elemIdsOf st objId; Ok (SkipList.indexOf l insertKey).

Definition findElemOfIndex (st : BackendState) (objId : Value) (index : Z)
  : result (option string) :=
  if index =? -1 then Ok (Some "_head")
  else l ← elemIdsOf st objId; Ok (SkipList.keyOf l index).

Definition getObjType (st : BackendState) (objId : Value) : ObjectType :=
  match objectRecord st objId ≫= _init with
  | Some o =>
      match op_action o with
      | AMakeList | AMakeText => TList
      | _ => TObject
      end
  | None => TObject
  end.

(** [objectKeys.getIn(['_keys', key, 0, 'value'])]. *)
Definition firstValue (rec : ObjectRecord) (key : string) : Value :=
  match _keys rec !! key with
  | Some (o :: _) => op_value o
  | _ => Undefined
  end.

(** The loop of [getObjId] over the path segments.  The list branch
    returns at once, whatever segments are left.  A segment that
    [parseInt] does not read ([NaN]) is handed to the skip list, whose
    answer is not modelled: the model stops with [TypeError]. *)
Fixpoint getObjId_loop (st : BackendState) (objectId : Value)
    (pathSegments : list string) : result Value :=
  match pathSegments with
  | [] => Ok objectId
  | pathSegment :: rest =>
      match getObjType st objectId with
      | TObject =>
          match objectRecord st objectId with
          | None => Throw TypeError
          | Some objectKeys =>
              let newObjectId := firstValue objectKeys pathSegment in
              match newObjectId with
              | Undefined => Ok Null
              | _ => getObjId_loop st newObjectId rest
              end
          end
      | TList =>
          match Str.parseInt pathSegment with
          | None => Throw TypeError
          | Some arrayIndex =>
              elemId ← findElemOfIndex st objectId arrayIndex;
              l ← elemIdsOf st objectId;
              v ← SkipList.getValue l elemId;
              getProp v "obj"
          end
      end
  end.

Definition getObjId (st : BackendState) (path : string) : result Value :=
  if String.eqb path "" then Ok (Str ROOT_ID)
  else getObjId_loop st (Str ROOT_ID) (drop 1 (Str.split Str.slash path)).

(** The [while] loop of [getPath]; [None] is [null].  Path segments are
    kept as the strings [join] will make of them: an index as its decimal
    form, a missing key as the empty string.  The loop follows inbound
    links and does not end on a cyclic state: [fuel] bounds it. *)
Fixpoint getPath_loop (fuel : nat) (st : BackendState) (obj : Value)
    (path : list string) : result (option (list string)) :=
  if strict_eq obj (Str ROOT_ID) then Ok (Some path)
  else match fuel with
  | O => Throw OutOfFuel
  | S fuel' =>
      match hd_error (default [] (_inbound <$> objectRecord st obj)) with
      | None => Ok None
      | Some ref =>
          let obj := op_obj ref in
          match getObjType st obj with
          | TList =>
              l ← elemIdsOf st obj;
              let index :=
                match op_key ref with
                | Some k => SkipList.indexOf l k
                | None => -1
                end in
              if index <? 0 then Ok None
              else getPath_loop fuel' st obj (Str.ofZ index :: path)
          | TObject => getPath_loop fuel' st obj (default "" (op_key ref) :: path)
          end
      end
  end.

(** A walk of more links than the state has objects has met a cycle. *)
Definition getPath (st : BackendState) (obj : Value) : result (option (list string)) :=
  getPath_loop (S (size (byObject st))) st obj [].

Definition getMapValue (st : BackendState) (obj : Value) (key : option string) : Value :=
  match objectRecord st obj, key with
  | Some rec, Some k => firstValue rec k
  | _, _ => Undefined
  end.

(** [buildPath]: the JSON path of the place an op writes to.  It deletes
    the key it finds in the element cache: the cache left is returned. *)
Definition buildPath (o : Op) (instance : Instance) (elemCache : ElemCache)
  : result (string * ElemCache) :=
  let obj := op_obj o in
  p ← getPath (state instance) obj;
  let path := default [] p in
  '(key, elemCache) ←
    match getObjType (state instance) obj with
    | TList =>
        match op_key o with
        | None => Throw (Error "expected key on op")
        | Some key =>
            match elemCache !! key with
            | Some cached =>
                match op_key cached with
                | None => Throw (Error "expected key on insert op")
                | Some prevKey =>
                    i ← findIndexOfElem (state instance) obj prevKey;
                    Ok (Str.ofZ (i + 1), delete key elemCache)
                end
            | None =>
                i ← findIndexOfElem (state instance) obj key;
                Ok (Str.ofZ i, elemCache)
            end
        end
    | TObject => Ok (default "" (op_key o), elemCache)
    end;
  Ok ("/" +:+ Str.join "/" (path ++ [key])%list, elemCache).

Definition opToPatch (o : Op) (instance : Instance) (elemCache : ElemCache)
  : result (CloudinaPatch * ElemCache) :=
  match op_action o with
  | ASet =>
      let action :=
        match getObjType (state instance) (op_obj o) with
        | TList => if keyInCache (op_key o) elemCache then PAdd else PReplace
        | TObject =>
            let oldVal := getMapValue (state instance) (op_obj o) (op_key o) in
            if strict_eq oldVal Null then PAdd else PReplace
        end in
      '(path, elemCache) ← buildPath o instance elemCache;
      Ok ([mkPatchOp action path (op_value o)], elemCache)
  | ADel =>
      '(path, elemCache) ← buildPath o instance elemCache;
      Ok ([mkPatchOp PRemove path Undefined], elemCache)
  | ALink =>
      let action := if keyInCache (op_key o) elemCache then PAdd else PReplace in
      '(path, elemCache) ← buildPath o instance elemCache;
      let objType := getObjType (state instance) (op_value o) in
      Ok ([mkPatchOp action path
             (match objType with TList => Arr [] | TObject => Obj [] end)],
          elemCache)
  | _ => Throw (RangeError "unsupported op")
  end.

(* --------------------------------------------------------------------- *)
(** *** patch → ops *)
(* --------------------------------------------------------------------- *)

(** The double quote the source leaves at the end of the uuid name. *)
Definition dquote : string := String (Ascii.Ascii false true false false false true false false) EmptyString.

(** [v5(name, MAGIC_UUID)], the name being
    [${origin.actor}:${origin.seq}:${opIndex}:${i}] and that double quote. *)
Definition makeObjId (origin : Change) (opIndex i : nat) : string :=
  v5 (ch_actor origin +:+ ":" +:+ Str.ofZ (ch_seq origin) +:+ ":"
        +:+ Str.ofZ (Z.of_nat opIndex) +:+ ":" +:+ Str.ofZ (Z.of_nat i) +:+ dquote)
     MAGIC_UUID.

(** The first [if] chain of the callback: the action of the op to emit,
    the make op pushed to [acc], the path cache with the new object. *)
Definition patchopAction (makeObj : string) (pathCache : PathCache) (patchop : PatchOp)
  : result (OpAction * list Op * PathCache) :=
  match po_op patchop with
  | PRemove => Ok (ADel, [], pathCache)
  | PAdd | PReplace =>
      let v := po_value patchop in
      if strict_eq v Null || isScalarType v then Ok (ASet, [], pathCache)
      else if isArray v then
        Ok (ALink, [mkOp AMakeList (Str makeObj) None Undefined None],
            <[po_path patchop := Str makeObj]> pathCache)
      else if isEmptyObject v then
        Ok (ALink, [mkOp AMakeMap (Str makeObj) None Undefined None],
            <[po_path patchop := Str makeObj]> pathCache)
      else Throw (RangeError "bad value for patchop")
  | POther => Throw (RangeError "bad op type for patchop")
  end.

(** [pathCache[objPath] || getObjId(instance.state, objPath)] *)
Definition resolveParent (st : BackendState) (pathCache : PathCache) (objPath : string)
  : result Value :=
  match pathCache !! objPath with
  | Some v => if truthy v then Ok v else getObjId st objPath
  | None => getObjId st objPath
  end.

(** The callback [patchToOps] maps over the patch: the ops one patch op
    contributes, and the path cache as the callback leaves it. *)
Definition patchToOps_callback (origin : Change) (opIndex : nat) (instance : Instance)
    (pathCache : PathCache) (patchop : PatchOp) (i : nat)
  : result (list Op * PathCache) :=
  let makeObj := makeObjId origin opIndex i in
  '(action, acc, pathCache) ← patchopAction makeObj pathCache patchop;
  let '(key, pathParts) := Str.pop (Str.split Str.slash (po_path patchop)) in
  let objPath := Str.join "/" pathParts in
  objId ← resolveParent (state instance) pathCache objPath;
  r ←
    match getObjType (state instance) objId with
    | TList =>
        match key ≫= Str.parseInt with
        | None => Throw (Error "Expected array index on path")
        | Some index =>
            let originalOp := ch_ops origin !! opIndex in
            match po_op patchop with
            | PAdd =>
                let arrayIndex := index - 1 in
                insertAfter ← findElemOfIndex (state instance) objId arrayIndex;
                match insertAfter with
                | None => Throw (Error "expected to find array element")
                | Some insertAfter =>
                    match originalOp with
                    | None => Throw TypeError
                    | Some originalOp =>
                        let insertElemId :=
                          Str.split Str.colon (default "" (op_key originalOp)) !! 1%nat
                            ≫= Str.parseInt in
                        let elem :=
                          match insertElemId with
                          | Some n => if n =? 0
                                      then orZero (elem instance !! ch_actor origin) + 1
                                      else n
                          | None => orZero (elem instance !! ch_actor origin) + 1
                          end in
                        Ok (Some (Some (ch_actor origin +:+ ":" +:+ Str.ofZ elem),
                                  (acc ++ [mkOp AIns objId (Some insertAfter) Undefined (Some elem)])%list))
                    end
                end
            | _ =>
                let arrayIndex := index in
                insertAt ← findElemOfIndex (state instance) objId arrayIndex;
                match insertAt with
                | None => Ok None
                | Some insertAt => Ok (Some (Some insertAt, acc))
                end
            end
        end
    | TObject => Ok (Some (key, acc))
    end;
  match r with
  | None => Ok ([], pathCache)
  | Some (key, acc) =>
      match objId with
      | Undefined => Throw (Error "Could not find object with path")
      | _ =>
          match action, po_op patchop with
          | ALink, _ => Ok ((acc ++ [mkOp action objId key (Str makeObj) None])%list, pathCache)
          | _, (PAdd | PReplace) =>
              Ok ((acc ++ [mkOp action objId key (po_value patchop) None])%list, pathCache)
          | _, _ => Ok ((acc ++ [mkOp action objId key Undefined None])%list, pathCache)
          end
      end
  end.

(** [patch.map(callback)], the path cache running through the calls. *)
Fixpoint patchToOps_map (origin : Change) (opIndex : nat) (instance : Instance)
    (pathCache : PathCache) (patch : CloudinaPatch) (i : nat)
  : result (list (list Op)) :=
  match patch with
  | [] => Ok []
  | patchop :: rest =>
      '(acc, pathCache) ← patchToOps_callback origin opIndex instance pathCache patchop i;
      accs ← patchToOps_map origin opIndex instance pathCache rest (S i);
      Ok (acc :: accs)
  end.

(** convert a patch back into automerge ops *)
Definition patchToOps (patch : CloudinaPatch) (origin : Change) (opIndex : nat)
    (instance : Instance) : result (list Op) :=
  accs ← patchToOps_map origin opIndex instance {[ "" := Str ROOT_ID ]} patch 0%nat;
  Ok (concat accs).

(* --------------------------------------------------------------------- *)
(** *** Applying changes to a shadow instance *)
(* --------------------------------------------------------------------- *)

(** The reducer of [applyChangesToInstance]: [Math.max] of the actor's old
    maximum and every [op.elem || 0] of the change. *)
Definition maxElemStep (acc : gmap string Z) (change : Change) : gmap string Z :=
  let oldMax := orZero (acc !! ch_actor change) in
  let maxElem := fold_left Z.max (map (fun o => orZero (op_elem o)) (ch_ops change)) oldMax in
  <[ch_actor change := maxElem]> acc.

Definition applyChangesToInstance (instance : Instance) (changes : list Change)
  : result (Instance * AutomergePatch) :=
  let elem := fold_left maxElemStep changes (elem instance) in
  '(backendState, patch) ← Backend_applyChanges (state instance) changes;
  Ok ({| clock := default ∅ (ap_clock patch);
         schema := schema instance;
         elem := elem;
         bootstrapped := true;
         deps := default ∅ (ap_deps patch);
         state := backendState |},
      patch).

Definition applyOps (instance : Instance) (ops : list Op) (actor : string)
  : result Instance :=
  let change :=
    {| ch_ops := ops;
       ch_message := "";
       ch_actor := actor;
       ch_seq := orZero (clock instance !! actor) + 1;
       ch_deps := deps instance |} in
  '(newInstance, _) ← applyChangesToInstance instance [change];
  Ok newInstance.

Definition initInstance (schema : string) : Instance :=
  {| state := Backend_init;
     elem := ∅;
     deps := ∅;
     schema := schema;
     bootstrapped := false;
     clock := ∅ |}.

(* --------------------------------------------------------------------- *)
(** *** The op sorter *)
(* --------------------------------------------------------------------- *)

(** An op object of the change: its identity (the position it has in
    [change.ops]) and its content.  [indexOf] compares identities. *)
Definition OpObj : Type := nat * Op.

Definition isMake (a : OpAction) : bool :=
  match a with
  | AMakeList | AMakeMap | AMakeTable | AMakeText => true
  | _ => false
  end.

(** [`${change.actor}:${op.elem}`] *)
Definition elemKey (actor : string) (elem : option Z) : string :=
  actor +:+ ":" +:+ match elem with Some n => Str.ofZ n | None => "undefined" end.

Definition keyIs (o : Op) (k : string) : bool :=
  match op_key o with
  | Some k' => String.eqb k' k
  | None => false
  end.

Fixpoint indexOfObj (i : nat) (id : nat) (l : list OpObj) : option nat :=
  match l with
  | [] => None
  | (id', _) :: l' => if Nat.eqb id' id then Some i else indexOfObj (S i) id l'
  end.

(** [l.splice(l.indexOf(op), 1)]: an [indexOf] of [-1] makes [splice]
    drop the last element. *)
Definition spliceObj (op : OpObj) (l : list OpObj) : list OpObj :=
  match indexOfObj 0 (fst op) l with
  | Some i => delete i l
  | None => removelast l
  end.

(** add an op to the sortedOps array; delete from originalOps *)
Definition appendOp (op : OpObj) (st : list OpObj * list OpObj)
  : list OpObj * list OpObj :=
  let '(sortedOps, originalOps) := st in
  ((sortedOps ++ [op])%list, spliceObj op originalOps).

Definition findOp (f : Op -> bool) (l : list OpObj) : option OpObj :=
  List.find (fun o => f (snd o)) l.

(** One turn of [for (const op of originalOps)], [op] being the element
    the array iterator has produced. *)
Definition sortOps_body (actor : string) (op : OpObj)
    (st : list OpObj * list OpObj) : result (list OpObj * list OpObj) :=
  let '(sortedOps, originalOps) := st in
  let st := ((sortedOps ++ [op])%list, originalOps) in
  st ←
    match op_action (snd op) with
    | AIns =>
        match findOp (fun o =>
                 match op_action o with ASet | ALink => true | _ => false end
                 && keyIs o (elemKey actor (op_elem (snd op)))) originalOps with
        | None => Throw (Error "expected to find a reifying op corresponding to ins op")
        | Some reifyingOp =>
            match op_action (snd reifyingOp) with
            | ASet => Ok (appendOp reifyingOp st)
            | ALink =>
                match findOp (fun o => strict_eq (op_obj o) (op_value (snd reifyingOp)))
                        originalOps with
                | None => Throw (Error "expected make op corresponding to link")
                | Some makeOp => Ok (appendOp reifyingOp (appendOp makeOp st))
                end
            | _ => Ok st
            end
        end
    | _ => Ok st
    end;
  if isMake (op_action (snd op)) then
    match findOp (fun o =>
             match op_action o with ALink => true | _ => false end
             && strict_eq (op_value o) (op_obj (snd op))) (snd st) with
    | None => Throw (Error "expected to find link op corresponding to makeMap")
    | Some linkOp => Ok (appendOp linkOp st)
    end
  else Ok st.

(** The [for ... of] loop: the array iterator keeps an index [i] and, at
    each turn, reads the array as the turns before have left it. *)
Fixpoint sortOps_loop (fuel : nat) (actor : string) (i : nat)
    (st : list OpObj * list OpObj) : result (list OpObj) :=
  match snd st !! i with
  | None => Ok (fst st)
  | Some op =>
      match fuel with
      | O => Throw OutOfFuel
      | S fuel' =>
          st ← sortOps_body actor op st;
          sortOps_loop fuel' actor (S i) st
      end
  end.

Definition tagOps (ops : list Op) : list OpObj := imap (fun i o => (i, o)) ops.

Definition sortOps (change : Change) : result Change :=
  let originalOps := tagOps (ch_ops change) in
  sortedOps ← sortOps_loop (length originalOps) (ch_actor change) 0 ([], originalOps);
  Ok {| ch_actor := ch_actor change; ch_seq := ch_seq change;
        ch_deps := ch_deps change; ch_message := ch_message change;
        ch_ops := snd <$> sortedOps |}.

(* --------------------------------------------------------------------- *)
(** *** Blocks, lens state, change conversion *)
(* --------------------------------------------------------------------- *)

Record RegisteredLens : Type := mkRegisteredLens {
  rl_to : string;
  rl_from : string;
  rl_lens : list LensOp;
}.

Record LensState : Type := mkLensState {
  inDoc : gset string;
  graph : LensGraph;
}.

(** Change objects live in the caller's heap; a block holds a reference
    to its change, not a copy ([applyLocalChange] writes to the request
    after the block was built).  JavaScript has no dangling reference:
    on the heaps of interest every reference a block holds is allocated,
    and the default of the total lookup is never read. *)

Record CambriaBlock : Type := mkCambriaBlock {
  b_schema : string;
  b_lenses : list RegisteredLens;
  b_change : ChangeRef;
  b_actor : string;
  b_seq : Z;
}.

Record MiniBlock : Type := mkMiniBlock {
  mb_schema : string;
  mb_lenses : option (list RegisteredLens);
  mb_change : ChangeRef;
}.

Definition mkBlock (σ : Heap) (mini : MiniBlock) : CambriaBlock :=
  {| b_schema := mb_schema mini;
     b_change := mb_change mini;
     b_lenses := default [] (mb_lenses mini);
     b_actor := ch_actor (σ !!! mb_change mini);
     b_seq := ch_seq (σ !!! mb_change mini) |}.

Definition convertOp (change : Change) (index : nat) (from to : Instance)
    (lensState : LensState) (elemCache : ElemCache)
  : result (list Op * ElemCache) :=
  match ch_ops change !! index with
  | None => Throw TypeError
  | Some op =>
      lensStack ← lensFromTo (graph lensState) (schema from) (schema to);
      let jsonschema7 := lensGraphSchema (graph lensState) (schema from) in
      '(patch, elemCache) ← opToPatch op from elemCache;
      convertedPatch ← applyLensToPatch lensStack patch jsonschema7;
      convertedOps ← patchToOps convertedPatch change index to;
      Ok (convertedOps, elemCache)
  end.

(** The [forEach] of [convertChange]: the ops converted so far, the two
    instance clones and the element cache run through the turns. *)
Fixpoint convertChange_loop (actor : string) (sortedChange : Change)
    (lensState : LensState) (todo : list Op) (i : nat)
    (ops : list Op) (fromInstanceClone toInstanceClone : Instance)
    (elemCache : ElemCache) : result (list Op * Instance * Instance) :=
  match todo with
  | [] => Ok (ops, fromInstanceClone, toInstanceClone)
  | op :: rest =>
      match op_action op with
      | AIns =>
          let elemCache := <[elemKey actor (op_elem op) := op]> elemCache in
          fromInstanceClone ← applyOps fromInstanceClone [op] actor;
          convertChange_loop actor sortedChange lensState rest (S i)
            ops fromInstanceClone toInstanceClone elemCache
      | AMakeMap | AMakeList | AMakeText | AMakeTable =>
          fromInstanceClone ← applyOps fromInstanceClone [op] actor;
          convertChange_loop actor sortedChange lensState rest (S i)
            ops fromInstanceClone toInstanceClone elemCache
      | _ =>
          '(convertedOps, elemCache) ←
            convertOp sortedChange i fromInstanceClone toInstanceClone lensState elemCache;
          let ops := (ops ++ convertedOps)%list in
          fromInstanceClone ← applyOps fromInstanceClone [op] actor;
          toInstanceClone ← applyOps toInstanceClone convertedOps actor;
          convertChange_loop actor sortedChange lensState rest (S i)
            ops fromInstanceClone toInstanceClone elemCache
      end
  end.

Definition convertChange (σ : Heap) (block : CambriaBlock)
    (fromInstance toInstance : Instance) (lensState : LensState)
  : result (Change * Instance * Instance) :=
  let change := σ !!! b_change block in
  sortedChange ← sortOps change;
  '(ops, fromInstanceClone, toInstanceClone) ←
    convertChange_loop (ch_actor change) sortedChange lensState
      (ch_ops sortedChange) 0 [] fromInstance toInstance ∅;
  Ok ({| ch_ops := ops;
         ch_message := ch_message change;
         ch_actor := ch_actor change;
         ch_seq := ch_seq change;
         ch_deps := ch_deps change |},
      fromInstanceClone, toInstanceClone).

(* --------------------------------------------------------------------- *)
(** *** Bootstrap *)
(* --------------------------------------------------------------------- *)

Definition urOp : CloudinaPatch := [mkPatchOp PAdd "" (Obj [])].

Definition bootstrap (instance : Instance) (lensState : LensState) : result Change :=
  match lensGraphSchema (graph lensState) (schema instance) with
  | None => Throw (Error "Could not find JSON schema for schema")
  | Some jsonschema7 =>
      lensed ← applyLensToPatch [] urOp (Some jsonschema7);
      let defaultsPatch := drop 1 lensed in
      (*  here is our phantom defaults change *)
      let bootstrapChange :=
        {| ch_actor := CAMBRIA_MAGIC_ACTOR;
           ch_message := "";
           ch_deps := ∅;
           ch_seq := 1;
           ch_ops := [] |} in
      ops ← patchToOps defaultsPatch bootstrapChange 1 instance;
      Ok {| ch_actor := CAMBRIA_MAGIC_ACTOR;
            ch_message := "";
            ch_deps := ∅;
            ch_seq := 1;
            ch_ops := ops |}
  end.

(* --------------------------------------------------------------------- *)
(** *** Replaying blocks into an instance *)
(* --------------------------------------------------------------------- *)

(** [for (const lens of block.lenses)] *)
Fixpoint registerLenses (lensState : LensState) (lenses : list RegisteredLens)
  : result LensState :=
  match lenses with
  | [] => Ok lensState
  | lens :: rest =>
      let oldInDoc := inDoc lensState in
      g ← registerLens (graph lensState) (rl_from lens) (rl_to lens) (rl_lens lens);
      registerLenses {| inDoc := {[ rl_to lens ]} ∪ oldInDoc; graph := g |} rest
  end.

(** [history.findIndex(block => block.change.actor === actorId &&
    block.change.seq === seq)]; [None] is [-1]. *)
Fixpoint findBlockIndex (σ : Heap) (actorId : string) (seq : Z)
    (history : list CambriaBlock) (i : nat) : option nat :=
  match history with
  | [] => None
  | block :: rest =>
      if String.eqb (ch_actor (σ !!! b_change block)) actorId
         && (ch_seq (σ !!! b_change block) =? seq)
      then Some i
      else findBlockIndex σ actorId seq rest (S i)
  end.

(** What the [for (const block of blocks)] loop of [applySchemaChanges]
    carries from turn to turn. *)
Record ReplayState : Type := mkReplayState {
  rs_lensState : LensState;
  rs_changesToApply : list Change;
  rs_fromInstance : option Instance;
  rs_toInstance : option Instance;
}.

(** The loop, given [getInstanceAt] (which replays the history and is
    defined with [applySchemaChanges] below). *)
Fixpoint applySchemaChanges_loop
    (getInstanceAt : string -> string -> Z -> LensState -> result (Instance * LensState))
    (σ : Heap) (instance : Instance) (blocks : list CambriaBlock) (st : ReplayState)
  : result ReplayState :=
  match blocks with
  | [] => Ok st
  | block :: rest =>
      lensState ← registerLenses (rs_lensState st) (b_lenses block);
      st ←
        if String.eqb (b_schema block) (schema instance) then
          (* no need to migrate - we're in the correct schema now *)
          Ok {| rs_lensState := lensState;
                rs_changesToApply := (rs_changesToApply st ++ [σ !!! b_change block])%list;
                rs_fromInstance := rs_fromInstance st;
                rs_toInstance := rs_toInstance st |}
        else
          fromInstance ←
            match rs_fromInstance st with
            | Some i => Ok i
            | None =>
                '(i, _) ← getInstanceAt (b_schema block)
                            (ch_actor (σ !!! b_change block))
                            (ch_seq (σ !!! b_change block)) lensState;
                Ok i
            end;
          let toInstance := default instance (rs_toInstance st) in
          toInstance ←
            if bootstrapped toInstance then Ok toInstance
            else
              bootstrapChange ← bootstrap toInstance lensState;
              '(toInstance, _) ← applyChangesToInstance toInstance [bootstrapChange];
              Ok toInstance;
          '(newChange, fromInstance, toInstance) ←
            convertChange σ block fromInstance toInstance lensState;
          Ok {| rs_lensState := lensState;
                rs_changesToApply := (rs_changesToApply st ++ [newChange])%list;
                rs_fromInstance := Some fromInstance;
                rs_toInstance := Some toInstance |};
      applySchemaChanges_loop getInstanceAt σ instance rest st
  end.

(** [applySchemaChanges] and [getInstanceAt] call each other; each call of
    [getInstanceAt] replays a strictly shorter prefix of the history.
    [fuel] bounds the depth of the nesting. *)
Fixpoint applySchemaChanges (fuel : nat) (σ : Heap) (blocks : list CambriaBlock)
    (instance : Instance) (lensState : LensState) (history : list CambriaBlock)
  : result (Instance * AutomergePatch * LensState) :=
  match fuel with
  | O => Throw OutOfFuel
  | S fuel' =>
      let getInstanceAt schema actorId seq lensState :=
        match findBlockIndex σ actorId seq history 0 with
        | None => Throw (Error "Could not find block with actorId and seq")
        | Some blockIndex =>
            let blocksToApply := take blockIndex history in
            let empty := initInstance schema in
            '(instance, _, newGraph) ←
              applySchemaChanges fuel' σ blocksToApply empty lensState history;
            Ok (instance, newGraph)
        end in
      st ← applySchemaChanges_loop getInstanceAt σ instance blocks
             {| rs_lensState := lensState; rs_changesToApply := [];
                rs_fromInstance := None; rs_toInstance := None |};
      let lensState := rs_lensState st in
      changesToApply ←
        if bootstrapped instance then Ok (rs_changesToApply st)
        else
          bootstrapChange ← bootstrap instance lensState;
          Ok (bootstrapChange :: rs_changesToApply st);
      '(newInstance, patch) ← applyChangesToInstance instance changesToApply;
      Ok (newInstance, patch, lensState)
  end.

Definition getInstanceAt (fuel : nat) (σ : Heap) (schema actorId : string) (seq : Z)
    (lensState : LensState) (history : list CambriaBlock)
  : result (Instance * LensState) :=
  match findBlockIndex σ actorId seq history 0 with
  | None => Throw (Error "Could not find block with actorId and seq")
  | Some blockIndex =>
      let blocksToApply := take blockIndex history in
      let empty := initInstance schema in
      '(instance, _, newGraph) ←
        applySchemaChanges fuel σ blocksToApply empty lensState history;
      Ok (instance, newGraph)
  end.

(* --------------------------------------------------------------------- *)
(** *** The engine: class [CambriaBackend] *)
(* --------------------------------------------------------------------- *)

Record InitOptions : Type := mkInitOptions {
  io_schema : string;
  io_lenses : list RegisteredLens;
}.

Record CambriaBackend : Type := mkCambriaBackend {
  cb_schema : string;
  history : list CambriaBlock;
  lenses : list RegisteredLens;
  lensState : LensState;
  instances : gmap string Instance;
}.

(** [lenses.reduce((graph, lens) => registerLens(...), initLensGraph())] *)
Fixpoint reduceLenses (g : LensGraph) (lenses : list RegisteredLens) : result LensGraph :=
  match lenses with
  | [] => Ok g
  | lens :: rest =>
      g ← registerLens g (rl_from lens) (rl_to lens) (rl_lens lens);
      reduceLenses g rest
  end.

(** The constructor; [init] is its exported name. *)
Definition init (options : InitOptions) : result CambriaBackend :=
  g ← reduceLenses initLensGraph (io_lenses options);
  _ ← lensFromTo g "mu" (io_schema options); (* throws error if no valid path *)
  Ok {| cb_schema := io_schema options;
        history := [];
        instances := ∅;
        lenses := io_lenses options;
        lensState := {| inDoc := ∅; graph := g |} |}.

(** [getInstance] creates the instance it does not find: the engine with
    the instance in place is returned next to it. *)
Definition getInstance (this : CambriaBackend) (schema : string)
  : Instance * CambriaBackend :=
  match instances this !! schema with
  | Some i => (i, this)
  | None =>
      let i := initInstance schema in
      (i, {| cb_schema := cb_schema this; history := history this;
             lenses := lenses this; lensState := lensState this;
             instances := <[schema := i]> (instances this) |})
  end.

Definition primaryInstance (this : CambriaBackend) : Instance * CambriaBackend :=
  getInstance this (cb_schema this).

(** Method [applyChanges].  A call that throws returns no engine here;
    the engine it leaves behind is [CambriaBackend_applyChanges_thrown]. *)
Definition CambriaBackend_applyChanges (σ : Heap) (this : CambriaBackend)
    (blocks : list CambriaBlock) : result (CambriaBackend * AutomergePatch) :=
  let '(instance, this) := getInstance this (cb_schema this) in
  let fBlocks :=
    filter (fun block => orZero (clock instance !! b_actor block) < b_seq block) blocks in
  let history := (history this ++ fBlocks)%list in
  '(newInstance, patch, newLensState) ←
    applySchemaChanges (S (length history)) σ fBlocks instance (lensState this) history;
  Ok ({| cb_schema := cb_schema this;
         history := history;
         lenses := lenses this;
         lensState := newLensState;
         instances := <[cb_schema this := newInstance]> (instances this) |},
      patch).

(** Method [applyLocalChange]; [request] is the reference of the change
    object the caller passes.  The heap is returned: the method writes to
    the request.  A call that throws returns no engine here; the heap and
    the engine it leaves behind are [CambriaBackend_applyLocalChange_thrown]. *)
Definition CambriaBackend_applyLocalChange (σ : Heap) (this : CambriaBackend)
    (request : ChangeRef)
  : result (Heap * CambriaBackend * AutomergePatch * CambriaBlock) :=
  let hasSchema := bool_decide (cb_schema this ∈ inDoc (lensState this)) in
  let lenses_ := if hasSchema then [] else lenses this in
  let inDoc_ :=
    if hasSchema then inDoc (lensState this)
    else inDoc (lensState this) ∪ list_to_set (rl_to <$> lenses this) in
  let lensState_ := {| inDoc := inDoc_; graph := graph (lensState this) |} in
  let block :=
    {| b_schema := cb_schema this;
       b_lenses := lenses_;
       b_change := request;
       b_actor := ch_actor (σ !!! request);
       b_seq := ch_seq (σ !!! request) |} in
  (* first local change always depends on the phantom defaults *)
  let σ :=
    if ch_seq (σ !!! request) =? 1 then
      let r := σ !!! request in
      <[request := {| ch_actor := ch_actor r; ch_seq := ch_seq r;
                      ch_deps := <[CAMBRIA_MAGIC_ACTOR := 1]> (ch_deps r);
                      ch_message := ch_message r; ch_ops := ch_ops r |}]> σ
    else σ in
  let '(instance, this) := getInstance this (cb_schema this) in
  let history := (history this ++ [block])%list in
  '(instance, bootdiffs) ←
    (if bootstrapped instance then Ok (instance, [])
     else
       bootstrapChange ← bootstrap instance lensState_;
       '(newInstance, bootPatch) ← applyChangesToInstance instance [bootstrapChange];
       Ok (newInstance, ap_diffs bootPatch));
  '(newState, patch) ← Backend_applyLocalChange (state instance) (σ !!! request);
  let instance :=
    {| state := newState;
       clock := default ∅ (ap_clock patch);
       deps := default ∅ (ap_deps patch);
       schema := schema instance;
       elem := elem instance;
       bootstrapped := bootstrapped instance |} in
  Ok (σ,
      {| cb_schema := cb_schema this;
         history := history;
         lenses := lenses this;
         lensState := lensState_;
         instances := <[cb_schema this := instance]> (instances this) |},
      (* add the bootstrap diffs to the patch *)
      {| ap_diffs := (bootdiffs ++ ap_diffs patch)%list;
         ap_clock := ap_clock patch; ap_deps := ap_deps patch |},
      block).

Definition CambriaBackend_getPatch (σ : Heap) (this : CambriaBackend)
  : result (CambriaBackend * AutomergePatch) :=
  (* trigger the bootstrap block if need be *)
  '(this, _) ← CambriaBackend_applyChanges σ this [];
  let '(instance, this) := getInstance this (cb_schema this) in
  patch ← Backend_getPatch (state instance);
  Ok (this, patch).

(** The engine a call of the method [applyChanges] that throws leaves
    behind.  By then [getInstance] has put the primary instance in place
    and [this.history.push(...fBlocks)] has run; [this.instances] and
    [this.lensState] are assigned only once [applySchemaChanges] has
    returned.  [applySchemaChanges] sets [instance.bootstrapped] on the
    instance it is given, the object the engine holds, just before it
    hands the changes to [applyChangesToInstance]: [marked] tells whether
    the throw came after that assignment. *)
Definition CambriaBackend_applyChanges_thrown (this : CambriaBackend)
    (blocks : list CambriaBlock) (marked : bool) : CambriaBackend :=
  let '(instance, this) := getInstance this (cb_schema this) in
  let fBlocks :=
    filter (fun block => orZero (clock instance !! b_actor block) < b_seq block) blocks in
  {| cb_schema := cb_schema this;
     history := (history this ++ fBlocks)%list;
     lenses := lenses this;
     lensState := lensState this;
     instances :=
       if marked then
         <[cb_schema this :=
             {| state := state instance; clock := clock instance;
                deps := deps instance; schema := schema instance;
                elem := elem instance; bootstrapped := true |}]> (instances this)
       else instances this |}.

(** The heap and the engine a call of the method [applyLocalChange] that
    throws leaves behind.  With a request of the type the signature gives
    (its [deps] are there), what can throw ([bootstrap],
    [applyChangesToInstance], the backend) comes after the writes to
    [this.lensState.inDoc], to [request.deps] and to [this.history];
    [this.instances] is assigned after it, so the engine still holds the
    instance [getInstance] found or made. *)
Definition CambriaBackend_applyLocalChange_thrown (σ : Heap) (this : CambriaBackend)
    (request : ChangeRef) : Heap * CambriaBackend :=
  let hasSchema := bool_decide (cb_schema this ∈ inDoc (lensState this)) in
  let lenses_ := if hasSchema then [] else lenses this in
  let inDoc_ :=
    if hasSchema then inDoc (lensState this)
    else inDoc (lensState this) ∪ list_to_set (rl_to <$> lenses this) in
  let lensState_ := {| inDoc := inDoc_; graph := graph (lensState this) |} in
  let block :=
    {| b_schema := cb_schema this;
       b_lenses := lenses_;
       b_change := request;
       b_actor := ch_actor (σ !!! request);
       b_seq := ch_seq (σ !!! request) |} in
  let σ :=
    if ch_seq (σ !!! request) =? 1 then
      let r := σ !!! request in
      <[request := {| ch_actor := ch_actor r; ch_seq := ch_seq r;
                      ch_deps := <[CAMBRIA_MAGIC_ACTOR := 1]> (ch_deps r);
                      ch_message := ch_message r; ch_ops := ch_ops r |}]> σ
    else σ in
  let '(_, this) := getInstance this (cb_schema this) in
  (σ,
   {| cb_schema := cb_schema this;
      history := (history this ++ [block])%list;
      lenses := lenses this;
      lensState := lensState_;
      instances := instances this |}).

Definition CambriaBackend_getMissingChanges (σ : Heap) (this : CambriaBackend)
    (haveDeps : Clock) : list CambriaBlock :=
  filter (fun block =>
            orZero (haveDeps !! ch_actor (σ !!! b_change block))
              < ch_seq (σ !!! b_change block))
         (history this).

(* --------------------------------------------------------------------- *)
(** *** The exported functions *)
(* --------------------------------------------------------------------- *)

(** [delete patch.clock[CAMBRIA_MAGIC_ACTOR]], when there is a clock. *)
Definition hidePhantom (c : option Clock) : option Clock :=
  delete CAMBRIA_MAGIC_ACTOR <$> c.

(** The clock and the deps a patch carries are the very objects the
    primary instance keeps ([clock: patch.clock || {}]): deleting the
    phantom entry from the patch deletes it from the instance. *)
Definition hidePhantomInInstance (patch : AutomergePatch) (i : Instance) : Instance :=
  {| clock := match ap_clock patch with
              | Some _ => delete CAMBRIA_MAGIC_ACTOR (clock i)
              | None => clock i
              end;
     deps := match ap_deps patch with
             | Some _ => delete CAMBRIA_MAGIC_ACTOR (deps i)
             | None => deps i
             end;
     schema := schema i; elem := elem i;
     bootstrapped := bootstrapped i; state := state i |}.

Definition hidePhantomInEngine (patch : AutomergePatch) (doc : CambriaBackend)
  : CambriaBackend :=
  {| cb_schema := cb_schema doc; history := history doc; lenses := lenses doc;
     lensState := lensState doc;
     instances := alter (hidePhantomInInstance patch) (cb_schema doc) (instances doc) |}.

Definition scrub (patch : AutomergePatch) : AutomergePatch :=
  {| ap_diffs := ap_diffs patch;
     (* hide the phantom defaults change *)
     ap_clock := hidePhantom (ap_clock patch);
     ap_deps := hidePhantom (ap_deps patch) |}.

Definition applyChanges (σ : Heap) (doc : CambriaBackend) (changes : list CambriaBlock)
  : result (CambriaBackend * AutomergePatch) :=
  '(doc, patch) ← CambriaBackend_applyChanges σ doc changes;
  Ok (hidePhantomInEngine patch doc, scrub patch).

Definition applyLocalChange (σ : Heap) (doc : CambriaBackend) (request : ChangeRef)
  : result (Heap * CambriaBackend * AutomergePatch * CambriaBlock) :=
  '(σ, doc, patch, block) ← CambriaBackend_applyLocalChange σ doc request;
  Ok (σ, hidePhantomInEngine patch doc, scrub patch, block).

Definition getPatch (σ : Heap) (doc : CambriaBackend)
  : result (CambriaBackend * AutomergePatch) :=
  '(doc, patch) ← CambriaBackend_getPatch σ doc;
  Ok (doc, scrub patch).

Definition lessOrEqual (clock1 clock2 : Clock) : bool :=
  let keys := ((fst <$> map_to_list clock1) ++ (fst <$> map_to_list clock2))%list in
  forallb (fun key => orZero (clock1 !! key) <=? orZero (clock2 !! key)) keys.

Definition getChanges (σ : Heap) (oldState newState : CambriaBackend)
  : result (list CambriaBlock) :=
  let newClock := clock (fst (primaryInstance newState)) in
  let oldClock := clock (fst (primaryInstance oldState)) in
  if lessOrEqual oldClock newClock
  then Ok (CambriaBackend_getMissingChanges σ newState oldClock)
  else Throw (RangeError "Cannot diff two states that have diverged").

Definition getMissingChanges (σ : Heap) (doc : CambriaBackend) (haveDeps : Clock)
  : list CambriaBlock :=
  CambriaBackend_getMissingChanges σ doc haveDeps.

Definition getChangesForActor (σ : Heap) (doc : CambriaBackend) (actor : string)
    (after : Z) : list CambriaBlock :=
  filter (fun c => ch_actor (σ !!! b_change c) = actor ∧ after < ch_seq (σ !!! b_change c))
         (history doc).

Definition getMissingDeps (doc : CambriaBackend) : Clock :=
  Backend_getMissingDeps (state (fst (primaryInstance doc))).

Definition merge (σ : Heap) (local remote : CambriaBackend)
  : result (CambriaBackend * AutomergePatch) :=
  let '(li, local) := primaryInstance local in
  let changes := getMissingChanges σ remote (clock li) in
  applyChanges σ local changes.

End Translator.

(* ===================================================================== *)
(** ** Vocabulary of the properties *)
(* ===================================================================== *)

(** Every [op.elem] of the changes authored by [A], a missing [elem] read
    as [0] the way the module reads it. *)
Definition elemsBy (A : string) (changes : list Change) : list Z :=
  flat_map (fun c =>
              if decide (ch_actor c = A)
              then map (fun o => orZero (op_elem o)) (ch_ops c)
              else []) changes.

(** The character occurs in the string. *)
Fixpoint occurs (c : ascii) (s : string) : bool :=
  match s with
  | EmptyString => false
  | String a s' => Ascii.eqb a c || occurs c s'
  end.

(** [m] is the maximum of [x] and the elements of [l]. *)
Definition isMaximumOf (m x : Z) (l : list Z) : Prop :=
  (x <= m /\ Forall (fun e => e <= m) l) /\ (m = x \/ m ∈ l).

(** The patch shows nothing of the phantom actor. *)
Definition phantomFree (p : AutomergePatch) : Prop :=
  (forall c, ap_clock p = Some c -> c !! CAMBRIA_MAGIC_ACTOR = None) /\
  (forall d, ap_deps p = Some d -> d !! CAMBRIA_MAGIC_ACTOR = None).

Section EngineVocabulary.
Context `{!AutomergeBackend, !CambriaLenses, !Uuid}.


(** The path of the place an op writes to: the segments of the parent
    object, then the last segment. *)
Definition pathTo (parent : list string) (last : string) : string :=
  "/" +:+ Str.join "/" (parent ++ [last])%list.

(** The path of the parent object itself, as [patchToOps] rebuilds it:
    empty for the root, [/a/b] below it. *)
Definition parentPath (parent : list string) : string :=
  Str.join "/" ("" :: parent).

(** [a] can be looked up in the list [l] and found again: the head
    marker, or an element id of [l]. *)
Definition anchorOf (l : SkipList) (a : string) : Prop :=
  a = "_head" \/ (a <> "" /\ a ∈ (fst <$> l)).

(** The key [k] of an op on [obj] names a place the translator can
    address: on a map, a key without a slash; on a list, an element of the
    list that was not inserted earlier in the change. *)
Definition addressable (st : BackendState) (obj : Value) (k : string)
    (elemCache : ElemCache) : Prop :=
  match getObjType st obj with
  | TObject => occurs Str.slash k = false
  | TList =>
      elemCache !! k = None /\
      exists l, elemIdsOf st obj = Ok l /\ k <> "" /\ k ∈ (fst <$> l)
  end.

(** The key [k] of a [set] on the list [obj] is that of an element
    inserted earlier in the change, after [anchor]. *)
Definition insertedAfter (st : BackendState) (obj : Value) (k : string)
    (elemCache : ElemCache) (anchor : string) : Prop :=
  getObjType st obj = TList /\ k <> "" /\
  (exists cached, elemCache !! k = Some cached /\ op_key cached = Some anchor) /\
  exists l, elemIdsOf st obj = Ok l /\ anchorOf l anchor.

(** The [elem] of the insert synthesized for an op keyed [k]: the number
    [parseInt] reads after the first colon of [k] when there is one and it
    is not 0; [next] when the key has no colon, no number there, or 0. *)
Definition elemOfKey (k : string) (next : Z) : Z :=
  match Str.split Str.colon k !! 1%nat ≫= Str.parseInt with
  | Some n => if n =? 0 then next else n
  | None => next
  end.

(** The values [patchToOps] turns into a [set]: [null] and the scalars. *)
Definition scalarOrNull (v : Value) : Prop :=
  match v with
  | Null | Bool _ | Num _ | Str _ => True
  | _ => False
  end.

(** A [set] or [del] op as Automerge writes it: a key, no [elem], a
    scalar or [null] to set, nothing to delete with. *)
Definition plainSetOrDel (X : Op) (k : string) : Prop :=
  op_key X = Some k /\ op_elem X = None /\ op_obj X <> Undefined /\
  match op_action X with
  | ASet => scalarOrNull (op_value X)
  | ADel => op_value X = Undefined
  | _ => False
  end.

(** The shadow finds the parent object of the op again at the path it
    gives it: [getObjId(path_of(obj)) = obj]. *)
Definition parentResolves (st : BackendState) (X : Op) (parent : option (list string)) : Prop :=
  getPath st (op_obj X) = Ok parent /\
  getObjId st (parentPath (default [] parent)) = Ok (op_obj X).

(** The patches the three exported entry points hand out, from any engine
    and any heap: whatever was done to the engine before. *)
Inductive emitted : AutomergePatch -> Prop :=
| emitted_applyChanges σ doc changes doc' p :
    applyChanges σ doc changes = Ok (doc', p) -> emitted p
| emitted_applyLocalChange σ doc request σ' doc' p block :
    applyLocalChange σ doc request = Ok (σ', doc', p, block) -> emitted p
| emitted_getPatch σ doc doc' p :
    getPatch σ doc = Ok (doc', p) -> emitted p.

(** The phantom defaults change around the ops [ops]. *)
Definition phantomChange (ops : list Op) : Change :=
  {| ch_actor := "0000000000"; ch_seq := 1; ch_deps := ∅; ch_message := "";
     ch_ops := ops |}.

(** The request of a first local change once the dependency on the
    phantom change is written into it. *)
Definition withPhantomDep (r : Change) : Change :=
  {| ch_actor := ch_actor r; ch_seq := ch_seq r;
     ch_deps := <["0000000000" := 1]> (ch_deps r);
     ch_message := ch_message r; ch_ops := ch_ops r |}.

(** Modelled on the words of the property "is never given the defaults
    change": the loop of [applySchemaChanges] with the bootstrap of the
    instance clone left out. *)
Fixpoint replay_loop_noDefaults
    (getInstanceAt : string -> string -> Z -> LensState -> result (Instance * LensState))
    (σ : Heap) (instance : Instance) (blocks : list CambriaBlock) (st : ReplayState)
  : result ReplayState :=
  match blocks with
  | [] => Ok st
  | block :: rest =>
      lensState ← registerLenses (rs_lensState st) (b_lenses block);
      st ←
        if String.eqb (b_schema block) (schema instance) then
          Ok {| rs_lensState := lensState;
                rs_changesToApply := (rs_changesToApply st ++ [σ !!! b_change block])%list;
                rs_fromInstance := rs_fromInstance st;
                rs_toInstance := rs_toInstance st |}
        else
          fromInstance ←
            match rs_fromInstance st with
            | Some i => Ok i
            | None =>
                '(i, _) ← getInstanceAt (b_schema block)
                            (ch_actor (σ !!! b_change block))
                            (ch_seq (σ !!! b_change block)) lensState;
                Ok i
            end;
          let toInstance := default instance (rs_toInstance st) in
          '(newChange, fromInstance, toInstance) ←
            convertChange σ block fromInstance toInstance lensState;
          Ok {| rs_lensState := lensState;
                rs_changesToApply := (rs_changesToApply st ++ [newChange])%list;
                rs_fromInstance := Some fromInstance;
                rs_toInstance := Some toInstance |};
      replay_loop_noDefaults getInstanceAt σ instance rest st
  end.

(** Modelled on the same words: [applySchemaChanges] applying the changes
    of the blocks (converted where their schema differs) and nothing
    else.  The instances [getInstanceAt] builds from scratch are
    replayed by the module's [applySchemaChanges]. *)
Definition replay_noDefaults (fuel : nat) (σ : Heap) (blocks : list CambriaBlock)
    (instance : Instance) (lensState : LensState) (history : list CambriaBlock)
  : result (Instance * AutomergePatch * LensState) :=
  match fuel with
  | O => Throw OutOfFuel
  | S fuel' =>
      st ← replay_loop_noDefaults
             (fun schema actorId seq lensState =>
                getInstanceAt fuel' σ schema actorId seq lensState history)
             σ instance blocks
             {| rs_lensState := lensState; rs_changesToApply := [];
                rs_fromInstance := None; rs_toInstance := None |};
      '(newInstance, patch) ← applyChangesToInstance instance (rs_changesToApply st);
      Ok (newInstance, patch, rs_lensState st)
  end.

(** Modelled on the words "is subsequently treated as bootstrapped and is
    never given the defaults change afterwards": the flag is set; what
    [applySchemaChanges] does with the instance is the replay without the
    defaults change; a local change applied to it as the primary instance
    of an engine gets no bootstrap diffs put in front. *)
Definition treatedAsBootstrapped (instance : Instance) : Prop :=
  bootstrapped instance = true
  /\ (forall fuel σ blocks lensState history,
        applySchemaChanges fuel σ blocks instance lensState history
        = replay_noDefaults fuel σ blocks instance lensState history)
  /\ (forall σ this request σ' this' patch' block,
        instances this !! cb_schema this = Some instance ->
        CambriaBackend_applyLocalChange σ this request = Ok (σ', this', patch', block) ->
        exists st' p,
          Backend_applyLocalChange (state instance) (σ' !!! request) = Ok (st', p)
          /\ ap_diffs patch' = ap_diffs p).

End EngineVocabulary.

(* --------------------------------------------------------------------- *)
(** *** Vocabulary of the further properties *)
(* --------------------------------------------------------------------- *)

(** An op the sorter passes over: neither an insert nor a make. *)
Definition passedOver (o : Op) : bool :=
  match op_action o with
  | AIns => false
  | a => negb (isMake a)
  end.

(** [o] is a reifying op of the insert [ins] by [actor]: a [set] or a
    [link] keyed [actor:elem]. *)
Definition reifies (actor : string) (ins : Op) (o : Op) : bool :=
  match op_action o with ASet | ALink => true | _ => false end
  && keyIs o (elemKey actor (op_elem ins)).

(** The ops with their positions from [n] on. *)
Definition tagFrom (n : nat) (ops : list Op) : list OpObj :=
  imap (fun i o => ((n + i)%nat, o)) ops.

(** The change with other ops. *)
Definition withOps (change : Change) (ops : list Op) : Change :=
  {| ch_actor := ch_actor change; ch_seq := ch_seq change;
     ch_deps := ch_deps change; ch_message := ch_message change;
     ch_ops := ops |}.

(** A patch op [patchToOps] has a case for: a [remove], or an [add] or
    [replace] of [null], a scalar, an array or the empty object. *)
Definition supportedPatchOp (patchop : PatchOp) : Prop :=
  match po_op patchop with
  | PRemove => True
  | PAdd | PReplace =>
      match po_value patchop with
      | Null | Bool _ | Num _ | Str _ | Arr _ | Obj [] => True
      | _ => False
      end
  | POther => False
  end.

(** An op as [patchToOps] builds it. *)
Definition emittedOp (o : Op) : Prop :=
  op_obj o <> Undefined /\
  match op_action o with
  | ASet | ADel | ALink => op_elem o = None
  | AIns => is_Some (op_key o) /\ is_Some (op_elem o) /\ op_value o = Undefined
  | AMakeList | AMakeMap =>
      op_key o = None /\ op_elem o = None /\ op_value o = Undefined
  | _ => False
  end.

(** The values [patchToOps] makes a new object for, and the make op it
    picks: any array, and the empty object. *)
Definition container (c : Value) : Prop := isArray c = true \/ c = Obj [].

Definition makeActionOf (c : Value) : OpAction :=
  if isArray c then AMakeList else AMakeMap.

Section TranslatorVocabulary.
Context `{!AutomergeBackend, !CambriaLenses, !Uuid}.

(** [obj] is reached from the root through maps only, by the keys
    [path]: each map on the way holds, as the first op of the key, a link
    to the next object, whose first inbound link is that key of that
    map. *)
Inductive mapPath (st : BackendState) : string -> list string -> Prop :=
| mapPath_root : mapPath st ROOT_ID []
| mapPath_child parent path rec k child ref inbound :
    mapPath st parent path ->
    getObjType st (Str parent) = TObject ->
    byObject st !! parent = Some rec ->
    firstValue rec k = Str child ->
    occurs Str.slash k = false ->
    child <> ROOT_ID ->
    _inbound <$> byObject st !! child = Some (ref :: inbound) ->
    op_obj ref = Str parent ->
    op_key ref = Some k ->
    mapPath st child (path ++ [k]).

End TranslatorVocabulary.

Section EngineHistoryVocabulary.
Context `{!AutomergeBackend, !CambriaLenses, !Uuid}.

(** One thing done to an engine object: a call of one of the three
    methods that write to it, the lazy creation of the primary instance
    (what [primaryInstance] leaves behind in [getChanges],
    [getMissingDeps] and [merge]), or the deletion of the phantom entries
    through a patch that shares its clock with the primary instance. *)
Inductive step : CambriaBackend -> CambriaBackend -> Prop :=
| step_applyChanges σ this blocks this' p :
    CambriaBackend_applyChanges σ this blocks = Ok (this', p) -> step this this'
| step_applyLocalChange σ this request σ' this' p block :
    CambriaBackend_applyLocalChange σ this request = Ok (σ', this', p, block) ->
    step this this'
| step_getPatch σ this this' p :
    CambriaBackend_getPatch σ this = Ok (this', p) -> step this this'
| step_primaryInstance this :
    step this (snd (primaryInstance this))
| step_hidePhantom this p :
    step this (hidePhantomInEngine p this).

(** Any number of such things, one after the other. *)
Definition evolves : CambriaBackend -> CambriaBackend -> Prop := rtc step.

(** A call that throws, and the engine the caller who catches the error
    is left with.  The method [getPatch] throws either in its
    [applyChanges([])], which is the first case here, or in the backend
    after [applyChanges([])] has returned, which leaves the engine of
    [step_applyChanges]; the exported functions write to the engine
    through the methods only.  For [applyChanges] the engine with the
    primary instance marked and the one with it unmarked are both taken,
    wherever the throw came from. *)
Inductive throws : CambriaBackend -> CambriaBackend -> Prop :=
| throws_applyChanges σ this blocks e marked :
    CambriaBackend_applyChanges σ this blocks = Throw e ->
    throws this (CambriaBackend_applyChanges_thrown this blocks marked)
| throws_applyLocalChange σ this request e :
    CambriaBackend_applyLocalChange σ this request = Throw e ->
    throws this (snd (CambriaBackend_applyLocalChange_thrown σ this request)).

(** Any number of calls, of which some may have thrown. *)
Definition evolvesOrThrows : CambriaBackend -> CambriaBackend -> Prop :=
  rtc (fun e e' => step e e' \/ throws e e').

(** The schemas the lenses carried by the blocks lead to. *)
Definition lensTargets (blocks : list CambriaBlock) : gset string :=
  list_to_set (concat ((fun b => rl_to <$> b_lenses b) <$> blocks)).

(** The engine keeps one instance, that of its own schema, which is
    either bootstrapped or still the empty instance. *)
Definition keepsOnlyPrimary (e : CambriaBackend) : Prop :=
  forall s i, instances e !! s = Some i ->
    s = cb_schema e /\ schema i = s /\ (bootstrapped i = true \/ i = initInstance s).

(** The engine and the patch an exported function that applies changes
    hands back. *)
Inductive answered : CambriaBackend -> AutomergePatch -> Prop :=
| answered_applyChanges σ doc changes doc' p :
    applyChanges σ doc changes = Ok (doc', p) -> answered doc' p
| answered_applyLocalChange σ doc request σ' doc' p block :
    applyLocalChange σ doc request = Ok (σ', doc', p, block) -> answered doc' p
| answered_merge σ local remote local' p :
    merge σ local remote = Ok (local', p) -> answered local' p.

(** [for (const block of blocks) for (const lens of block.lenses)]: the
    lens state once the lenses of all the blocks are registered. *)
Fixpoint registerAll (lensState : LensState) (blocks : list CambriaBlock)
  : result LensState :=
  match blocks with
  | [] => Ok lensState
  | block :: rest =>
      lensState ← registerLenses lensState (b_lenses block);
      registerAll lensState rest
  end.

End EngineHistoryVocabulary.

(* ===================================================================== *)
(** ** A small backend, lens library and uuid to run the module on *)
(* ===================================================================== *)

Module Sample.

(** A backend that keeps Automerge's causal order: a change is folded in
    when it is the next one of its actor and its dependencies are in the
    clock ([causallyReady]); a change that came already is dropped; any
    other change waits in the queue.  Ops are not interpreted: the
    objects are those the state was built with. *)
Record State : Type := mkState {
  objs : gmap string ObjectRecord;
  sclock : Clock;
  queue : list Change;
}.

Definition causallyReady (c : Clock) (change : Change) : bool :=
  bool_decide (map_Forall (fun depActor depSeq => depSeq <= orZero (c !! depActor))
                 (<[ch_actor change := ch_seq change - 1]> (ch_deps change))).

Definition opDiff (o : Op) : Diff :=
  Obj [("obj", op_obj o); ("key", match op_key o with Some k => Str k | None => Undefined end)].

(** One pass over the queue: the changes folded in, their diffs, the
    changes left waiting. *)
Fixpoint pass (c : Clock) (todo : list Change) : Clock * list Diff * list Change :=
  match todo with
  | [] => (c, [], [])
  | change :: rest =>
      if ch_seq change <=? orZero (c !! ch_actor change) then pass c rest
      else if causallyReady c change then
        let '(c', ds, q) := pass (<[ch_actor change := ch_seq change]> c) rest in
        (c', (opDiff <$> ch_ops change) ++ ds, q)%list
      else
        let '(c', ds, q) := pass c rest in (c', ds, change :: q)
  end.

Fixpoint passes (n : nat) (c : Clock) (todo : list Change) : Clock * list Diff * list Change :=
  match n with
  | O => (c, [], todo)
  | S n' =>
      let '(c', ds, q) := pass c todo in
      if Nat.eqb (length q) (length todo) then (c', ds, q)
      else let '(c'', ds', q') := passes n' c' q in (c'', (ds ++ ds')%list, q')
  end.

Definition apply (st : State) (changes : list Change) : State * AutomergePatch :=
  let todo := (queue st ++ changes)%list in
  let '(c, ds, q) := passes (length todo) (sclock st) todo in
  ({| objs := objs st; sclock := c; queue := q |},
   {| ap_diffs := ds; ap_clock := Some c; ap_deps := Some c |}).

Definition rootOnly : gmap string ObjectRecord :=
  {[ ROOT_ID := mkObjectRecord None ∅ None [] ]}.

#[export] Instance backend : AutomergeBackend := {|
  BackendState := State;
  byObject := objs;
  Backend_init := {| objs := rootOnly; sclock := ∅; queue := [] |};
  Backend_applyChanges st changes := Ok (apply st changes);
  Backend_applyLocalChange st change := Ok (apply st [change]);
  Backend_getPatch st :=
    Ok {| ap_diffs := []; ap_clock := Some (sclock st); ap_deps := Some (sclock st) |};
  Backend_getMissingDeps st := ∅;
|}.

(** A lens library in which a lens only adds properties with their
    defaults and converts every patch to itself: a lens op is the patch op
    that writes a default, the JSON schema of a node is its defaults
    patch. *)
#[export] Instance lensLib : CambriaLenses := {|
  LensGraph := gmap string CloudinaPatch;
  LensOp := PatchOp;
  JSONSchema7 := CloudinaPatch;
  initLensGraph := {[ "mu" := [] ]};
  registerLens g from to lens :=
    match g !! from with
    | None => Throw (RangeError "unknown schema")
    | Some d => Ok (<[to := (d ++ lens)%list]> g)
    end;
  lensGraphSchema g s := g !! s;
  lensFromTo g from to :=
    match g !! from, g !! to with
    | Some _, Some _ => Ok []
    | _, _ => Throw (Error "no path")
    end;
  applyLensToPatch l patch js :=
    match patch with
    | [ {| po_op := PAdd; po_path := EmptyString; po_value := Obj [] |} ] =>
        Ok (patch ++ default [] js)%list
    | _ => Ok patch
    end;
|}.

#[export] Instance uuidLib : Uuid := {| v5 name ns := "uuid:" +:+ name |}.

(** *** A shadow with a document in it

    The root map holds [name] (a string), [assignee] ([null]) and [tags],
    a list of two strings written by actor [A]. *)

Definition rootSet (key : string) (v : Value) : Op :=
  mkOp ASet (Str ROOT_ID) (Some key) v None.

Definition tagsLink : Op := mkOp ALink (Str ROOT_ID) (Some "tags") (Str "list-1") None.

Definition docState : State :=
  {| objs :=
       {[ ROOT_ID :=
            mkObjectRecord None
              {[ "name" := [rootSet "name" (Str "")];
                 "assignee" := [rootSet "assignee" Null];
                 "tags" := [tagsLink] ]}
              None [];
          "list-1" :=
            mkObjectRecord (Some (mkOp AMakeList (Str "list-1") None Undefined None))
              ∅ (Some [("A:1", Str "x"); ("A:2", Str "y")]) [tagsLink] ]};
     sclock := ∅;
     queue := [] |}.

Definition shadow : Instance :=
  {| clock := ∅; schema := "doc"; deps := ∅; elem := ∅;
     bootstrapped := true; state := docState |}.

Definition listSet (key : string) (v : Value) : Op :=
  mkOp ASet (Str "list-1") (Some key) v None.

(** The change around one op, by actor [A]. *)
Definition changeOf (seq : Z) (ops : list Op) : Change :=
  {| ch_actor := "A"; ch_seq := seq; ch_deps := ∅; ch_message := ""; ch_ops := ops |}.

(** *** An engine

    Schema [v1] adds [name] and [tags] to the empty schema.  The heap
    holds the first two changes of actor [A]; [block1] and [block2] are
    their blocks. *)

Definition lensV1 : RegisteredLens :=
  {| rl_from := "mu"; rl_to := "v1";
     rl_lens := [mkPatchOp PAdd "/name" (Str ""); mkPatchOp PAdd "/tags" (Arr [])] |}.

Definition heap : Heap :=
  {[ 0%nat := changeOf 1 [rootSet "name" (Str "hi")];
     1%nat := changeOf 2 [rootSet "name" (Str "ho")] ]}.

Definition block1 : CambriaBlock :=
  {| b_schema := "v1"; b_lenses := []; b_change := 0%nat; b_actor := "A"; b_seq := 1 |}.

Definition block2 : CambriaBlock :=
  {| b_schema := "v1"; b_lenses := []; b_change := 1%nat; b_actor := "A"; b_seq := 2 |}.

(** The engine [init({schema: 'v1', lenses: [lensV1]})] builds. *)
Definition engine : CambriaBackend :=
  {| cb_schema := "v1"; history := []; lenses := [lensV1];
     lensState := {| inDoc := ∅;
                     graph := {[ "mu" := []; "v1" := rl_lens lensV1 ]} |};
     instances := ∅ |}.

(** A change in which actor [A] overwrites the first element of one list
    and pushes to another, empty list: both elements are [A:1]. *)
Definition twoLists : Change :=
  changeOf 2
    [ mkOp ASet (Str "list-1") (Some "A:1") (Str "x") None;
      mkOp AIns (Str "list-2") (Some "_head") Undefined (Some 1);
      mkOp ASet (Str "list-2") (Some "A:1") (Str "y") None ].

End Sample.

(* ===================================================================== *)
(** ** Properties *)
(* ===================================================================== *)

Lemma bind_Ok {A B} (m : result A) (k : A -> result B) (b : B) :
  m ≫= k = Ok b -> exists a, m = Ok a /\ k a = Ok b.
Proof. destruct m as [a|e]; cbn; [eauto | discriminate]. Qed.

(** Peel the binds of a computation known to end in [Ok]. *)
Ltac ok_inv H :=
  repeat match type of H with
  | mbind _ ?m = Ok _ =>
      let a := fresh "r" in
      let E := fresh "E" in
      apply bind_Ok in H; destruct H as (a & E & H)
  | (let (_, _) := ?p in _) = Ok _ => destruct p
  | (let '(_, _) := ?p in _) = Ok _ => destruct p
  end.

Section StringFacts.

Lemma append_nil_l (s : string) : "" +:+ s = s.
Proof. reflexivity. Qed.

Lemma append_cons (a : ascii) (s t : string) : String a s +:+ t = String a (s +:+ t).
Proof. reflexivity. Qed.

Lemma append_assoc (s t u : string) : (s +:+ t) +:+ u = s +:+ (t +:+ u).
Proof.
  induction s as [|a s IH]; [reflexivity|].
  rewrite !append_cons. now rewrite IH.
Qed.

Lemma split_nonempty (c : ascii) (s : string) : Str.split c s <> [].
Proof.
  destruct s as [|a s]; cbn; [discriminate|].
  destruct (Ascii.eqb a c); [discriminate|].
  destruct (Str.split c s); discriminate.
Qed.

Lemma split_no_occurrence (c : ascii) (s : string) :
  occurs c s = false -> Str.split c s = [s].
Proof.
  induction s as [|a s IH]; cbn; [reflexivity|].
  intros Hocc. apply orb_false_iff in Hocc as [Ha Hs].
  rewrite Ha, (IH Hs). reflexivity.
Qed.

(** Splitting [p/k] where [k] has no slash: the pieces of [p], then [k]. *)
Lemma split_app_slash (p k : string) :
  occurs Str.slash k = false ->
  Str.split Str.slash (p +:+ "/" +:+ k) = (Str.split Str.slash p ++ [k])%list.
Proof.
  intros Hk. induction p as [|a p IH].
  - rewrite !append_nil_l, append_cons, append_nil_l. cbn.
    now rewrite (split_no_occurrence _ _ Hk).
  - rewrite append_cons. cbn [Str.split].
    rewrite IH. destruct (Ascii.eqb a Str.slash); [reflexivity|].
    pose proof (split_nonempty Str.slash p) as Hne.
    destruct (Str.split Str.slash p) as [|q qs]; [congruence|reflexivity].
Qed.

Lemma join_cons (x : string) (l : list string) :
  l <> [] -> Str.join "/" (x :: l) = x +:+ "/" +:+ Str.join "/" l.
Proof. destruct l; [congruence | reflexivity]. Qed.

Lemma join_split (s : string) : Str.join "/" (Str.split Str.slash s) = s.
Proof.
  induction s as [|a s IH]; [reflexivity|].
  cbn [Str.split]. destruct (Ascii.eqb_spec a Str.slash) as [->|Hne].
  - rewrite join_cons by apply split_nonempty. now rewrite IH.
  - pose proof (split_nonempty Str.slash s) as Hnil.
    destruct (Str.split Str.slash s) as [|q qs]; [congruence|].
    destruct qs as [|q' qs].
    + cbn in *. now rewrite IH.
    + rewrite join_cons in * by discriminate. cbn. now rewrite <- IH.
Qed.

Lemma join_snoc (x : string) (l : list string) (k : string) :
  Str.join "/" (x :: l ++ [k])%list = Str.join "/" (x :: l) +:+ "/" +:+ k.
Proof.
  revert x; induction l as [|y l IH]; intros x; [reflexivity|].
  rewrite <- app_comm_cons.
  rewrite (join_cons x (y :: l ++ [k])%list) by discriminate.
  rewrite (join_cons x (y :: l)) by discriminate.
  rewrite IH. now rewrite !append_assoc.
Qed.

Lemma pop_snoc {A} (l : list A) (x : A) : Str.pop (l ++ [x])%list = (Some x, l).
Proof.
  unfold Str.pop. f_equal.
  - now rewrite last_snoc.
  - apply removelast_last.
Qed.

End StringFacts.

Section DecimalFacts.

Lemma digits_acc (d : Decimal.uint) (p : positive) :
  Str.digits (NilEmpty.string_of_uint d) (Some (Zpos p))
  = Some (Zpos (Pos.of_uint_acc d p)).
Proof.
  revert p; induction d; intros p; cbn [NilEmpty.string_of_uint Str.digits];
    [reflexivity | ..];
    (match goal with |- context [Str.isDigit ?c] =>
       change (Str.isDigit c) with true end);
    cbn [Pos.of_uint_acc]; rewrite <- IHd; do 2 f_equal;
    unfold Str.digitVal, default, id;
    (match goal with |- context [Z.of_nat (nat_of_ascii ?c)] =>
       let v := eval vm_compute in (Z.of_nat (nat_of_ascii c)) in
       change (Z.of_nat (nat_of_ascii c)) with v end);
    lia.
Qed.

Lemma digits_zero (d : Decimal.uint) :
  Str.digits (NilEmpty.string_of_uint d) (Some 0) = Some (Z.of_N (Pos.of_uint d)).
Proof.
  induction d; cbn [NilEmpty.string_of_uint Str.digits];
    [reflexivity | ..];
    (match goal with |- context [Str.isDigit ?c] =>
       change (Str.isDigit c) with true end);
    cbn [Pos.of_uint]; unfold default, id;
    [exact IHd | ..]; apply digits_acc.
Qed.

Lemma digits_none (d : Decimal.uint) :
  d <> Decimal.Nil ->
  Str.digits (NilEmpty.string_of_uint d) None = Some (Z.of_N (Pos.of_uint d)).
Proof.
  intros Hd. rewrite <- digits_zero. destruct d; [congruence | reflexivity ..].
Qed.

(** The decimal form of a natural number starts with a digit. *)
Lemma parseInt_uint (d : Decimal.uint) :
  d <> Decimal.Nil ->
  Str.parseInt (NilEmpty.string_of_uint d) = Some (Z.of_N (Pos.of_uint d)).
Proof.
  intros Hd. rewrite <- (digits_none d Hd).
  destruct d; [congruence | reflexivity ..].
Qed.

Lemma to_int_nonnil (n : Z) :
  match Z.to_int n with Decimal.Pos d | Decimal.Neg d => d <> Decimal.Nil end.
Proof.
  destruct n; cbn; [discriminate | apply Unsigned.to_uint_nonnil ..].
Qed.

(** [parseInt(String(n), 10) === n] *)
Lemma parseInt_ofZ (n : Z) : Str.parseInt (Str.ofZ n) = Some n.
Proof.
  unfold Str.ofZ. pose proof (to_int_nonnil n) as Hnil.
  pose proof (DecimalZ.of_to n) as Hof.
  destruct (Z.to_int n) as [d|d]; cbn [NilEmpty.string_of_int].
  - rewrite parseInt_uint by exact Hnil. f_equal. exact Hof.
  - unfold Str.parseInt. cbn [Str.skipSpaces].
    change (Str.isSpace "-") with false. cbn iota.
    rewrite digits_none by exact Hnil. cbn [fmap option_fmap option_map].
    f_equal. exact Hof.
Qed.

Lemma uint_no_slash (d : Decimal.uint) :
  occurs Str.slash (NilEmpty.string_of_uint d) = false.
Proof. induction d; cbn; auto. Qed.

Lemma ofZ_no_slash (n : Z) : occurs Str.slash (Str.ofZ n) = false.
Proof.
  unfold Str.ofZ. destruct (Z.to_int n); cbn [NilEmpty.string_of_int occurs];
    [|cbn]; apply uint_no_slash.
Qed.

End DecimalFacts.

Section SkipListFacts.

Lemma indexOfFrom_found (l : SkipList) (n : Z) (k : string) :
  k ∈ (fst <$> l) ->
  n <= SkipList.indexOfFrom n k l < n + Z.of_nat (length l)
  /\ fst <$> l !! Z.to_nat (SkipList.indexOfFrom n k l - n) = Some k.
Proof.
  revert n; induction l as [|[k' v] l IH]; intros n Hin; cbn in Hin.
  - now apply elem_of_nil in Hin.
  - cbn [SkipList.indexOfFrom length]. destruct (String.eqb_spec k' k) as [->|Hne].
    + split; [lia|]. now replace (n - n) with 0 by lia.
    + apply elem_of_cons in Hin as [Heq|Hin]; [congruence|].
      destruct (IH (n + 1) Hin) as [Hrange Hlook]. split; [lia|].
      replace (Z.to_nat (SkipList.indexOfFrom (n + 1) k l - n))
        with (S (Z.to_nat (SkipList.indexOfFrom (n + 1) k l - (n + 1)))) by lia.
      exact Hlook.
Qed.

(** The id found at the position of an id of the list is that id. *)
Lemma keyOf_indexOf (l : SkipList) (k : string) :
  k <> "" -> k ∈ (fst <$> l) ->
  0 <= SkipList.indexOf l k /\ SkipList.keyOf l (SkipList.indexOf l k) = Some k.
Proof.
  intros Hk Hin. unfold SkipList.indexOf, SkipList.keyOf.
  destruct (String.eqb_spec k "") as [|_]; [congruence|].
  destruct (indexOfFrom_found l 0 k Hin) as [Hrange Hlook].
  split; [lia|]. cbv zeta.
  rewrite (proj2 (Z.ltb_ge (SkipList.indexOfFrom 0 k l) 0)) by lia.
  rewrite (proj2 (Z.ltb_ge (SkipList.indexOfFrom 0 k l) 0)) by lia.
  rewrite (proj2 (Z.leb_gt (Z.of_nat (length l)) (SkipList.indexOfFrom 0 k l))) by lia.
  rewrite Z.sub_0_r in Hlook. exact Hlook.
Qed.

(** No id at or past the end. *)
Lemma keyOf_past_end (l : SkipList) (index : Z) :
  Z.of_nat (length l) <= index -> SkipList.keyOf l index = None.
Proof.
  intros Hge. unfold SkipList.keyOf. cbv zeta.
  rewrite (proj2 (Z.ltb_ge index 0)) by lia.
  rewrite (proj2 (Z.ltb_ge index 0)) by lia.
  now rewrite (proj2 (Z.leb_le (Z.of_nat (length l)) index)) by lia.
Qed.

End SkipListFacts.

Section ElemFold.

Lemma fold_max_le (l : list Z) (x : Z) : x <= fold_left Z.max l x.
Proof.
  revert x; induction l as [|e l IH]; intros x; cbn; [lia|].
  specialize (IH (Z.max x e)); lia.
Qed.

Lemma fold_max_spec (l : list Z) (x : Z) : isMaximumOf (fold_left Z.max l x) x l.
Proof.
  revert x; induction l as [|e l IH]; intros x; cbn.
  - repeat split; [lia | constructor | now left].
  - destruct (IH (Z.max x e)) as [[Hx Hall] Hmem].
    repeat split.
    + lia.
    + constructor; [lia | exact Hall].
    + destruct Hmem as [Heq | Hin].
      * destruct (Z.max_spec x e) as [[_ Hm] | [_ Hm]].
        -- right. rewrite Heq, Hm. apply list_elem_of_here.
        -- left. now rewrite Heq, Hm.
      * right. now apply list_elem_of_further.
Qed.

Lemma maxElemStep_lookup (acc : gmap string Z) (c : Change) (A : string) :
  orZero (maxElemStep acc c !! A)
  = if decide (ch_actor c = A)
    then fold_left Z.max (map (fun o => orZero (op_elem o)) (ch_ops c)) (orZero (acc !! A))
    else orZero (acc !! A).
Proof.
  unfold maxElemStep. destruct (decide (ch_actor c = A)) as [->|Hne].
  - now rewrite lookup_insert_eq.
  - now rewrite lookup_insert_ne.
Qed.

Lemma fold_maxElemStep (changes : list Change) (acc : gmap string Z) (A : string) :
  orZero (fold_left maxElemStep changes acc !! A)
  = fold_left Z.max (elemsBy A changes) (orZero (acc !! A)).
Proof.
  revert acc; induction changes as [|c cs IH]; intros acc; [reflexivity|].
  cbn [fold_left]. rewrite IH, maxElemStep_lookup.
  unfold elemsBy; cbn [flat_map]. rewrite fold_left_app.
  now destruct (decide (ch_actor c = A)).
Qed.

End ElemFold.

Section SorterFacts.

Lemma spliceObj_length (op : OpObj) (l : list OpObj) :
  (length (spliceObj op l) <= length l)%nat.
Proof.
  unfold spliceObj. destruct (indexOfObj 0 (fst op) l) as [i|].
  - rewrite delete_take_drop, length_app, length_take, length_drop. lia.
  - destruct l using rev_ind; [reflexivity|].
    rewrite removelast_last, length_app. lia.
Qed.

Lemma appendOp_length (op : OpObj) (st : list OpObj * list OpObj) :
  (length (snd (appendOp op st)) <= length (snd st))%nat.
Proof. destruct st as [s o]. cbn. apply spliceObj_length. Qed.

Lemma sortOps_body_Ok (actor : string) (op : OpObj)
    (st st' : list OpObj * list OpObj) :
  sortOps_body actor op st = Ok st' -> (length (snd st') <= length (snd st))%nat.
Proof.
  unfold sortOps_body. destruct st as [sorted orig]. intros Hok.
  apply bind_Ok in Hok as (st1 & H1 & Hok).
  assert (Hst1 : (length (snd st1) <= length orig)%nat).
  { destruct (op_action (snd op)); try (injection H1 as <-; cbn; lia).
    destruct (findOp _ orig) as [r|]; [|discriminate].
    destruct (op_action (snd r)); try (injection H1 as <-; cbn; lia).
    - destruct (findOp _ orig) as [m|]; [|discriminate]. injection H1 as <-.
      cbn. pose proof (spliceObj_length r (spliceObj m orig)).
      pose proof (spliceObj_length m orig). lia.
    - injection H1 as <-. cbn. apply spliceObj_length. }
  destruct (isMake (op_action (snd op))).
  - destruct (findOp _ (snd st1)) as [lk|]; [|discriminate]. injection Hok as <-.
    pose proof (appendOp_length lk st1). cbn in *. lia.
  - now injection Hok as <-.
Qed.

Lemma sortOps_body_Throw (actor : string) (op : OpObj)
    (st : list OpObj * list OpObj) :
  sortOps_body actor op st <> Throw OutOfFuel.
Proof.
  unfold sortOps_body. destruct st as [sorted orig].
  destruct (match op_action (snd op) with AIns => _ | _ => _ end) as [st1|e] eqn:H1.
  - cbn [mbind result_bind JS.bind].
    destruct (isMake (op_action (snd op))); [|discriminate].
    destruct (findOp _ (snd st1)); discriminate.
  - cbn [mbind result_bind JS.bind]. intros Heq. injection Heq as ->.
    destruct (op_action (snd op)); try discriminate.
    destruct (findOp _ orig) as [r|]; [|discriminate].
    destruct (op_action (snd r)); try discriminate.
    destruct (findOp _ orig); discriminate.
Qed.

(** The loop of [sortOps] ends within the fuel [sortOps] gives it: the
    iterator's index grows at each turn, the array never does. *)
Lemma sortOps_loop_fuel (fuel : nat) (actor : string) :
  forall (i : nat) (st : list OpObj * list OpObj),
    (length (snd st) <= i + fuel)%nat ->
    sortOps_loop fuel actor i st <> Throw OutOfFuel.
Proof.
  induction fuel as [|fuel IH]; intros i st Hlen; cbn [sortOps_loop].
  - destruct (snd st !! i) eqn:Hi; [|discriminate].
    apply lookup_lt_Some in Hi. lia.
  - destruct (snd st !! i) eqn:Hi; [|discriminate].
    destruct (sortOps_body actor o st) as [st'|e] eqn:Hb.
    + cbn [mbind result_bind JS.bind]. apply IH.
      apply sortOps_body_Ok in Hb. lia.
    + cbn [mbind result_bind JS.bind]. intros Heq. injection Heq as ->.
      now apply sortOps_body_Throw in Hb.
Qed.

Lemma sortOps_terminates (change : Change) : sortOps change <> Throw OutOfFuel.
Proof.
  unfold sortOps.
  destruct (sortOps_loop _ _ 0 _) as [s|e] eqn:Hl; [discriminate|].
  cbn [mbind result_bind JS.bind]. intros Heq. injection Heq as ->.
  revert Hl. apply sortOps_loop_fuel. cbn. lia.
Qed.

End SorterFacts.

Section InstanceProperties.
Context `{!AutomergeBackend, !CambriaLenses, !Uuid}.

Lemma applyChangesToInstance_Ok (instance : Instance) (changes : list Change)
    (instance' : Instance) (patch : AutomergePatch) :
  applyChangesToInstance instance changes = Ok (instance', patch) ->
  exists backendState,
    Backend_applyChanges (state instance) changes = Ok (backendState, patch) /\
    instance' = {| clock := default ∅ (ap_clock patch);
                   schema := schema instance;
                   elem := fold_left maxElemStep changes (elem instance);
                   bootstrapped := true;
                   deps := default ∅ (ap_deps patch);
                   state := backendState |}.
Proof.
  unfold applyChangesToInstance. intros H2.
  apply bind_Ok in H2 as ([bs p] & E & H2). cbn in H2.
  injection H2 as <- <-. eauto.
Qed.

(** C6.  Elem monotonicity: after [applyChangesToInstance], [elem[A]] is
    the maximum of the old [elem[A]] and every [op.elem] of the applied
    changes authored by [A] (a missing entry is read as [0], as by the
    code's [|| 0]); so [elem[A]] never decreases. *)
Theorem applyChangesToInstance_elem_max (instance : Instance) (changes : list Change)
    (instance' : Instance) (patch : AutomergePatch) (A : string) :
  applyChangesToInstance instance changes = Ok (instance', patch) ->
  isMaximumOf (orZero (elem instance' !! A)) (orZero (elem instance !! A))
              (elemsBy A changes)
  /\ orZero (elem instance !! A) <= orZero (elem instance' !! A).
Proof.
  intros Hok. apply applyChangesToInstance_Ok in Hok as (bs & _ & ->). cbn [elem].
  rewrite fold_maxElemStep. split; [apply fold_max_spec | apply fold_max_le].
Qed.

Lemma applyChangesToInstance_bootstrapped (instance : Instance) (changes : list Change)
    (instance' : Instance) (patch : AutomergePatch) :
  applyChangesToInstance instance changes = Ok (instance', patch) ->
  bootstrapped instance' = true.
Proof. intros Hok. now apply applyChangesToInstance_Ok in Hok as (bs & _ & ->). Qed.

Lemma applyOps_bootstrapped (instance : Instance) (ops : list Op) (actor : string)
    (instance' : Instance) :
  applyOps instance ops actor = Ok instance' -> bootstrapped instance' = true.
Proof.
  unfold applyOps. intros Hok. apply bind_Ok in Hok as ([i p] & Hi & Hok).
  injection Hok as <-. eapply applyChangesToInstance_bootstrapped, Hi.
Qed.

Lemma convertChange_loop_bootstrapped (actor : string) (sortedChange : Change)
    (lensState : LensState) (todo : list Op) :
  forall (i : nat) (ops : list Op) (from to : Instance) (elemCache : ElemCache)
         (ops' : list Op) (from' to' : Instance),
    convertChange_loop actor sortedChange lensState todo i ops from to elemCache
      = Ok (ops', from', to') ->
    bootstrapped to = true -> bootstrapped to' = true.
Proof.
  induction todo as [|op rest IH]; intros i ops from to elemCache ops' from' to' Hok Hb.
  - cbn in Hok. now injection Hok as _ _ <-.
  - cbn [convertChange_loop] in Hok.
    destruct (op_action op).
    1, 6, 7, 8, 9:
      apply bind_Ok in Hok as (from1 & _ & Hok); eapply IH; eauto.
    all: apply bind_Ok in Hok as ([cops cache1] & _ & Hok);
      apply bind_Ok in Hok as (from1 & _ & Hok);
      apply bind_Ok in Hok as (to1 & Hto & Hok);
      eapply IH; [exact Hok | eapply applyOps_bootstrapped, Hto].
Qed.

Lemma convertChange_bootstrapped (σ : Heap) (block : CambriaBlock)
    (from to : Instance) (lensState : LensState)
    (change : Change) (from' to' : Instance) :
  convertChange σ block from to lensState = Ok (change, from', to') ->
  bootstrapped to = true -> bootstrapped to' = true.
Proof.
  unfold convertChange. intros Hok Hb.
  apply bind_Ok in Hok as (sorted & _ & Hok).
  apply bind_Ok in Hok as ([[ops f1] t1] & Hloop & Hok).
  injection Hok as _ _ <-. eapply convertChange_loop_bootstrapped; eauto.
Qed.

End InstanceProperties.

Section TranslatorProperties.
Context `{!AutomergeBackend, !CambriaLenses, !Uuid}.

(** More fuel does not change what [getPath]'s loop returns. *)
Lemma getPath_loop_fuel (st : BackendState) (n : nat) :
  forall (m : nat) (obj : Value) (path : list string),
    getPath_loop n st obj path <> Throw OutOfFuel -> (n <= m)%nat ->
    getPath_loop m st obj path = getPath_loop n st obj path.
Proof.
  induction n as [|n IH]; intros m obj path Hok Hle.
  - destruct m; [reflexivity|]. cbn in *.
    destruct (strict_eq obj (Str ROOT_ID)); [reflexivity | congruence].
  - destruct m as [|m]; [lia|]. cbn [getPath_loop] in *.
    destruct (strict_eq obj (Str ROOT_ID)); [reflexivity|].
    destruct (hd_error _) as [ref|]; [|reflexivity].
    destruct (getObjType st (op_obj ref)).
    + destruct (elemIdsOf st (op_obj ref)) as [l|e]; [|reflexivity].
      cbn [mbind result_bind JS.bind] in *.
      destruct (_ <? 0); [reflexivity|]. apply IH; [exact Hok | lia].
    + apply IH; [exact Hok | lia].
Qed.

Lemma findElemOfIndex_past_end (st : BackendState) (objId : Value) (l : SkipList)
    (index : Z) :
  elemIdsOf st objId = Ok l -> Z.of_nat (length l) <= index ->
  findElemOfIndex st objId index = Ok None.
Proof.
  intros Hl Hge. unfold findElemOfIndex.
  destruct (Z.eqb_spec index (-1)); [lia|].
  rewrite Hl. cbn. now rewrite keyOf_past_end.
Qed.

(** C5 (as amended).  Soft drop: a [replace] patch op whose value has an
    accepted shape (null, a scalar, an array or the empty object), whose
    parent object is a list and whose decimal index is at or past the end
    of that list contributes the empty op list: no error, no op. *)
Theorem patchToOps_soft_drop (origin : Change) (opIndex : nat) (instance : Instance)
    (pathCache : PathCache) (patchop : PatchOp) (i : nat)
    (action : OpAction) (acc : list Op) (pathCache' : PathCache)
    (key : string) (pathParts : list string) (objId : Value)
    (l : SkipList) (index : Z) :
  po_op patchop = PReplace ->
  patchopAction (makeObjId origin opIndex i) pathCache patchop
    = Ok (action, acc, pathCache') ->
  Str.pop (Str.split Str.slash (po_path patchop)) = (Some key, pathParts) ->
  resolveParent (state instance) pathCache' (Str.join "/" pathParts) = Ok objId ->
  getObjType (state instance) objId = TList ->
  elemIdsOf (state instance) objId = Ok l ->
  Str.parseInt key = Some index ->
  Z.of_nat (length l) <= index ->
  patchToOps_callback origin opIndex instance pathCache patchop i = Ok ([], pathCache').
Proof.
  intros Hop Hact Hpop Hobj Htype Hl Hkey Hge.
  unfold patchToOps_callback. rewrite Hact. cbn [mbind result_bind JS.bind].
  rewrite Hpop, Hobj. cbn [mbind result_bind JS.bind].
  rewrite Htype. cbn [mbind option_bind]. rewrite Hkey, Hop.
  rewrite (findElemOfIndex_past_end _ _ _ _ Hl Hge). reflexivity.
Qed.




Lemma pathTo_parentPath (parent : list string) (k : string) :
  pathTo parent k = parentPath parent +:+ "/" +:+ k.
Proof.
  unfold pathTo, parentPath. rewrite <- join_snoc.
  rewrite (join_cons "" (parent ++ [k])%list) by (destruct parent; discriminate).
  reflexivity.
Qed.

Lemma pop_split_pathTo (parent : list string) (k : string) :
  occurs Str.slash k = false ->
  Str.pop (Str.split Str.slash (pathTo parent k))
  = (Some k, Str.split Str.slash (parentPath parent)).
Proof.
  intros Hk. rewrite pathTo_parentPath, split_app_slash by exact Hk. apply pop_snoc.
Qed.

Lemma resolveParent_initial (st : BackendState) (objPath : string) :
  resolveParent st {[ "" := Str ROOT_ID ]} objPath = getObjId st objPath.
Proof.
  unfold resolveParent, getObjId. destruct (String.eqb_spec objPath "") as [->|Hne].
  - now rewrite lookup_singleton_eq.
  - now rewrite lookup_singleton_ne.
Qed.

Lemma patchToOps_single (patchop : PatchOp) (origin : Change) (opIndex : nat)
    (instance : Instance) (ops : list Op) (pathCache : PathCache) :
  patchToOps_callback origin opIndex instance {[ "" := Str ROOT_ID ]} patchop 0
    = Ok (ops, pathCache) ->
  patchToOps [patchop] origin opIndex instance = Ok ops.
Proof.
  intros Hcb. unfold patchToOps. cbn [patchToOps_map]. rewrite Hcb.
  cbn. now rewrite app_nil_r.
Qed.

(** The callback on the patch op of a [set] or [del], once the parent
    object and the last path segment are known. *)
Lemma callback_set_del (X : Op) (k : string) (origin : Change) (opIndex : nat)
    (instance : Instance) (kind : PatchKind) (parent : list string) (seg : string) :
  plainSetOrDel X k ->
  kind = match op_action X with ADel => PRemove | _ => kind end ->
  kind <> POther ->
  (op_action X = ASet -> kind <> PRemove) ->
  occurs Str.slash seg = false ->
  getObjId (state instance) (parentPath parent) = Ok (op_obj X) ->
  patchToOps_callback origin opIndex instance {[ "" := Str ROOT_ID ]}
    (mkPatchOp kind (pathTo parent seg) (op_value X)) 0
  = match getObjType (state instance) (op_obj X) with
    | TObject =>
        Ok ([mkOp (op_action X) (op_obj X) (Some seg) (op_value X) None],
            {[ "" := Str ROOT_ID ]})
    | TList =>
        match Str.parseInt seg with
        | None => Throw (Error "Expected array index on path")
        | Some index =>
            match kind with
            | PAdd =>
                insertAfter ← findElemOfIndex (state instance) (op_obj X) (index - 1);
                match insertAfter with
                | None => Throw (Error "expected to find array element")
                | Some insertAfter =>
                    match ch_ops origin !! opIndex with
                    | None => Throw TypeError
                    | Some originalOp =>
                        let insertElemId :=
                          Str.split Str.colon (default "" (op_key originalOp)) !! 1%nat
                            ≫= Str.parseInt in
                        let elem :=
                          match insertElemId with
                          | Some n => if n =? 0
                                      then orZero (elem instance !! ch_actor origin) + 1
                                      else n
                          | None => orZero (elem instance !! ch_actor origin) + 1
                          end in
                        Ok ([mkOp AIns (op_obj X) (Some insertAfter) Undefined (Some elem);
                             mkOp (op_action X) (op_obj X)
                               (Some (ch_actor origin +:+ ":" +:+ Str.ofZ elem))
                               (op_value X) None],
                            {[ "" := Str ROOT_ID ]})
                    end
                end
            | _ =>
                insertAt ← findElemOfIndex (state instance) (op_obj X) index;
                match insertAt with
                | None => Ok ([], {[ "" := Str ROOT_ID ]})
                | Some insertAt =>
                    Ok ([mkOp (op_action X) (op_obj X) (Some insertAt) (op_value X) None],
                        {[ "" := Str ROOT_ID ]})
                end
            end
        end
    end.
Proof.
  intros (Hkey & Helem & Hobj & Hval) Hkind Hother Hset Hseg Hparent.
  assert (Hcases :
    (op_action X = ADel /\ kind = PRemove /\ op_value X = Undefined) \/
    (op_action X = ASet /\ (kind = PAdd \/ kind = PReplace)
       /\ scalarOrNull (op_value X))).
  { destruct (op_action X); try contradiction; [left; auto | right].
    split; [reflexivity|]. split; [|exact Hval].
    specialize (Hset eq_refl). destruct kind; auto; congruence. }
  clear Hkind Hother Hset Hval.
  unfold patchToOps_callback.
  assert (Hact : patchopAction (makeObjId origin opIndex 0) {[ "" := Str ROOT_ID ]}
                   (mkPatchOp kind (pathTo parent seg) (op_value X))
                 = Ok (op_action X, [], {[ "" := Str ROOT_ID ]})).
  { unfold patchopAction. cbn [po_op po_value].
    destruct Hcases as [(-> & -> & _) | (-> & [-> | ->] & Hv)];
      [reflexivity | | ];
      destruct (op_value X); try contradiction; reflexivity. }
  rewrite Hact. cbn [mbind result_bind JS.bind po_path].
  rewrite (pop_split_pathTo _ _ Hseg), join_split, resolveParent_initial, Hparent.
  cbn [mbind result_bind JS.bind].
  destruct (getObjType (state instance) (op_obj X)).
  - cbn [mbind option_bind]. destruct (Str.parseInt seg) as [index|]; [|reflexivity].
    cbn [po_op].
    destruct Hcases as [(-> & -> & Hv) | (-> & [-> | ->] & _)].
    + destruct (findElemOfIndex (state instance) (op_obj X) index) as [[ia|]|];
        try reflexivity. cbn [mbind result_bind JS.bind]. rewrite Hv.
      destruct (op_obj X); try congruence; reflexivity.
    + destruct (findElemOfIndex (state instance) (op_obj X) (index - 1)) as [[ia|]|];
        try reflexivity. cbn [mbind result_bind JS.bind].
      destruct (ch_ops origin !! opIndex) as [oo|]; [|reflexivity].
      cbn [mbind result_bind JS.bind].
      destruct (op_obj X); try congruence; reflexivity.
    + destruct (findElemOfIndex (state instance) (op_obj X) index) as [[ia|]|];
        try reflexivity. cbn [mbind result_bind JS.bind].
      destruct (op_obj X); try congruence; reflexivity.
  - cbn [mbind result_bind JS.bind po_op po_value].
    destruct Hcases as [(-> & -> & Hv) | (-> & [-> | ->] & _)];
      rewrite ?Hv; destruct (op_obj X); try congruence; reflexivity.
Qed.

Lemma findElem_findIndex (st : BackendState) (obj : Value) (l : SkipList) (a : string) :
  elemIdsOf st obj = Ok l -> anchorOf l a ->
  exists i, findIndexOfElem st obj a = Ok i /\ findElemOfIndex st obj i = Ok (Some a).
Proof.
  intros Hl Ha. unfold findIndexOfElem, findElemOfIndex.
  destruct (String.eqb_spec a "_head") as [->|Hne].
  - exists (-1). auto.
  - destruct Ha as [?|[Hnil Hin]]; [congruence|].
    destruct (keyOf_indexOf l a Hnil Hin) as [Hge Hkey].
    exists (SkipList.indexOf l a). rewrite Hl. cbn [mbind result_bind JS.bind].
    split; [reflexivity|].
    destruct (Z.eqb_spec (SkipList.indexOf l a) (-1)); [lia|]. now rewrite Hkey.
Qed.

Lemma op_eta (X : Op) (k : string) :
  op_key X = Some k -> op_elem X = None ->
  mkOp (op_action X) (op_obj X) (Some k) (op_value X) None = X.
Proof. destruct X; cbn; now intros -> ->. Qed.

(** The side conditions of [callback_set_del]. *)
Ltac side Ha Hparent :=
  solve [ exact Hparent | apply ofZ_no_slash | assumption
        | rewrite ?Ha; reflexivity | rewrite ?Ha; congruence
        | destruct (strict_eq _ Null); congruence ].

(** C1 (as amended).  Round trip of a [set] or [del] op X through
    [opToPatch] and [patchToOps] against the same shadow, when the shadow
    finds X's parent object again at the path it gives it.  If X's key
    names a place the translator can address (on a map, a key without a
    slash; on a list, an element of the list that is not in the element
    cache), the result is exactly [[X]].  If X is the [set] of an element
    inserted earlier in the change (its key is in the cache), the result
    is a synthesized [ins] after the cached anchor followed by the [set]
    keyed by actor:elem, where elem is [elemOfKey]: the number written
    after the colon of X's key whenever there is one other than 0, and
    only otherwise one more than the shadow's maximum for the actor. *)
Theorem opToPatch_patchToOps_roundtrip (X : Op) (k : string) (origin : Change)
    (opIndex : nat) (instance : Instance) (elemCache : ElemCache)
    (parent : option (list string)) :
  plainSetOrDel X k ->
  parentResolves (state instance) X parent ->
  (addressable (state instance) (op_obj X) k elemCache ->
   exists patch,
     opToPatch X instance elemCache = Ok (patch, elemCache) /\
     patchToOps patch origin opIndex instance = Ok [X])
  /\
  (forall anchor,
     op_action X = ASet ->
     insertedAfter (state instance) (op_obj X) k elemCache anchor ->
     ch_ops origin !! opIndex = Some X ->
     exists patch,
       opToPatch X instance elemCache = Ok (patch, delete k elemCache) /\
       let e := elemOfKey k (orZero (elem instance !! ch_actor origin) + 1) in
       patchToOps patch origin opIndex instance
       = Ok [mkOp AIns (op_obj X) (Some anchor) Undefined (Some e);
             mkOp ASet (op_obj X) (Some (ch_actor origin +:+ ":" +:+ Str.ofZ e))
               (op_value X) None]).
Proof.
  intros Hplain [Hpath Hparent].
  pose proof Hplain as (Hkey & Helem & Hobj & Hval).
  split.
  - intros Haddr. unfold addressable in Haddr.
    destruct (getObjType (state instance) (op_obj X)) eqn:Htype.
    + (* an element of a list *)
      destruct Haddr as (Hcache & l & Hl & Hnil & Hin).
      destruct (findElem_findIndex _ _ _ k Hl (or_intror (conj Hnil Hin)))
        as (i & Hidx & Hfind).
      assert (Hbuild : buildPath X instance elemCache
                       = Ok (pathTo (default [] parent) (Str.ofZ i), elemCache)).
      { unfold buildPath. rewrite Hpath. cbn [mbind result_bind JS.bind].
        rewrite Htype, Hkey, Hcache, Hidx. reflexivity. }
      destruct (op_action X) eqn:Ha; try contradiction.
      * eexists. split.
        -- unfold opToPatch. rewrite Ha, Hbuild. reflexivity.
        -- eapply patchToOps_single. rewrite <- Hval at 1.
           rewrite (callback_set_del X k origin opIndex instance PRemove
                      (default [] parent) (Str.ofZ i) Hplain);
             [|side Ha Hparent ..].
           rewrite Htype, parseInt_ofZ, Hfind, Ha. cbn.
           rewrite <- Ha. now rewrite op_eta.
      * eexists. split.
        -- unfold opToPatch. rewrite Ha, Htype, Hkey. unfold keyInCache.
           rewrite Hcache, Hbuild. cbn. rewrite andb_false_r. reflexivity.
        -- eapply patchToOps_single.
           rewrite (callback_set_del X k origin opIndex instance PReplace
                      (default [] parent) (Str.ofZ i) Hplain);
             [|side Ha Hparent ..].
           rewrite Htype, parseInt_ofZ, Hfind, Ha. cbn.
           rewrite <- Ha. now rewrite op_eta.
    + (* a key of a map *)
      assert (Hbuild : buildPath X instance elemCache
                       = Ok (pathTo (default [] parent) k, elemCache)).
      { unfold buildPath. rewrite Hpath. cbn [mbind result_bind JS.bind].
        rewrite Htype, Hkey. reflexivity. }
      destruct (op_action X) eqn:Ha; try contradiction.
      * eexists. split.
        -- unfold opToPatch. rewrite Ha, Hbuild. reflexivity.
        -- eapply patchToOps_single. rewrite <- Hval at 1.
           rewrite (callback_set_del X k origin opIndex instance PRemove
                      (default [] parent) k Hplain);
             [|side Ha Hparent ..].
           rewrite Htype, Ha. rewrite <- Ha. now rewrite op_eta.
      * eexists. split.
        -- unfold opToPatch. rewrite Ha, Htype, Hbuild. reflexivity.
        -- eapply patchToOps_single.
           rewrite (callback_set_del X k origin opIndex instance _
                      (default [] parent) k Hplain);
             [|side Ha Hparent ..].
           rewrite Htype, Ha. rewrite <- Ha. now rewrite op_eta.
  - intros anchor Ha (Htype & Hnil & (cached & Hcache & Hanchor) & l & Hl & Hanc) Horig.
    destruct (findElem_findIndex _ _ _ anchor Hl Hanc) as (i & Hidx & Hfind).
    assert (Hbuild : buildPath X instance elemCache
                     = Ok (pathTo (default [] parent) (Str.ofZ (i + 1)),
                           delete k elemCache)).
    { unfold buildPath. rewrite Hpath. cbn [mbind result_bind JS.bind].
      rewrite Htype, Hkey, Hcache, Hanchor, Hidx. reflexivity. }
    exists [mkPatchOp PAdd (pathTo (default [] parent) (Str.ofZ (i + 1))) (op_value X)].
    split.
    + unfold opToPatch. rewrite Ha, Htype, Hkey. unfold keyInCache. rewrite Hcache.
      rewrite Hbuild. destruct (String.eqb_spec k ""); [congruence|]. reflexivity.
    + eapply patchToOps_single.
      rewrite (callback_set_del X k origin opIndex instance PAdd
                 (default [] parent) (Str.ofZ (i + 1)) Hplain);
        [|side Ha Hparent ..].
      rewrite Htype, parseInt_ofZ.
      replace (i + 1 - 1) with i by lia. rewrite Hfind, Horig, Ha, Hkey.
      cbn [mbind result_bind JS.bind default]. reflexivity.
Qed.

End TranslatorProperties.

Section EngineProperties.
Context `{!AutomergeBackend, !CambriaLenses, !Uuid}.

Lemma scrub_phantomFree (p : AutomergePatch) : phantomFree (scrub p).
Proof.
  split; cbn; intros c Hc.
  - destruct (ap_clock p); cbn in Hc; [|discriminate].
    injection Hc as <-. apply lookup_delete_eq.
  - destruct (ap_deps p); cbn in Hc; [|discriminate].
    injection Hc as <-. apply lookup_delete_eq.
Qed.

(** C2.  Phantom invisibility: no patch returned by the exported
    [applyChanges], [applyLocalChange] and [getPatch] has an entry for the
    phantom actor in its [clock] or in its [deps]. *)
Theorem phantom_invisibility (p : AutomergePatch) :
  emitted p -> phantomFree p.
Proof.
  intros [σ doc changes doc' p' Hok | σ doc request σ' doc' p' block Hok
         | σ doc doc' p' Hok].
  - unfold applyChanges in Hok. apply bind_Ok in Hok as ([d q] & _ & Hok).
    cbn in Hok. injection Hok as _ <-. apply scrub_phantomFree.
  - unfold applyLocalChange in Hok.
    apply bind_Ok in Hok as ([[[s d] q] b] & _ & Hok).
    cbn in Hok. injection Hok as _ _ <- _. apply scrub_phantomFree.
  - unfold getPatch in Hok. apply bind_Ok in Hok as ([d q] & _ & Hok).
    cbn in Hok. injection Hok as _ <-. apply scrub_phantomFree.
Qed.

(** C8.  Bootstrap construction: for a schema the lens graph knows,
    [bootstrap] returns a change exactly when applying the empty lens
    stack to the root-existence patch under the schema's JSON schema and
    converting all but the first patch op with [patchToOps] against the
    given instance both succeed, and the change is then those ops wrapped
    with actor '0000000000', seq 1 and empty deps. *)
Theorem bootstrap_construction (instance : Instance) (lensState : LensState)
    (jsonschema7 : JSONSchema7) (change : Change) :
  lensGraphSchema (graph lensState) (schema instance) = Some jsonschema7 ->
  bootstrap instance lensState = Ok change <->
  exists lensed ops,
    applyLensToPatch [] [mkPatchOp PAdd "" (Obj [])] (Some jsonschema7) = Ok lensed /\
    patchToOps (drop 1 lensed) (phantomChange []) 1 instance = Ok ops /\
    change = {| ch_actor := "0000000000"; ch_seq := 1; ch_deps := ∅;
                ch_message := ""; ch_ops := ops |}.
Proof.
  intros Hschema. unfold bootstrap. rewrite Hschema. split.
  - intros Hok. apply bind_Ok in Hok as (lensed & Hl & Hok).
    apply bind_Ok in Hok as (ops & Ho & Hok).
    injection Hok as <-. exists lensed, ops. auto.
  - intros (lensed & ops & Hl & Ho & ->).
    unfold urOp. rewrite Hl. cbn. unfold phantomChange in Ho.
    unfold CAMBRIA_MAGIC_ACTOR. rewrite Ho. reflexivity.
Qed.

(** C9.  First-change dependency injection: when the request has
    [seq = 1], [applyLocalChange] writes [deps['0000000000'] = 1] into the
    request object before the backend sees it; the block it returns holds
    that very object, and is the block appended to the history. *)
Theorem applyLocalChange_first_depends_on_phantom (σ : Heap) (this : CambriaBackend)
    (request : ChangeRef) (σ' : Heap) (this' : CambriaBackend)
    (patch : AutomergePatch) (block : CambriaBlock) :
  CambriaBackend_applyLocalChange σ this request = Ok (σ', this', patch, block) ->
  ch_seq (σ !!! request) = 1 ->
  b_change block = request
  /\ σ' = <[request := withPhantomDep (σ !!! request)]> σ
  /\ ch_deps (σ' !!! b_change block) !! "0000000000" = Some 1
  /\ history this' = (history this ++ [block])%list
  /\ exists st st' p,
       Backend_applyLocalChange st (σ' !!! request) = Ok (st', p)
       /\ (state <$> instances this' !! cb_schema this') = Some st'.
Proof.
  unfold CambriaBackend_applyLocalChange. intros Hok Hseq.
  assert (Hc : (ch_seq (σ !!! request) =? 1) = true) by (rewrite Hseq; reflexivity).
  rewrite Hc in Hok.
  destruct (getInstance this (cb_schema this)) as [instance this0] eqn:Hget.
  assert (Hhist : history this0 = history this /\ cb_schema this0 = cb_schema this).
  { unfold getInstance in Hget.
    destruct (instances this !! cb_schema this); injection Hget as _ <-; auto. }
  destruct Hhist as [Hhist Hsch].
  apply bind_Ok in Hok as ([instance1 bootdiffs] & _ & Hok).
  apply bind_Ok in Hok as ([newState p] & Hback & Hok).
  injection Hok as <- <- <- <-. cbn [b_change history instances cb_schema].
  split; [reflexivity|]. split; [reflexivity|]. split; [|split].
  - rewrite lookup_total_insert_eq. cbn. apply lookup_insert_eq.
  - now rewrite Hhist.
  - exists (state instance1), newState, p. split; [exact Hback|].
    now rewrite lookup_insert_eq.
Qed.

Lemma replay_loop_bootstrapped
    (gia : string -> string -> Z -> LensState -> result (Instance * LensState))
    (σ : Heap) (instance : Instance) (blocks : list CambriaBlock) :
  bootstrapped instance = true ->
  forall st : ReplayState,
    (forall t, rs_toInstance st = Some t -> bootstrapped t = true) ->
    applySchemaChanges_loop gia σ instance blocks st
    = replay_loop_noDefaults gia σ instance blocks st.
Proof.
  intros Hb. induction blocks as [|b rest IH]; intros st Hinv; [reflexivity|].
  cbn [applySchemaChanges_loop replay_loop_noDefaults].
  destruct (registerLenses (rs_lensState st) (b_lenses b)) as [ls|e]; [|reflexivity].
  cbn [mbind result_bind JS.bind].
  destruct (String.eqb (b_schema b) (schema instance)).
  - apply IH. exact Hinv.
  - destruct (match rs_fromInstance st with Some i => Ok i | None => _ end)
      as [fi|e]; [|reflexivity].
    assert (Ht : bootstrapped (default instance (rs_toInstance st)) = true).
    { destruct (rs_toInstance st) as [t|] eqn:Et; cbn; auto. }
    rewrite Ht. cbn [mbind result_bind JS.bind].
    destruct (convertChange σ b fi (default instance (rs_toInstance st)) ls)
      as [[[c f'] t']|e] eqn:Hc; [|reflexivity].
    cbn [mbind result_bind JS.bind].
    apply IH. cbn. intros t0 Heq. injection Heq as <-.
    eapply convertChange_bootstrapped; eauto.
Qed.

Lemma applySchemaChanges_bootstrapped (fuel : nat) (σ : Heap)
    (blocks : list CambriaBlock) (instance : Instance) (lensState : LensState)
    (history : list CambriaBlock) :
  bootstrapped instance = true ->
  applySchemaChanges fuel σ blocks instance lensState history
  = replay_noDefaults fuel σ blocks instance lensState history.
Proof.
  intros Hb. destruct fuel as [|fuel]; [reflexivity|].
  cbn [applySchemaChanges replay_noDefaults].
  rewrite replay_loop_bootstrapped by (auto; cbn; discriminate).
  unfold getInstanceAt.
  destruct (replay_loop_noDefaults _ σ instance blocks _) as [st|e]; [|reflexivity].
  cbn [mbind result_bind JS.bind]. rewrite Hb. reflexivity.
Qed.

(** *** The fuel of the replay

    [getInstanceAt] replays the blocks before the first block with the
    actor and seq it is given; a block of that prefix is found, by its
    own actor and seq, at its own position or before.  So the nesting of
    [applySchemaChanges] is no deeper than the history is long, and fuel
    beyond that changes nothing. *)

Lemma findBlockIndex_range (σ : Heap) (actorId : string) (seq : Z)
    (history : list CambriaBlock) :
  forall (i idx : nat),
    findBlockIndex σ actorId seq history i = Some idx ->
    (i <= idx < i + length history)%nat.
Proof.
  induction history as [|b h IH]; intros i idx Hfind; cbn in Hfind; [discriminate|].
  destruct (_ && _).
  - injection Hfind as <-. cbn. lia.
  - apply IH in Hfind. cbn. lia.
Qed.

Lemma findBlockIndex_before (σ : Heap) (history : list CambriaBlock) :
  forall (i j : nat) (b : CambriaBlock),
    history !! j = Some b ->
    exists idx,
      findBlockIndex σ (ch_actor (σ !!! b_change b)) (ch_seq (σ !!! b_change b))
        history i = Some idx
      /\ (idx <= i + j)%nat.
Proof.
  induction history as [|b' h IH]; intros i j b Hj; [discriminate|].
  cbn [findBlockIndex]. destruct (_ && _) eqn:Hm.
  - exists i. split; [reflexivity | lia].
  - destruct j as [|j]; cbn in Hj.
    + injection Hj as ->. rewrite String.eqb_refl, Z.eqb_refl in Hm. discriminate.
    + destruct (IH (S i) j b Hj) as (idx & Hidx & Hle). exists idx. split; [exact Hidx | lia].
Qed.

Lemma applySchemaChanges_loop_ext
    (gia1 gia2 : string -> string -> Z -> LensState -> result (Instance * LensState))
    (σ : Heap) (instance : Instance) (blocks : list CambriaBlock) :
  (forall b, b ∈ blocks -> forall ls,
      gia1 (b_schema b) (ch_actor (σ !!! b_change b)) (ch_seq (σ !!! b_change b)) ls
      = gia2 (b_schema b) (ch_actor (σ !!! b_change b)) (ch_seq (σ !!! b_change b)) ls) ->
  forall st, applySchemaChanges_loop gia1 σ instance blocks st
             = applySchemaChanges_loop gia2 σ instance blocks st.
Proof.
  induction blocks as [|b rest IH]; intros Hagree st; [reflexivity|].
  cbn [applySchemaChanges_loop].
  destruct (registerLenses (rs_lensState st) (b_lenses b)) as [ls|e]; [|reflexivity].
  cbn [mbind result_bind JS.bind].
  rewrite (Hagree b (list_elem_of_here _ _) ls).
  destruct (if String.eqb (b_schema b) (schema instance) then _ else _) as [st'|e];
    [|reflexivity].
  cbn [mbind result_bind JS.bind]. apply IH.
  intros b' Hb'. apply Hagree. now apply list_elem_of_further.
Qed.

Lemma applySchemaChanges_fuel (σ : Heap) (history : list CambriaBlock) (n : nat) :
  forall (fuel1 fuel2 : nat), (n < fuel1)%nat -> (n < fuel2)%nat ->
  forall (blocks : list CambriaBlock) (instance : Instance) (lensState : LensState),
    (forall b idx, b ∈ blocks ->
       findBlockIndex σ (ch_actor (σ !!! b_change b)) (ch_seq (σ !!! b_change b))
         history 0 = Some idx -> (idx < n)%nat) ->
    applySchemaChanges fuel1 σ blocks instance lensState history
    = applySchemaChanges fuel2 σ blocks instance lensState history.
Proof.
  induction n as [n IH] using lt_wf_ind.
  intros [|fuel1] [|fuel2] Hf1 Hf2 blocks instance lensState Hbound; try lia.
  cbn [applySchemaChanges].
  match goal with
  | |- mbind _ (applySchemaChanges_loop ?g1 _ _ _ _)
       = mbind _ (applySchemaChanges_loop ?g2 _ _ _ _) =>
      rewrite (applySchemaChanges_loop_ext g1 g2); [reflexivity|]
  end.
  intros b Hb ls. cbv beta.
  destruct (findBlockIndex σ _ _ history 0) as [idx|] eqn:Hidx; [|reflexivity].
  pose proof (Hbound b idx Hb Hidx) as Hlt.
  rewrite (IH idx Hlt fuel1 fuel2 ltac:(lia) ltac:(lia)); [reflexivity|].
  intros b' idx' Hb' Hidx'.
  apply list_elem_of_lookup in Hb' as [j Hj].
  pose proof (lookup_lt_Some _ _ _ Hj) as Hjlt. rewrite length_take in Hjlt.
  rewrite lookup_take_lt in Hj by lia.
  destruct (findBlockIndex_before σ history 0 j b' Hj) as (idx'' & Hfound & Hle).
  rewrite Hfound in Hidx'. injection Hidx' as <-. lia.
Qed.

(** The fuel the engine gives [applySchemaChanges] is enough: more fuel
    gives the same result. *)
Lemma applySchemaChanges_enough_fuel (σ : Heap) (history : list CambriaBlock)
    (fuel : nat) (blocks : list CambriaBlock) (instance : Instance)
    (lensState : LensState) :
  (length history < fuel)%nat ->
  applySchemaChanges fuel σ blocks instance lensState history
  = applySchemaChanges (S (length history)) σ blocks instance lensState history.
Proof.
  intros Hfuel. apply (applySchemaChanges_fuel σ history (length history)); [lia..|].
  intros b idx _ Hidx. apply findBlockIndex_range in Hidx. lia.
Qed.

Lemma getInstance_present (this : CambriaBackend) (schema : string) (i : Instance) :
  instances this !! schema = Some i -> getInstance this schema = (i, this).
Proof. unfold getInstance. now intros ->. Qed.

Lemma bootstrapped_treated (instance : Instance) :
  bootstrapped instance = true -> treatedAsBootstrapped instance.
Proof.
  intros Hb. split; [exact Hb|]. split.
  - intros. now apply applySchemaChanges_bootstrapped.
  - intros σ this request σ' this' patch' block Hprim Hloc.
    unfold CambriaBackend_applyLocalChange in Hloc.
    rewrite (getInstance_present _ _ _ Hprim), Hb in Hloc.
    cbn [mbind result_bind JS.bind] in Hloc.
    apply bind_Ok in Hloc as ([st' p] & Hback & Hloc).
    injection Hloc as <- _ <- _. exists st', p. split; [exact Hback | reflexivity].
Qed.

(** C10.  Every instance [applyChangesToInstance] returns has
    [bootstrapped = true], whatever the changes were and whether or not
    the instance given was bootstrapped; and so has every instance
    [applyOps] returns, which change conversion plays its ops through.
    From then on such an instance is treated as bootstrapped:
    [applySchemaChanges] replays blocks into it (and into its clone)
    without the defaults change, and [applyLocalChange] applies a local
    change to it with no bootstrap diffs put in front. *)
Theorem applyChangesToInstance_marks_bootstrapped :
  (forall (instance : Instance) (changes : list Change)
          (instance' : Instance) (patch : AutomergePatch),
     applyChangesToInstance instance changes = Ok (instance', patch) ->
     treatedAsBootstrapped instance')
  /\
  (forall (instance : Instance) (ops : list Op) (actor : string) (instance' : Instance),
     applyOps instance ops actor = Ok instance' ->
     treatedAsBootstrapped instance').
Proof.
  split.
  - intros instance changes instance' patch Hok.
    eapply bootstrapped_treated, applyChangesToInstance_bootstrapped, Hok.
  - intros instance ops actor instance' Hok.
    eapply bootstrapped_treated, applyOps_bootstrapped, Hok.
Qed.

(** C3 (as amended).  Applying a block a second time: when the first
    [applyChanges([B])] left the primary instance with a clock entry for
    B's actor that is at least B's seq, and the backend answers an empty
    change list with the state, clock and deps it has and no diffs, the
    second [applyChanges([B])] filters B out, leaves the whole engine as it
    is and returns that patch with no diffs. *)
Theorem applyChanges_twice_unchanged (σ : Heap) (this : CambriaBackend)
    (B : CambriaBlock) (this1 : CambriaBackend) (p1 p2 : AutomergePatch)
    (primary : Instance) :
  CambriaBackend_applyChanges σ this [B] = Ok (this1, p1) ->
  instances this1 !! cb_schema this1 = Some primary ->
  b_seq B <= orZero (clock primary !! b_actor B) ->
  Backend_applyChanges (state primary) [] = Ok (state primary, p2) ->
  ap_diffs p2 = [] ->
  default ∅ (ap_clock p2) = clock primary ->
  default ∅ (ap_deps p2) = deps primary ->
  CambriaBackend_applyChanges σ this1 [B] = Ok (this1, p2)
  /\ ap_diffs p2 = [].
Proof.
  intros Hfirst Hprim Hseq Hback Hdiffs Hclock Hdeps. split; [|exact Hdiffs].
  assert (Hb : bootstrapped primary = true).
  { unfold CambriaBackend_applyChanges in Hfirst.
    destruct (getInstance this (cb_schema this)) as [i0 this0].
    apply bind_Ok in Hfirst as ([[ni q] ls] & Happ & Hfirst).
    injection Hfirst as <- _. cbn in Hprim. rewrite lookup_insert_eq in Hprim.
    injection Hprim as <-.
    cbn [applySchemaChanges] in Happ.
    apply bind_Ok in Happ as (st & _ & Happ).
    apply bind_Ok in Happ as (cs & _ & Happ).
    apply bind_Ok in Happ as ([ni' q'] & Hinst & Happ).
    injection Happ as <- _ _. eapply applyChangesToInstance_bootstrapped, Hinst. }
  unfold CambriaBackend_applyChanges.
  rewrite (getInstance_present _ _ _ Hprim).
  cbn [filter list_filter].
  destruct (decide (orZero (clock primary !! b_actor B) < b_seq B)) as [Hlt|_]; [lia|].
  rewrite app_nil_r. cbn [applySchemaChanges applySchemaChanges_loop].
  cbn [mbind result_bind JS.bind rs_changesToApply rs_lensState]. rewrite Hb.
  cbn [mbind result_bind JS.bind].
  unfold applyChangesToInstance. rewrite Hback. cbn [mbind result_bind JS.bind fold_left].
  rewrite Hclock, Hdeps.
  f_equal. f_equal.
  destruct this1 as [sch hist lns ls insts]. cbn in *. f_equal.
  apply insert_id. rewrite Hprim. f_equal.
  destruct primary. cbn in *. now subst.
Qed.

End EngineProperties.

(* ===================================================================== *)
(** ** Further properties of the module *)
(* ===================================================================== *)

Section ClockProperties.
Context `{!AutomergeBackend, !CambriaLenses, !Uuid}.

Lemma clock_keys (c : Clock) (key : string) :
  In key (fst <$> map_to_list c) <-> is_Some (c !! key).
Proof.
  rewrite <- list_elem_of_In, list_elem_of_fmap. split.
  - intros ([k v] & -> & Hin). apply elem_of_map_to_list in Hin. cbn. eauto.
  - intros [v Hv]. exists (key, v). split; [reflexivity|]. now apply elem_of_map_to_list.
Qed.

Lemma lessOrEqual_true (clock1 clock2 : Clock) :
  lessOrEqual clock1 clock2 = true ->
  forall key, orZero (clock1 !! key) <= orZero (clock2 !! key).
Proof.
  unfold lessOrEqual. rewrite forallb_forall. intros Hall key.
  destruct (clock1 !! key) as [v1|] eqn:Hc1.
  - rewrite <- Hc1. apply Z.leb_le, Hall, in_or_app. left.
    apply clock_keys. rewrite Hc1. eauto.
  - destruct (clock2 !! key) as [v2|] eqn:Hc2; [|cbn; lia].
    rewrite <- Hc1, <- Hc2. apply Z.leb_le, Hall, in_or_app. right.
    apply clock_keys. rewrite Hc2. eauto.
Qed.

Lemma lessOrEqual_false (clock1 clock2 : Clock) :
  lessOrEqual clock1 clock2 = false <->
  exists key, orZero (clock2 !! key) < orZero (clock1 !! key).
Proof.
  split.
  - unfold lessOrEqual.
    generalize ((fst <$> map_to_list clock1) ++ (fst <$> map_to_list clock2))%list.
    intros keys. induction keys as [|k keys IH]; cbn; [discriminate|].
    destruct (Z.leb_spec (orZero (clock1 !! k)) (orZero (clock2 !! k))) as [Hle|Hgt].
    + cbn. exact IH.
    + intros _. eauto.
  - intros [key Hgt]. destruct (lessOrEqual clock1 clock2) eqn:Hle; [|reflexivity].
    pose proof (lessOrEqual_true _ _ Hle key). lia.
Qed.

(** X1.  [lessOrEqual(clock1, clock2)] holds exactly when no actor has a
    higher count in [clock1] than in [clock2], an actor without an entry
    counting as [0]. *)
Theorem lessOrEqual_pointwise (clock1 clock2 : Clock) :
  lessOrEqual clock1 clock2 = true <->
  forall key, orZero (clock1 !! key) <= orZero (clock2 !! key).
Proof.
  split; [apply lessOrEqual_true|].
  intros Hall. destruct (lessOrEqual clock1 clock2) eqn:Hle; [reflexivity|].
  apply lessOrEqual_false in Hle as [key Hgt]. specialize (Hall key). lia.
Qed.

(** X2.  [getChanges(oldState, newState)] throws the RangeError 'Cannot
    diff two states that have diverged' exactly when some actor has a
    higher count in the old primary clock than in the new one; in every
    other case it returns the blocks of the new engine's history whose
    change the old clock does not cover. *)
Theorem getChanges_diverged (σ : Heap) (oldState newState : CambriaBackend) :
  (getChanges σ oldState newState
   = Throw (RangeError "Cannot diff two states that have diverged")
   <-> exists actor,
         orZero (clock (fst (primaryInstance newState)) !! actor)
         < orZero (clock (fst (primaryInstance oldState)) !! actor))
  /\ (getChanges σ oldState newState
      = Ok (getMissingChanges σ newState (clock (fst (primaryInstance oldState))))
      <-> forall actor,
            orZero (clock (fst (primaryInstance oldState)) !! actor)
            <= orZero (clock (fst (primaryInstance newState)) !! actor)).
Proof.
  unfold getChanges, getMissingChanges.
  destruct (lessOrEqual _ _) eqn:Hle.
  - pose proof (lessOrEqual_true _ _ Hle) as Hall. split; split; try congruence.
    intros [actor Hgt]. specialize (Hall actor). lia.
  - apply lessOrEqual_false in Hle as [actor Hgt]. split; split; try congruence.
    + intros _. eauto.
    + intros Hall. specialize (Hall actor). lia.
Qed.

(** X3.  [getChangesForActor(doc, actor, after)] returns, in the order of
    the history, the blocks of [getMissingChanges(doc, {[actor]: after})]
    whose change is by [actor]. *)
Theorem getChangesForActor_of_missing (σ : Heap) (doc : CambriaBackend)
    (actor : string) (after : Z) :
  getChangesForActor σ doc actor after
  = filter (fun b => ch_actor (σ !!! b_change b) = actor)
      (getMissingChanges σ doc {[ actor := after ]}).
Proof.
  unfold getChangesForActor, getMissingChanges, CambriaBackend_getMissingChanges.
  rewrite list_filter_filter. apply list_filter_iff. intros b. split.
  - intros [Ha Hs]. split; [exact Ha|]. rewrite Ha, lookup_singleton_eq. exact Hs.
  - intros [Ha Hs]. split; [exact Ha|]. rewrite Ha, lookup_singleton_eq in Hs. exact Hs.
Qed.

End ClockProperties.

Section EngineHistory.
Context `{!AutomergeBackend, !CambriaLenses, !Uuid}.

Lemma getInstance_frame (this : CambriaBackend) (s : string) :
  cb_schema (snd (getInstance this s)) = cb_schema this
  /\ history (snd (getInstance this s)) = history this
  /\ lenses (snd (getInstance this s)) = lenses this
  /\ lensState (snd (getInstance this s)) = lensState this.
Proof. unfold getInstance. destruct (instances this !! s); cbn; auto. Qed.

Lemma getInstance_lookup (this : CambriaBackend) (s : string) :
  instances (snd (getInstance this s)) !! s = Some (fst (getInstance this s)).
Proof.
  unfold getInstance. destruct (instances this !! s) eqn:Hs; cbn; [exact Hs|].
  apply lookup_insert_eq.
Qed.

Lemma getInstance_other (this : CambriaBackend) (s s' : string) :
  s' <> s -> instances (snd (getInstance this s)) !! s' = instances this !! s'.
Proof.
  intros Hne. unfold getInstance. destruct (instances this !! s); cbn; [reflexivity|].
  now apply lookup_insert_ne.
Qed.

Lemma getInstance_fresh (this : CambriaBackend) (s : string) :
  instances this !! s = None -> fst (getInstance this s) = initInstance s.
Proof. unfold getInstance. now intros ->. Qed.

Lemma getInstance_again (this : CambriaBackend) (s : string) :
  getInstance (snd (getInstance this s)) s
  = (fst (getInstance this s), snd (getInstance this s)).
Proof. apply getInstance_present, getInstance_lookup. Qed.

Lemma lensTargets_app (h1 h2 : list CambriaBlock) :
  lensTargets (h1 ++ h2) = lensTargets h1 ∪ lensTargets h2.
Proof. unfold lensTargets. now rewrite fmap_app, concat_app, list_to_set_app_L. Qed.

Lemma lensTargets_cons (b : CambriaBlock) (h : list CambriaBlock) :
  lensTargets (b :: h) = list_to_set (rl_to <$> b_lenses b) ∪ lensTargets h.
Proof. unfold lensTargets. cbn. now rewrite list_to_set_app_L. Qed.

Lemma registerLenses_inDoc (lenses : list RegisteredLens) :
  forall ls ls' : LensState,
    registerLenses ls lenses = Ok ls' ->
    inDoc ls' = list_to_set (rl_to <$> lenses) ∪ inDoc ls.
Proof.
  induction lenses as [|lens rest IH]; intros ls ls' Hok; cbn in Hok.
  - injection Hok as <-. cbn. set_solver.
  - apply bind_Ok in Hok as (g & _ & Hok). apply IH in Hok. rewrite Hok. cbn. set_solver.
Qed.

Lemma applySchemaChanges_loop_lensState
    (gia : string -> string -> Z -> LensState -> result (Instance * LensState))
    (σ : Heap) (instance : Instance) (blocks : list CambriaBlock) :
  forall st st' : ReplayState,
    applySchemaChanges_loop gia σ instance blocks st = Ok st' ->
    registerAll (rs_lensState st) blocks = Ok (rs_lensState st').
Proof.
  induction blocks as [|b rest IH]; intros st st' Hok; cbn in Hok.
  - now injection Hok as <-.
  - apply bind_Ok in Hok as (ls & Hls & Hok).
    apply bind_Ok in Hok as (st1 & Hst1 & Hok).
    cbn [registerAll]. rewrite Hls. cbn [mbind result_bind JS.bind].
    apply IH in Hok. rewrite <- Hok. f_equal.
    destruct (String.eqb (b_schema b) (schema instance)).
    + now injection Hst1 as <-.
    + apply bind_Ok in Hst1 as (fi & _ & Hst1).
      apply bind_Ok in Hst1 as (ti & _ & Hst1).
      apply bind_Ok in Hst1 as ([[c f'] t'] & _ & Hst1).
      now injection Hst1 as <-.
Qed.

Lemma registerAll_inDoc (blocks : list CambriaBlock) :
  forall ls ls' : LensState,
    registerAll ls blocks = Ok ls' -> inDoc ls' = lensTargets blocks ∪ inDoc ls.
Proof.
  induction blocks as [|b rest IH]; intros ls ls' Hok; cbn in Hok.
  - injection Hok as <-. unfold lensTargets. cbn. set_solver.
  - apply bind_Ok in Hok as (ls1 & Hreg & Hok).
    apply IH in Hok. apply registerLenses_inDoc in Hreg.
    rewrite Hok, Hreg, lensTargets_cons. set_solver.
Qed.

(** What a successful [applySchemaChanges] has done: registered the
    lenses of the blocks, and applied some list of changes to the
    instance through [applyChangesToInstance]. *)
Lemma applySchemaChanges_Ok (fuel : nat) (σ : Heap) (blocks : list CambriaBlock)
    (instance : Instance) (ls : LensState) (history : list CambriaBlock)
    (i : Instance) (p : AutomergePatch) (ls' : LensState) :
  applySchemaChanges fuel σ blocks instance ls history = Ok (i, p, ls') ->
  registerAll ls blocks = Ok ls'
  /\ exists changes, applyChangesToInstance instance changes = Ok (i, p).
Proof.
  destruct fuel as [|fuel]; [discriminate|]. cbn [applySchemaChanges]. intros Hok.
  apply bind_Ok in Hok as (st & Hloop & Hok).
  apply bind_Ok in Hok as (cs & _ & Hok).
  apply bind_Ok in Hok as ([i' p'] & Hinst & Hok).
  injection Hok as <- <- <-.
  apply applySchemaChanges_loop_lensState in Hloop. cbn in Hloop. eauto.
Qed.

(** The method [applyChanges], taken apart. *)
Lemma CambriaBackend_applyChanges_Ok (σ : Heap) (this : CambriaBackend)
    (blocks : list CambriaBlock) (this' : CambriaBackend) (patch : AutomergePatch) :
  CambriaBackend_applyChanges σ this blocks = Ok (this', patch) ->
  exists fBlocks newInstance newLensState changes,
    fBlocks = filter (fun block =>
                orZero (clock (fst (getInstance this (cb_schema this))) !! b_actor block)
                < b_seq block) blocks
    /\ registerAll (lensState this) fBlocks = Ok newLensState
    /\ applyChangesToInstance (fst (getInstance this (cb_schema this))) changes
       = Ok (newInstance, patch)
    /\ this' = {| cb_schema := cb_schema this;
                  history := (history this ++ fBlocks)%list;
                  lenses := lenses this;
                  lensState := newLensState;
                  instances := <[cb_schema this := newInstance]>
                                 (instances (snd (getInstance this (cb_schema this)))) |}.
Proof.
  unfold CambriaBackend_applyChanges. intros Hok.
  destruct (getInstance_frame this (cb_schema this)) as (Hs & Hh & Hl & Hls).
  destruct (getInstance this (cb_schema this)) as [instance this0]. cbn [fst snd] in *.
  apply bind_Ok in Hok as ([[ni q] nls] & Happ & Hok).
  injection Hok as <- <-. rewrite Hs, Hh, Hl, Hls in *.
  apply applySchemaChanges_Ok in Happ as (Hreg & changes & Hinst).
  eexists _, ni, nls, changes. repeat split; eauto.
Qed.

(** The method [applyLocalChange], taken apart. *)
Lemma CambriaBackend_applyLocalChange_Ok (σ : Heap) (this : CambriaBackend)
    (request : ChangeRef) (σ' : Heap) (this' : CambriaBackend)
    (patch : AutomergePatch) (block : CambriaBlock) :
  CambriaBackend_applyLocalChange σ this request = Ok (σ', this', patch, block) ->
  let hasSchema := bool_decide (cb_schema this ∈ inDoc (lensState this)) in
  let primary := fst (getInstance this (cb_schema this)) in
  exists (instance : Instance) (bootdiffs : list Diff) newState (p : AutomergePatch),
    block = {| b_schema := cb_schema this;
               b_lenses := if hasSchema then [] else lenses this;
               b_change := request;
               b_actor := ch_actor (σ !!! request);
               b_seq := ch_seq (σ !!! request) |}
    /\ (if bootstrapped primary then instance = primary /\ bootdiffs = []
        else exists bootstrapChange bootPatch,
               applyChangesToInstance primary [bootstrapChange] = Ok (instance, bootPatch)
               /\ bootdiffs = ap_diffs bootPatch)
    /\ Backend_applyLocalChange (state instance) (σ' !!! request) = Ok (newState, p)
    /\ patch = {| ap_diffs := (bootdiffs ++ ap_diffs p)%list;
                  ap_clock := ap_clock p; ap_deps := ap_deps p |}
    /\ this' = {| cb_schema := cb_schema this;
                  history := (history this ++ [block])%list;
                  lenses := lenses this;
                  lensState :=
                    {| inDoc := if hasSchema then inDoc (lensState this)
                                else inDoc (lensState this)
                                       ∪ list_to_set (rl_to <$> lenses this);
                       graph := graph (lensState this) |};
                  instances :=
                    <[cb_schema this :=
                        {| state := newState;
                           clock := default ∅ (ap_clock p);
                           deps := default ∅ (ap_deps p);
                           schema := schema instance;
                           elem := elem instance;
                           bootstrapped := bootstrapped instance |}]>
                      (instances (snd (getInstance this (cb_schema this)))) |}.
Proof.
  unfold CambriaBackend_applyLocalChange. intros Hok. cbv zeta.
  destruct (getInstance_frame this (cb_schema this)) as (Hs & Hh & Hl & Hls).
  destruct (getInstance this (cb_schema this)) as [instance this0]. cbn [fst snd] in *.
  apply bind_Ok in Hok as ([instance1 bootdiffs] & Hboot & Hok).
  apply bind_Ok in Hok as ([newState p] & Hback & Hok).
  injection Hok as <- <- <- <-. rewrite Hs, Hh, Hl in *.
  exists instance1, bootdiffs, newState, p.
  split; [reflexivity|]. split; [|split; [exact Hback|split; reflexivity]].
  destruct (bootstrapped instance).
  - injection Hboot as <- <-. auto.
  - apply bind_Ok in Hboot as (bc & _ & Hboot).
    apply bind_Ok in Hboot as ([ni bp] & Hinst & Hboot).
    injection Hboot as <- <-. eauto.
Qed.

(** The method [getPatch], taken apart. *)
Lemma CambriaBackend_getPatch_Ok (σ : Heap) (this this' : CambriaBackend)
    (patch : AutomergePatch) :
  CambriaBackend_getPatch σ this = Ok (this', patch) ->
  exists p0 i,
    CambriaBackend_applyChanges σ this [] = Ok (this', p0)
    /\ instances this' !! cb_schema this' = Some i
    /\ Backend_getPatch (state i) = Ok patch.
Proof.
  unfold CambriaBackend_getPatch. intros Hok.
  apply bind_Ok in Hok as ([this1 p0] & Happ & Hok).
  pose proof Happ as Happ'.
  apply CambriaBackend_applyChanges_Ok in Happ'
    as (fB & ni & nls & cs & _ & _ & _ & Hthis).
  assert (Hprim : instances this1 !! cb_schema this1 = Some ni).
  { rewrite Hthis. cbn. apply lookup_insert_eq. }
  rewrite (getInstance_present _ _ _ Hprim) in Hok.
  apply bind_Ok in Hok as (q & Hq & Hok).
  injection Hok as <- <-. eauto.
Qed.

Lemma step_frame (e e' : CambriaBackend) :
  step e e' ->
  history e `prefix_of` history e'
  /\ cb_schema e' = cb_schema e /\ lenses e' = lenses e
  /\ inDoc (lensState e) ⊆ inDoc (lensState e').
Proof.
  intros [σ this blocks this' p Hok | σ this request σ' this' p block Hok
         | σ this this' p Hok | this | this p].
  - apply CambriaBackend_applyChanges_Ok in Hok
      as (fB & ni & nls & cs & _ & Hreg & _ & ->). cbn.
    apply registerAll_inDoc in Hreg.
    repeat split; [apply prefix_app_r; reflexivity | set_solver].
  - apply CambriaBackend_applyLocalChange_Ok in Hok
      as (i & bd & ns & q & _ & _ & _ & _ & ->). cbn.
    repeat split; [apply prefix_app_r; reflexivity |].
    destruct (bool_decide _); set_solver.
  - apply CambriaBackend_getPatch_Ok in Hok as (p0 & i0 & Hok & _).
    apply CambriaBackend_applyChanges_Ok in Hok
      as (fB & ni & nls & cs & -> & Hreg & _ & ->). cbn.
    cbn in Hreg. injection Hreg as <-. rewrite app_nil_r. repeat split; reflexivity.
  - unfold primaryInstance.
    destruct (getInstance_frame this (cb_schema this)) as (Hs & Hh & Hl & Hls).
    rewrite Hs, Hh, Hl, Hls. repeat split; reflexivity.
  - cbn. repeat split; reflexivity.
Qed.

Lemma evolves_schema_inDoc (e e' : CambriaBackend) :
  evolves e e' ->
  cb_schema e' = cb_schema e /\ inDoc (lensState e) ⊆ inDoc (lensState e').
Proof.
  induction 1 as [e | e e1 e2 Hstep _ IH]; [split; reflexivity|].
  apply step_frame in Hstep as (_ & Hs & _ & Hd). destruct IH as [Hs' Hd'].
  split; [congruence | set_solver].
Qed.

(** X4.  The history of an engine only grows at its end, and its schema
    and its lens list never change: whatever is done to an engine, the
    history it had is a prefix of the history it has, and the set of
    schemas recorded as in the document only grows. *)
Theorem history_append_only (e e' : CambriaBackend) :
  evolves e e' ->
  history e `prefix_of` history e'
  /\ cb_schema e' = cb_schema e /\ lenses e' = lenses e
  /\ inDoc (lensState e) ⊆ inDoc (lensState e').
Proof.
  induction 1 as [e | e e1 e2 Hstep _ IH].
  - repeat split; reflexivity.
  - apply step_frame in Hstep as (Hp & Hs & Hl & Hd).
    destruct IH as (Hp' & Hs' & Hl' & Hd').
    repeat split; [etrans; eauto | congruence | congruence | set_solver].
Qed.

Lemma step_inDoc (e e' : CambriaBackend) :
  step e e' ->
  inDoc (lensState e) = lensTargets (history e) ->
  inDoc (lensState e') = lensTargets (history e').
Proof.
  intros [σ this blocks this' p Hok | σ this request σ' this' p block Hok
         | σ this this' p Hok | this | this p] Hinv.
  - apply CambriaBackend_applyChanges_Ok in Hok
      as (fB & ni & nls & cs & _ & Hreg & _ & ->). cbn [history lensState inDoc].
    apply registerAll_inDoc in Hreg. rewrite Hreg, lensTargets_app, Hinv. set_solver.
  - apply CambriaBackend_applyLocalChange_Ok in Hok
      as (i & bd & ns & q & -> & _ & _ & _ & ->). cbn [history lensState inDoc].
    rewrite lensTargets_app, lensTargets_cons, Hinv. cbn [b_lenses].
    destruct (bool_decide _); unfold lensTargets; cbn; set_solver.
  - apply CambriaBackend_getPatch_Ok in Hok as (p0 & i0 & Hok & _).
    apply CambriaBackend_applyChanges_Ok in Hok
      as (fB & ni & nls & cs & -> & Hreg & _ & ->). cbn.
    cbn in Hreg. injection Hreg as <-. now rewrite app_nil_r.
  - unfold primaryInstance.
    destruct (getInstance_frame this (cb_schema this)) as (Hs & Hh & Hl & Hls).
    now rewrite Hh, Hls.
  - exact Hinv.
Qed.

Lemma init_Ok (options : InitOptions) (e : CambriaBackend) :
  init options = Ok e ->
  exists g lensStack,
    reduceLenses initLensGraph (io_lenses options) = Ok g
    /\ lensFromTo g "mu" (io_schema options) = Ok lensStack
    /\ e = {| cb_schema := io_schema options; history := []; instances := ∅;
              lenses := io_lenses options;
              lensState := {| inDoc := ∅; graph := g |} |}.
Proof.
  unfold init. intros Hok.
  apply bind_Ok in Hok as (g & Hg & Hok).
  apply bind_Ok in Hok as (ls & Hls & Hok).
  injection Hok as <-. eauto.
Qed.

(** X5.  The engine [init] returns has an empty history, so it has no
    block to send whatever the peer has; its primary instance is the empty
    instance of the schema asked for; and its lens graph, the one the
    lenses of the options build, has a path from 'mu' to that schema. *)
Theorem init_fresh (options : InitOptions) (e : CambriaBackend) :
  init options = Ok e ->
  cb_schema e = io_schema options /\ lenses e = io_lenses options
  /\ history e = [] /\ inDoc (lensState e) = ∅
  /\ fst (primaryInstance e) = initInstance (io_schema options)
  /\ (forall σ haveDeps, getMissingChanges σ e haveDeps = [])
  /\ reduceLenses initLensGraph (io_lenses options) = Ok (graph (lensState e))
  /\ exists lensStack,
       lensFromTo (graph (lensState e)) "mu" (io_schema options) = Ok lensStack.
Proof.
  intros Hok. apply init_Ok in Hok as (g & lensStack & Hg & Hpath & ->). cbn.
  repeat split; eauto.
Qed.

Lemma step_inDoc_below (e e' : CambriaBackend) :
  step e e' ->
  inDoc (lensState e) ⊆ lensTargets (history e) ->
  inDoc (lensState e') ⊆ lensTargets (history e').
Proof.
  intros [σ this blocks this' p Hok | σ this request σ' this' p block Hok
         | σ this this' p Hok | this | this p] Hinv.
  - apply CambriaBackend_applyChanges_Ok in Hok
      as (fB & ni & nls & cs & _ & Hreg & _ & ->). cbn [history lensState inDoc].
    apply registerAll_inDoc in Hreg. rewrite Hreg, lensTargets_app. set_solver.
  - apply CambriaBackend_applyLocalChange_Ok in Hok
      as (i & bd & ns & q & -> & _ & _ & _ & ->). cbn [history lensState inDoc].
    rewrite lensTargets_app, lensTargets_cons. cbn [b_lenses].
    destruct (bool_decide _); unfold lensTargets in *; cbn; set_solver.
  - apply CambriaBackend_getPatch_Ok in Hok as (p0 & i0 & Hok & _).
    apply CambriaBackend_applyChanges_Ok in Hok
      as (fB & ni & nls & cs & -> & Hreg & _ & ->). cbn.
    cbn in Hreg. injection Hreg as <-. now rewrite app_nil_r.
  - unfold primaryInstance.
    destruct (getInstance_frame this (cb_schema this)) as (Hs & Hh & Hl & Hls).
    now rewrite Hh, Hls.
  - exact Hinv.
Qed.

Lemma throws_inDoc_below (e e' : CambriaBackend) :
  throws e e' ->
  inDoc (lensState e) ⊆ lensTargets (history e) ->
  inDoc (lensState e') ⊆ lensTargets (history e').
Proof.
  intros [σ this blocks err marked _ | σ this request err _] Hinv.
  - unfold CambriaBackend_applyChanges_thrown.
    destruct (getInstance_frame this (cb_schema this)) as (Hs & Hh & Hl & Hls).
    destruct (getInstance this (cb_schema this)) as [instance this0]. cbn [fst snd] in *.
    cbn [history lensState inDoc]. rewrite Hh, Hls, lensTargets_app. set_solver.
  - unfold CambriaBackend_applyLocalChange_thrown.
    destruct (getInstance_frame this (cb_schema this)) as (Hs & Hh & Hl & Hls).
    destruct (getInstance this (cb_schema this)) as [instance this0]. cbn [fst snd] in *.
    cbn [history lensState inDoc]. rewrite Hh, lensTargets_app, lensTargets_cons.
    cbn [b_lenses].
    destruct (bool_decide _); unfold lensTargets in *; cbn; set_solver.
Qed.

(** X6.  In an engine made by [init] and used through its methods, the
    schemas recorded as in the document are exactly the schemas the lenses
    carried by the blocks of the history lead to, as long as every call
    has returned.  A call that throws can leave blocks in the history
    whose lenses were not registered: then the schemas recorded are still
    among those the lenses of the history lead to. *)
Theorem inDoc_is_lens_targets_of_history (options : InitOptions)
    (e0 e : CambriaBackend) :
  init options = Ok e0 ->
  (evolves e0 e -> inDoc (lensState e) = lensTargets (history e))
  /\ (evolvesOrThrows e0 e -> inDoc (lensState e) ⊆ lensTargets (history e)).
Proof.
  intros Hinit.
  assert (Hinv : inDoc (lensState e0) = lensTargets (history e0)).
  { apply init_Ok in Hinit as (g & lensStack & _ & _ & ->). reflexivity. }
  clear Hinit. split.
  - intros Hev. induction Hev as [e | e e1 e2 Hstep _ IH]; [exact Hinv|].
    apply IH. eapply step_inDoc; eauto.
  - intros Hev.
    assert (Hbelow : inDoc (lensState e0) ⊆ lensTargets (history e0))
      by now rewrite Hinv.
    clear Hinv. induction Hev as [e | e e1 e2 Hstep _ IH]; [exact Hbelow|].
    apply IH. destruct Hstep as [Hstep | Hthrow].
    + eapply step_inDoc_below; eauto.
    + eapply throws_inDoc_below; eauto.
Qed.

Lemma applyChangesToInstance_schema (instance : Instance) (changes : list Change)
    (instance' : Instance) (patch : AutomergePatch) :
  applyChangesToInstance instance changes = Ok (instance', patch) ->
  schema instance' = schema instance.
Proof. intros Hok. now apply applyChangesToInstance_Ok in Hok as (bs & _ & ->). Qed.

Lemma keepsOnlyPrimary_getInstance (this : CambriaBackend) :
  keepsOnlyPrimary this ->
  keepsOnlyPrimary (snd (getInstance this (cb_schema this)))
  /\ schema (fst (getInstance this (cb_schema this))) = cb_schema this.
Proof.
  intros Hinv. unfold getInstance.
  destruct (instances this !! cb_schema this) as [i|] eqn:Hi; cbn.
  - split; [exact Hinv|]. now apply Hinv in Hi as (_ & -> & _).
  - split; [|reflexivity]. intros s i Hs. cbn in *.
    destruct (decide (s = cb_schema this)) as [->|Hne].
    + rewrite lookup_insert_eq in Hs. injection Hs as <-. auto.
    + rewrite lookup_insert_ne in Hs by congruence. now apply Hinv in Hs as (? & _).
Qed.

Lemma keepsOnlyPrimary_insert (this : CambriaBackend) (s : string)
    (l : list RegisteredLens) (i : Instance) (h : list CambriaBlock) (ls : LensState) :
  keepsOnlyPrimary this -> cb_schema this = s ->
  schema i = s -> bootstrapped i = true ->
  keepsOnlyPrimary {| cb_schema := s; history := h; lenses := l;
                      lensState := ls;
                      instances := <[s := i]> (instances this) |}.
Proof.
  intros Hinv <- Hs Hb s' j Hj. cbn in *.
  destruct (decide (s' = cb_schema this)) as [->|Hne].
  - rewrite lookup_insert_eq in Hj. injection Hj as <-. auto.
  - rewrite lookup_insert_ne in Hj by congruence. now apply Hinv in Hj as (? & _).
Qed.

Lemma step_keepsOnlyPrimary (e e' : CambriaBackend) :
  step e e' -> keepsOnlyPrimary e -> keepsOnlyPrimary e'.
Proof.
  intros [σ this blocks this' p Hok | σ this request σ' this' p block Hok
         | σ this this' p Hok | this | this p] Hinv.
  - apply CambriaBackend_applyChanges_Ok in Hok
      as (fB & ni & nls & cs & _ & _ & Hinst & ->).
    destruct (keepsOnlyPrimary_getInstance this Hinv) as [Hinv0 Hsch].
    destruct (getInstance_frame this (cb_schema this)) as (Hs & Hh & Hl & Hls).
    apply keepsOnlyPrimary_insert; [exact Hinv0 | exact Hs | | ].
    + rewrite <- Hsch. eapply applyChangesToInstance_schema, Hinst.
    + eapply applyChangesToInstance_bootstrapped, Hinst.
  - apply CambriaBackend_applyLocalChange_Ok in Hok
      as (i & bd & ns & q & _ & Hboot & _ & _ & ->).
    destruct (keepsOnlyPrimary_getInstance this Hinv) as [Hinv0 Hsch].
    destruct (getInstance_frame this (cb_schema this)) as (Hs & Hh & Hl & Hls).
    apply keepsOnlyPrimary_insert; [exact Hinv0 | exact Hs | | ]; cbn.
    + rewrite <- Hsch.
      destruct (bootstrapped (fst (getInstance this (cb_schema this)))).
      * now destruct Hboot as [-> _].
      * destruct Hboot as (bc & bp & Hinst & _).
        eapply applyChangesToInstance_schema, Hinst.
    + destruct (bootstrapped (fst (getInstance this (cb_schema this)))) eqn:Hb.
      * now destruct Hboot as [-> _].
      * destruct Hboot as (bc & bp & Hinst & _).
        eapply applyChangesToInstance_bootstrapped, Hinst.
  - apply CambriaBackend_getPatch_Ok in Hok as (p0 & i0 & Hok & _).
    apply CambriaBackend_applyChanges_Ok in Hok
      as (fB & ni & nls & cs & _ & _ & Hinst & ->).
    destruct (keepsOnlyPrimary_getInstance this Hinv) as [Hinv0 Hsch].
    destruct (getInstance_frame this (cb_schema this)) as (Hs & Hh & Hl & Hls).
    apply keepsOnlyPrimary_insert; [exact Hinv0 | exact Hs | | ].
    + rewrite <- Hsch. eapply applyChangesToInstance_schema, Hinst.
    + eapply applyChangesToInstance_bootstrapped, Hinst.
  - apply keepsOnlyPrimary_getInstance, Hinv.
  - intros s i Hi. cbn in *.
    destruct (decide (s = cb_schema this)) as [->|Hne].
    + rewrite lookup_alter_eq in Hi.
      destruct (instances this !! cb_schema this) as [j|] eqn:Hj; [|discriminate].
      cbn in Hi. injection Hi as <-. apply Hinv in Hj as (_ & Hs & Hb).
      split; [reflexivity|]. split; [exact Hs|].
      destruct Hb as [Hb | ->]; [now left | right].
      unfold hidePhantomInInstance, initInstance. cbn.
      rewrite delete_empty. now destruct (ap_clock p), (ap_deps p).
    + rewrite lookup_alter_ne in Hi by congruence. now apply Hinv in Hi as (? & _).
Qed.

(** X7.  An engine made by [init] and used through its methods keeps at
    most one instance, the one of its own schema; that instance carries the
    schema's name and is bootstrapped, unless it is still the empty
    instance the lazy lookup created.  Instances of other schemas are
    rebuilt from the history each time they are needed. *)
Theorem engine_keeps_only_primary (options : InitOptions) (e0 e : CambriaBackend) :
  init options = Ok e0 -> evolves e0 e -> keepsOnlyPrimary e.
Proof.
  intros Hinit Hev.
  assert (Hinv : keepsOnlyPrimary e0).
  { apply init_Ok in Hinit as (g & lensStack & _ & _ & ->).
    intros s i Hi. cbn in Hi. now rewrite lookup_empty in Hi. }
  clear Hinit. induction Hev as [e | e e1 e2 Hstep _ IH]; [exact Hinv|].
  apply IH. eapply step_keepsOnlyPrimary; eauto.
Qed.

Lemma method_applyChanges_primary (σ : Heap) (this : CambriaBackend)
    (blocks : list CambriaBlock) (this' : CambriaBackend) (patch : AutomergePatch) :
  CambriaBackend_applyChanges σ this blocks = Ok (this', patch) ->
  exists i, instances this' !! cb_schema this' = Some i /\ bootstrapped i = true
            /\ clock i = default ∅ (ap_clock patch)
            /\ deps i = default ∅ (ap_deps patch).
Proof.
  intros Hok. apply CambriaBackend_applyChanges_Ok in Hok
    as (fB & ni & nls & cs & _ & _ & Hinst & ->).
  exists ni. cbn. rewrite lookup_insert_eq.
  apply applyChangesToInstance_Ok in Hinst as (bs & _ & ->). cbn. auto.
Qed.

Lemma method_applyLocalChange_primary (σ : Heap) (this : CambriaBackend)
    (request : ChangeRef) (σ' : Heap) (this' : CambriaBackend)
    (patch : AutomergePatch) (block : CambriaBlock) :
  CambriaBackend_applyLocalChange σ this request = Ok (σ', this', patch, block) ->
  exists i, instances this' !! cb_schema this' = Some i /\ bootstrapped i = true
            /\ clock i = default ∅ (ap_clock patch)
            /\ deps i = default ∅ (ap_deps patch).
Proof.
  intros Hok. apply CambriaBackend_applyLocalChange_Ok in Hok
    as (i & bd & ns & q & _ & Hboot & _ & -> & ->).
  eexists. cbn. rewrite lookup_insert_eq. split; [reflexivity|]. cbn.
  split; [|auto].
  destruct (bootstrapped (fst (getInstance this (cb_schema this)))) eqn:Hb.
  - now destruct Hboot as [-> _].
  - destruct Hboot as (bc & bp & Hinst & _).
    eapply applyChangesToInstance_bootstrapped, Hinst.
Qed.

Lemma hidePhantom_primary (patch : AutomergePatch) (doc : CambriaBackend) (i : Instance) :
  instances doc !! cb_schema doc = Some i -> bootstrapped i = true ->
  clock i = default ∅ (ap_clock patch) -> deps i = default ∅ (ap_deps patch) ->
  exists i', instances (hidePhantomInEngine patch doc)
               !! cb_schema (hidePhantomInEngine patch doc) = Some i'
             /\ bootstrapped i' = true
             /\ clock i' = default ∅ (ap_clock (scrub patch))
             /\ deps i' = default ∅ (ap_deps (scrub patch))
             /\ clock i' !! CAMBRIA_MAGIC_ACTOR = None
             /\ deps i' !! CAMBRIA_MAGIC_ACTOR = None.
Proof.
  intros Hi Hb Hc Hd. eexists. cbn. rewrite lookup_alter_eq, Hi. cbn.
  split; [reflexivity|]. split; [exact Hb|].
  unfold hidePhantomInInstance, scrub, hidePhantom. cbn. rewrite Hc, Hd.
  destruct (ap_clock patch), (ap_deps patch); cbn;
    rewrite ?lookup_delete_eq, ?lookup_empty; auto.
Qed.

Lemma exported_applyChanges_primary (σ : Heap) (doc : CambriaBackend)
    (changes : list CambriaBlock) (doc' : CambriaBackend) (p : AutomergePatch) :
  applyChanges σ doc changes = Ok (doc', p) ->
  exists i, instances doc' !! cb_schema doc' = Some i /\ bootstrapped i = true
            /\ clock i = default ∅ (ap_clock p) /\ deps i = default ∅ (ap_deps p)
            /\ clock i !! CAMBRIA_MAGIC_ACTOR = None
            /\ deps i !! CAMBRIA_MAGIC_ACTOR = None.
Proof.
  unfold applyChanges. intros Hok.
  apply bind_Ok in Hok as ([doc1 patch] & Hm & Hok). cbn in Hok. injection Hok as <- <-.
  apply method_applyChanges_primary in Hm as (i & Hi & Hb & Hc & Hd).
  eapply hidePhantom_primary; eauto.
Qed.

(** X8.  After the exported [applyChanges], [applyLocalChange] or [merge]
    has returned, the primary instance of the engine is bootstrapped, and
    its clock and its deps are those of the patch handed back (the empty
    clock when the patch has none): the deletion of the phantom actor from
    the patch has deleted it from the instance too. *)
Theorem shadow_clock_is_patch_clock (doc' : CambriaBackend) (p : AutomergePatch) :
  answered doc' p ->
  exists i, instances doc' !! cb_schema doc' = Some i /\ bootstrapped i = true
            /\ clock i = default ∅ (ap_clock p) /\ deps i = default ∅ (ap_deps p)
            /\ clock i !! CAMBRIA_MAGIC_ACTOR = None
            /\ deps i !! CAMBRIA_MAGIC_ACTOR = None.
Proof.
  intros [σ doc changes doc1 q Hok | σ doc request σ' doc1 q block Hok
         | σ local remote local1 q Hok].
  - eapply exported_applyChanges_primary, Hok.
  - unfold applyLocalChange in Hok.
    apply bind_Ok in Hok as ([[[σ1 doc2] patch] b] & Hm & Hok).
    cbn in Hok. injection Hok as _ <- <- _.
    apply method_applyLocalChange_primary in Hm as (i & Hi & Hb & Hc & Hd).
    eapply hidePhantom_primary; eauto.
  - unfold merge in Hok. destruct (primaryInstance local) as [li local0].
    eapply exported_applyChanges_primary, Hok.
Qed.

(** X9.  Lenses travel once.  When the engine's schema is the target of
    one of its lenses, the block of a local change carries the whole lens
    list if the schema is not yet recorded as in the document, and the
    block of every local change made after it, whatever was done to the
    engine in between, carries no lens. *)
Theorem lenses_shipped_once (σ : Heap) (this : CambriaBackend) (request : ChangeRef)
    (σ1 : Heap) (this1 : CambriaBackend) (p1 : AutomergePatch) (block1 : CambriaBlock) :
  CambriaBackend_applyLocalChange σ this request = Ok (σ1, this1, p1, block1) ->
  cb_schema this ∈ (rl_to <$> lenses this) ->
  (cb_schema this ∉ inDoc (lensState this) -> b_lenses block1 = lenses this)
  /\ forall this2 σ2 request2 σ3 this3 p2 block2,
       evolves this1 this2 ->
       CambriaBackend_applyLocalChange σ2 this2 request2 = Ok (σ3, this3, p2, block2) ->
       b_lenses block2 = [].
Proof.
  intros Hok Htarget.
  apply CambriaBackend_applyLocalChange_Ok in Hok
    as (i & bd & ns & q & -> & _ & _ & _ & ->). cbn [b_lenses]. split.
  - intros Hnot. now rewrite bool_decide_eq_false_2.
  - intros this2 σ2 request2 σ3 this3 p2 block2 Hev Hok2.
    apply evolves_schema_inDoc in Hev as [Hs Hd]. cbn in Hs, Hd.
    apply CambriaBackend_applyLocalChange_Ok in Hok2
      as (i2 & bd2 & ns2 & q2 & -> & _). cbn [b_lenses].
    rewrite bool_decide_eq_true_2; [reflexivity|].
    rewrite Hs. apply Hd.
    destruct (bool_decide (cb_schema this ∈ inDoc (lensState this))) eqn:Hin.
    + now apply bool_decide_eq_true_1 in Hin.
    + apply elem_of_union_r, elem_of_list_to_set, Htarget.
Qed.

(** X10.  [merge(local, remote)] appends to the local history, in the
    order of the remote history, the remote blocks whose change the local
    primary clock does not cover and whose own actor and seq it does not
    cover either; what the local history held stays in front. *)
Theorem merge_history (σ : Heap) (local remote local' : CambriaBackend)
    (p : AutomergePatch) :
  merge σ local remote = Ok (local', p) ->
  history local'
  = (history local
     ++ filter (fun b => orZero (clock (fst (primaryInstance local)) !! b_actor b) < b_seq b)
          (filter (fun b =>
                     orZero (clock (fst (primaryInstance local))
                               !! ch_actor (σ !!! b_change b))
                     < ch_seq (σ !!! b_change b))
             (history remote)))%list
  /\ cb_schema local' = cb_schema local.
Proof.
  unfold merge, primaryInstance. intros Hok.
  pose proof (getInstance_again local (cb_schema local)) as Hagain.
  destruct (getInstance_frame local (cb_schema local)) as (Hs & Hh & _ & _).
  destruct (getInstance local (cb_schema local)) as [li local0]. cbn [fst snd] in *.
  unfold applyChanges in Hok.
  apply bind_Ok in Hok as ([doc1 patch] & Hm & Hok). cbn in Hok. injection Hok as <- _.
  apply CambriaBackend_applyChanges_Ok in Hm
    as (fB & ni & nls & cs & -> & _ & _ & ->). cbn.
  rewrite Hs, Hagain, Hh. cbn. split; reflexivity.
Qed.

(** X11.  [applyLocalChange] on an engine whose primary instance is
    bootstrapped leaves the insertion counters [elem] of that instance as
    they are, whatever ops the request holds: only changes applied through
    [applyChangesToInstance] advance them. *)
Theorem applyLocalChange_keeps_elem (σ : Heap) (this : CambriaBackend)
    (request : ChangeRef) (σ' : Heap) (this' : CambriaBackend)
    (patch : AutomergePatch) (block : CambriaBlock) (primary : Instance) :
  CambriaBackend_applyLocalChange σ this request = Ok (σ', this', patch, block) ->
  instances this !! cb_schema this = Some primary ->
  bootstrapped primary = true ->
  exists primary',
    instances this' !! cb_schema this' = Some primary'
    /\ elem primary' = elem primary
    /\ Backend_applyLocalChange (state primary) (σ' !!! request)
       = Ok (state primary', {| ap_diffs := ap_diffs patch;
                                ap_clock := ap_clock patch;
                                ap_deps := ap_deps patch |}).
Proof.
  intros Hok Hprim Hb.
  apply CambriaBackend_applyLocalChange_Ok in Hok
    as (i & bd & ns & q & _ & Hboot & Hback & -> & ->).
  rewrite (getInstance_present _ _ _ Hprim) in Hboot. cbn [fst] in Hboot.
  rewrite Hb in Hboot. destruct Hboot as [-> ->].
  eexists. cbn. rewrite lookup_insert_eq. split; [reflexivity|]. cbn.
  split; [reflexivity|]. rewrite Hback. now destruct q.
Qed.

Lemma applySchemaChanges_loop_same_schema
    (gia : string -> string -> Z -> LensState -> result (Instance * LensState))
    (σ : Heap) (instance : Instance) (blocks : list CambriaBlock) :
  Forall (fun b => b_schema b = schema instance) blocks ->
  forall st : ReplayState,
    applySchemaChanges_loop gia σ instance blocks st
    = ls' ← registerAll (rs_lensState st) blocks;
      Ok {| rs_lensState := ls';
            rs_changesToApply :=
              (rs_changesToApply st ++ ((fun b => σ !!! b_change b) <$> blocks))%list;
            rs_fromInstance := rs_fromInstance st;
            rs_toInstance := rs_toInstance st |}.
Proof.
  induction 1 as [|b rest Hb _ IH]; intros st.
  - cbn. rewrite app_nil_r. now destruct st.
  - cbn [applySchemaChanges_loop registerAll].
    destruct (registerLenses (rs_lensState st) (b_lenses b)) as [ls|e]; [|reflexivity].
    cbn [mbind result_bind JS.bind].
    rewrite Hb, String.eqb_refl. cbn [mbind result_bind JS.bind].
    rewrite IH. cbn [rs_lensState rs_changesToApply rs_fromInstance rs_toInstance].
    now rewrite <- app_assoc.
Qed.

(** X12.  No conversion within one schema: when every block is written in
    the schema of the instance, [applySchemaChanges] registers the lenses
    the blocks carry and hands the changes of the blocks, untouched and in
    order, to [applyChangesToInstance], with the defaults change in front
    when the instance is not bootstrapped; the history is not read. *)
Theorem applySchemaChanges_same_schema (fuel : nat) (σ : Heap)
    (blocks : list CambriaBlock) (instance : Instance) (lensState : LensState)
    (history : list CambriaBlock) :
  Forall (fun b => b_schema b = schema instance) blocks ->
  applySchemaChanges (S fuel) σ blocks instance lensState history
  = lensState' ← registerAll lensState blocks;
    changesToApply ←
      (if bootstrapped instance then Ok ((fun b => σ !!! b_change b) <$> blocks)
       else
         bootstrapChange ← bootstrap instance lensState';
         Ok (bootstrapChange :: ((fun b => σ !!! b_change b) <$> blocks)));
    '(newInstance, patch) ← applyChangesToInstance instance changesToApply;
    Ok (newInstance, patch, lensState').
Proof.
  intros Hall. cbn [applySchemaChanges].
  rewrite (applySchemaChanges_loop_same_schema _ σ instance blocks Hall).
  cbn [rs_lensState rs_changesToApply app].
  destruct (registerAll lensState blocks) as [ls'|e]; reflexivity.
Qed.

(** X13.  [getPatch] writes nothing but the primary instance: the history,
    the lens state, the schema and the lens list of the engine stay as
    they are; the primary instance is bootstrapped afterwards, and the
    patch returned is the backend's patch of that instance's state. *)
Theorem getPatch_only_bootstraps (σ : Heap) (this this' : CambriaBackend)
    (patch : AutomergePatch) :
  CambriaBackend_getPatch σ this = Ok (this', patch) ->
  history this' = history this
  /\ lensState this' = lensState this
  /\ cb_schema this' = cb_schema this
  /\ lenses this' = lenses this
  /\ (forall s, s <> cb_schema this -> instances this' !! s = instances this !! s)
  /\ exists i, instances this' !! cb_schema this = Some i
               /\ bootstrapped i = true
               /\ Backend_getPatch (state i) = Ok patch.
Proof.
  intros Hok. apply CambriaBackend_getPatch_Ok in Hok as (p0 & i & Hok & Hi & Hpatch).
  pose proof (method_applyChanges_primary _ _ _ _ _ Hok) as (i' & Hi' & Hb & _).
  rewrite Hi in Hi'. injection Hi' as <-.
  apply CambriaBackend_applyChanges_Ok in Hok
    as (fB & ni & nls & cs & -> & Hreg & _ & ->).
  cbn in Hreg. injection Hreg as <-. cbn in *. rewrite app_nil_r.
  repeat split; eauto.
  intros s Hs. rewrite lookup_insert_ne by congruence.
  now apply getInstance_other.
Qed.

End EngineHistory.

Section SorterProperties.

Lemma tagOps_tagFrom (ops : list Op) : tagOps ops = tagFrom 0 ops.
Proof. reflexivity. Qed.

Lemma tagFrom_cons (n : nat) (o : Op) (l : list Op) :
  tagFrom n (o :: l) = (n, o) :: tagFrom (S n) l.
Proof.
  unfold tagFrom. cbn. rewrite Nat.add_0_r. f_equal.
  apply imap_ext. intros i x _. cbn. f_equal. lia.
Qed.

Lemma tagFrom_app (n : nat) (a b : list Op) :
  tagFrom n (a ++ b) = (tagFrom n a ++ tagFrom (n + length a) b)%list.
Proof.
  unfold tagFrom. rewrite imap_app. f_equal.
  apply imap_ext. intros i x _. f_equal. lia.
Qed.

Lemma tagFrom_length (n : nat) (l : list Op) : length (tagFrom n l) = length l.
Proof. unfold tagFrom. apply length_imap. Qed.

Lemma snd_tagFrom (n : nat) (l : list Op) : snd <$> tagFrom n l = l.
Proof.
  revert n; induction l as [|o l IH]; intros n; [reflexivity|].
  rewrite tagFrom_cons. cbn. now rewrite IH.
Qed.

Lemma tagFrom_tags (n : nat) (l : list Op) :
  Forall (fun t => (n <= fst t < n + length l)%nat) (tagFrom n l).
Proof.
  revert n; induction l as [|o l IH]; intros n; [constructor|].
  rewrite tagFrom_cons. constructor; [cbn; lia|].
  eapply Forall_impl; [apply IH|]. cbn. intros t Ht. lia.
Qed.

Lemma tagFrom_forallb (f : Op -> bool) (n : nat) (l : list Op) :
  Forall (fun o => f o = true) l ->
  forallb (fun t => f (snd t)) (tagFrom n l) = true.
Proof.
  intros Hall. revert n. induction Hall as [|o l Ho _ IH]; intros n; [reflexivity|].
  rewrite tagFrom_cons. cbn. now rewrite Ho, IH.
Qed.

Lemma findOp_none (f : Op -> bool) (l : list OpObj) :
  forallb (fun t => negb (f (snd t))) l = true -> findOp f l = None.
Proof.
  unfold findOp. induction l as [|t l IH]; cbn; [reflexivity|].
  intros Hall. apply andb_true_iff in Hall as [Ht Hl].
  apply negb_true_iff in Ht. rewrite Ht. auto.
Qed.

Lemma findOp_first (f : Op -> bool) (l1 l2 : list OpObj) (t : OpObj) :
  forallb (fun t => negb (f (snd t))) l1 = true -> f (snd t) = true ->
  findOp f (l1 ++ t :: l2) = Some t.
Proof.
  unfold findOp. induction l1 as [|t1 l1 IH]; cbn; intros Hall Ht.
  - now rewrite Ht.
  - apply andb_true_iff in Hall as [Ht1 Hl]. apply negb_true_iff in Ht1.
    rewrite Ht1. auto.
Qed.

Lemma indexOfObj_first (id : nat) (o : Op) (l1 l2 : list OpObj) (i : nat) :
  Forall (fun t => fst t <> id) l1 ->
  indexOfObj i id (l1 ++ (id, o) :: l2) = Some (i + length l1)%nat.
Proof.
  intros Hall. revert i. induction Hall as [|[id' o'] l1 Hne _ IH]; intros i; cbn.
  - rewrite Nat.eqb_refl. f_equal. lia.
  - cbn in Hne. destruct (Nat.eqb_spec id' id); [congruence|].
    rewrite IH. f_equal. lia.
Qed.

Lemma sortOps_body_passedOver (actor : string) (op : OpObj) (sorted orig : list OpObj) :
  passedOver (snd op) = true ->
  sortOps_body actor op (sorted, orig) = Ok ((sorted ++ [op])%list, orig).
Proof.
  unfold passedOver, sortOps_body. destruct (op_action (snd op)); cbn; congruence.
Qed.

(** The loop over a stretch of ops it passes over: they go to the sorted
    array one by one, the original array stays as it is. *)
Lemma sortOps_loop_skip (actor : string) (mid : list OpObj) :
  forallb (fun t => passedOver (snd t)) mid = true ->
  forall (fuel : nat) (sorted pre post : list OpObj),
    sortOps_loop (length mid + fuel) actor (length pre)
      (sorted, (pre ++ mid ++ post)%list)
    = sortOps_loop fuel actor (length pre + length mid)
        ((sorted ++ mid)%list, (pre ++ mid ++ post)%list).
Proof.
  induction mid as [|op mid IH]; intros Hall fuel sorted pre post.
  - cbn [length Nat.add]. now rewrite Nat.add_0_r, !app_nil_r.
  - cbn in Hall. apply andb_true_iff in Hall as [Hop Hmid].
    cbn [length Nat.add sortOps_loop snd app].
    rewrite list_lookup_middle by reflexivity.
    rewrite sortOps_body_passedOver by exact Hop.
    cbn [mbind result_bind JS.bind].
    replace (S (length pre)) with (length (pre ++ [op])) by (rewrite length_app; cbn; lia).
    replace (pre ++ op :: mid ++ post)%list with ((pre ++ [op]) ++ mid ++ post)%list
      by now rewrite <- app_assoc.
    rewrite (IH Hmid). rewrite length_app. cbn [length].
    rewrite <- !app_assoc. cbn [app].
    now replace (length pre + 1 + length mid)%nat with (length pre + S (length mid))%nat by lia.
Qed.

Lemma sortOps_loop_end (fuel : nat) (actor : string) (sorted orig : list OpObj) :
  sortOps_loop fuel actor (length orig) (sorted, orig) = Ok sorted.
Proof.
  destruct fuel; cbn [sortOps_loop snd fst];
    now rewrite lookup_ge_None_2 by lia.
Qed.

Lemma withOps_self (change : Change) : withOps change (ch_ops change) = change.
Proof. now destruct change. Qed.

(** X14.  [sortOps] returns a change without inserts and makes as it
    is. *)
Theorem sortOps_no_insert (change : Change) :
  Forall (fun o => passedOver o = true) (ch_ops change) ->
  sortOps change = Ok change.
Proof.
  intros Hall. unfold sortOps. rewrite tagOps_tagFrom.
  pose proof (sortOps_loop_skip (ch_actor change) (tagFrom 0 (ch_ops change))
                (tagFrom_forallb passedOver 0 _ Hall) 0 [] [] []) as Hskip.
  rewrite Nat.add_0_r, app_nil_r in Hskip. cbn [app length Nat.add] in Hskip.
  rewrite Hskip, sortOps_loop_end. cbn [mbind result_bind JS.bind].
  rewrite snd_tagFrom. f_equal. apply withOps_self.
Qed.

(** X15.  An insert that comes first among the inserts and makes of a
    change, and for which the change holds no [set] and no [link] keyed
    [actor:elem], makes [sortOps] throw. *)
Theorem sortOps_dangling_insert (change : Change) (pre post : list Op) (ins : Op) :
  ch_ops change = (pre ++ ins :: post)%list ->
  Forall (fun o => passedOver o = true) pre ->
  op_action ins = AIns ->
  Forall (fun o => reifies (ch_actor change) ins o = false) (ch_ops change) ->
  sortOps change
  = Throw (Error "expected to find a reifying op corresponding to ins op").
Proof.
  intros Hops Hpre Hins Hnone. unfold sortOps. rewrite tagOps_tagFrom.
  rewrite tagFrom_length.
  assert (Hfind : findOp (reifies (ch_actor change) ins) (tagFrom 0 (ch_ops change)) = None).
  { apply findOp_none.
    apply (tagFrom_forallb (fun o => negb (reifies (ch_actor change) ins o))).
    eapply Forall_impl; [exact Hnone|]. cbn. now intros o ->. }
  revert Hfind. rewrite Hops, tagFrom_app, tagFrom_cons. cbn [Nat.add]. intros Hfind.
  rewrite length_app. cbn [length].
  replace (length pre + S (length post))%nat
    with (length (tagFrom 0 pre) + S (length post))%nat by now rewrite tagFrom_length.
  pose proof (sortOps_loop_skip (ch_actor change) (tagFrom 0 pre)
                (tagFrom_forallb passedOver 0 _ Hpre) (S (length post)) [] []
                ((length pre, ins) :: tagFrom (S (length pre)) post)) as Hskip.
  cbn [app length Nat.add] in Hskip. rewrite Hskip. clear Hskip.
  cbn [sortOps_loop snd fst].
  replace (length (tagFrom 0 pre)) with (length (tagFrom 0 pre) + 0)%nat at 1 by lia.
  rewrite lookup_app_r, Nat.add_0_r, Nat.sub_diag by lia. cbn [lookup list_lookup].
  unfold sortOps_body. cbn [snd]. rewrite Hins.
  unfold reifies in Hfind. rewrite Hfind. reflexivity.
Qed.

(** X16.  The one thing [sortOps] is written to do, on a change with one
    insert: when the [set] keyed [actor:elem] comes after the insert, no
    op before that [set] is a [set] or a [link] with the same key, and the
    other ops are neither inserts nor makes, [sortOps] moves the [set]
    to the place right after the insert and keeps the order of all the
    other ops. *)
Theorem sortOps_single_insert (change : Change) (pre mid post : list Op)
    (ins setOp : Op) :
  ch_ops change = (pre ++ ins :: mid ++ setOp :: post)%list ->
  op_action ins = AIns ->
  op_action setOp = ASet ->
  keyIs setOp (elemKey (ch_actor change) (op_elem ins)) = true ->
  Forall (fun o => passedOver o = true) (pre ++ mid ++ post) ->
  Forall (fun o => reifies (ch_actor change) ins o = false) (pre ++ mid) ->
  sortOps change = Ok (withOps change (pre ++ ins :: setOp :: mid ++ post)).
Proof.
  intros Hops Hins Hset Hkey Hpassed Hnone.
  apply Forall_app in Hpassed as [Hpre Hpassed].
  apply Forall_app in Hpassed as [Hmid Hpost].
  apply Forall_app in Hnone as [Hnpre Hnmid].
  unfold sortOps. rewrite tagOps_tagFrom, tagFrom_length, Hops.
  set (n1 := length pre). set (n2 := (n1 + S (length mid))%nat).
  set (tpre := tagFrom 0 pre). set (tmid := tagFrom (S n1) mid).
  set (tpost := tagFrom (S n2) post).
  assert (Htag : tagFrom 0 (pre ++ ins :: mid ++ setOp :: post)
                 = (tpre ++ (n1, ins) :: tmid ++ (n2, setOp) :: tpost)%list).
  { rewrite tagFrom_app, tagFrom_cons, tagFrom_app, tagFrom_cons. cbn [Nat.add].
    subst tpre tmid tpost n2 n1. repeat f_equal; lia. }
  rewrite Htag. clear Htag.
  assert (Hlpre : length tpre = n1) by apply tagFrom_length.
  assert (Hlmid : length tmid = length mid) by apply tagFrom_length.
  assert (Hlpost : length tpost = length post) by apply tagFrom_length.
  assert (Hppre : forallb (fun t => passedOver (snd t)) tpre = true)
    by apply (tagFrom_forallb passedOver), Hpre.
  assert (Hpmid : forallb (fun t => passedOver (snd t)) tmid = true)
    by apply (tagFrom_forallb passedOver), Hmid.
  assert (Hppost : forallb (fun t => passedOver (snd t)) tpost = true)
    by apply (tagFrom_forallb passedOver), Hpost.
  assert (Hrpre : forallb (fun t => negb (reifies (ch_actor change) ins (snd t))) tpre = true).
  { apply (tagFrom_forallb (fun o => negb (reifies (ch_actor change) ins o))).
    eapply Forall_impl; [exact Hnpre|]. cbn. now intros o ->. }
  assert (Hrmid : forallb (fun t => negb (reifies (ch_actor change) ins (snd t))) tmid = true).
  { apply (tagFrom_forallb (fun o => negb (reifies (ch_actor change) ins o))).
    eapply Forall_impl; [exact Hnmid|]. cbn. now intros o ->. }
  (* the ops before the insert *)
  replace (length (pre ++ ins :: mid ++ setOp :: post))
    with (length tpre + S (length mid + S (length post)))%nat
    by (rewrite !length_app; cbn; rewrite length_app; cbn; lia).
  pose proof (sortOps_loop_skip (ch_actor change) tpre Hppre
                (S (length mid + S (length post))) [] []
                ((n1, ins) :: tmid ++ (n2, setOp) :: tpost)) as Hskip.
  cbn [app length Nat.add] in Hskip. rewrite Hskip. clear Hskip.
  (* the insert *)
  cbn [sortOps_loop snd fst].
  replace (length tpre) with (length tpre + 0)%nat at 1 by lia.
  rewrite lookup_app_r, Nat.add_0_r, Nat.sub_diag by lia. cbn [lookup list_lookup].
  assert (Hfind : findOp (reifies (ch_actor change) ins)
                    (tpre ++ (n1, ins) :: tmid ++ (n2, setOp) :: tpost)
                  = Some (n2, setOp)).
  { replace (tpre ++ (n1, ins) :: tmid ++ (n2, setOp) :: tpost)%list
      with ((tpre ++ (n1, ins) :: tmid) ++ (n2, setOp) :: tpost)%list
      by now rewrite <- app_assoc.
    apply findOp_first.
    - rewrite forallb_app. cbn [forallb snd].
      apply andb_true_iff. split; [exact Hrpre|].
      apply andb_true_iff. split; [|exact Hrmid].
      unfold reifies. now rewrite Hins.
    - cbn. unfold reifies. now rewrite Hset, Hkey. }
  assert (Hsplice : spliceObj (n2, setOp)
                      (tpre ++ (n1, ins) :: tmid ++ (n2, setOp) :: tpost)
                    = (tpre ++ (n1, ins) :: tmid ++ tpost)%list).
  { unfold spliceObj. cbn [fst].
    replace (tpre ++ (n1, ins) :: tmid ++ (n2, setOp) :: tpost)%list
      with ((tpre ++ (n1, ins) :: tmid) ++ (n2, setOp) :: tpost)%list
      by now rewrite <- app_assoc.
    rewrite indexOfObj_first.
    - cbn [Nat.add]. rewrite delete_middle. now rewrite <- app_assoc.
    - apply Forall_app. split; [|constructor].
      + eapply Forall_impl; [apply (tagFrom_tags 0 pre)|]. cbn. subst n2 n1. lia.
      + cbn. subst n2. lia.
      + eapply Forall_impl; [apply (tagFrom_tags (S n1) mid)|]. cbn. subst n2. lia. }
  unfold sortOps_body. cbn [snd fst]. rewrite Hins.
  unfold reifies in Hfind. rewrite Hfind. cbn [snd]. rewrite Hset.
  cbn [mbind result_bind JS.bind isMake appendOp]. rewrite Hsplice.
  (* the ops after the insert *)
  replace (S (length tpre)) with (length (tpre ++ [(n1, ins)]))
    by (rewrite length_app; cbn; lia).
  replace (tpre ++ (n1, ins) :: tmid ++ tpost)%list
    with ((tpre ++ [(n1, ins)]) ++ (tmid ++ tpost) ++ [])%list
    by (rewrite app_nil_r, <- app_assoc; reflexivity).
  replace (length mid + S (length post))%nat
    with (length (tmid ++ tpost) + 1)%nat by (rewrite length_app; lia).
  rewrite sortOps_loop_skip.
  2:{ rewrite forallb_app. apply andb_true_iff. split; assumption. }
  replace (length (tpre ++ [(n1, ins)]) + length (tmid ++ tpost))%nat
    with (length ((tpre ++ [(n1, ins)]) ++ (tmid ++ tpost) ++ []))
    by (rewrite !length_app; cbn; lia).
  rewrite sortOps_loop_end. cbn [mbind result_bind JS.bind]. f_equal.
  unfold withOps. f_equal.
  rewrite !fmap_app. cbn [fmap list_fmap snd app].
  subst tpre tmid tpost. rewrite !snd_tagFrom.
  rewrite <- !app_assoc. reflexivity.
Qed.

End SorterProperties.

Section MoreStringFacts.

Lemma length_append (s t : string) :
  String.length (s +:+ t) = (String.length s + String.length t)%nat.
Proof.
  induction s as [|a s IH]; [reflexivity|].
  rewrite append_cons. cbn. now rewrite IH.
Qed.

Lemma split_join_slash (l : list string) :
  Forall (fun k => occurs Str.slash k = false) l ->
  Str.split Str.slash (Str.join "/" ("" :: l)) = "" :: l.
Proof.
  induction l as [|k l IH] using rev_ind; intros Hall; [reflexivity|].
  apply Forall_app in Hall as [Hl Hk]. apply Forall_inv in Hk.
  rewrite join_snoc, split_app_slash by exact Hk. now rewrite IH.
Qed.

End MoreStringFacts.

Section MoreSkipListFacts.

Lemma indexOfFrom_lookup (l : SkipList) :
  forall (n : nat) (i : Z) (k : string) (v : Value),
    NoDup (fst <$> l) -> l !! n = Some (k, v) ->
    SkipList.indexOfFrom i k l = i + Z.of_nat n.
Proof.
  induction l as [|[k' v'] l IH]; intros n i k v Hnd Hn; [discriminate|].
  cbn in Hnd. apply NoDup_cons in Hnd as [Hnotin Hnd].
  cbn [SkipList.indexOfFrom]. destruct n as [|n]; cbn in Hn.
  - injection Hn as -> ->. rewrite String.eqb_refl. lia.
  - destruct (String.eqb_spec k' k) as [->|Hne].
    + exfalso. apply Hnotin. apply list_elem_of_fmap. exists (k, v).
      split; [reflexivity|]. eapply list_elem_of_lookup_2, Hn.
    + rewrite (IH n (i + 1) k v Hnd Hn). lia.
Qed.

End MoreSkipListFacts.

Section MoreTranslatorProperties.
Context `{!AutomergeBackend, !CambriaLenses, !Uuid}.

(** X17.  The two lookups of a list are inverse to each other.  On a
    list whose element ids are distinct, not empty and not the head
    marker: an index from [-1] to the last one has an element id
    ([_head] for [-1]) whose index is that index; and the head marker
    and every element id have an index whose element id they are. *)
Theorem findElemOfIndex_findIndexOfElem (st : BackendState) (objId : Value)
    (l : SkipList) :
  elemIdsOf st objId = Ok l ->
  NoDup (fst <$> l) ->
  Forall (fun id => id <> "" /\ id <> "_head") (fst <$> l) ->
  (forall index, -1 <= index < Z.of_nat (length l) ->
     exists k, findElemOfIndex st objId index = Ok (Some k)
               /\ findIndexOfElem st objId k = Ok index)
  /\ (forall k, k = "_head" \/ k ∈ (fst <$> l) ->
        exists index, findIndexOfElem st objId k = Ok index
                      /\ findElemOfIndex st objId index = Ok (Some k)).
Proof.
  intros Hl Hnd Hids. split.
  - intros index Hrange. unfold findElemOfIndex, findIndexOfElem.
    destruct (Z.eqb_spec index (-1)) as [->|Hne]; [exists "_head"; auto|].
    rewrite Hl. cbn [mbind result_bind JS.bind].
    destruct (lookup_lt_is_Some_2 l (Z.to_nat index)) as [[k v] Hkv]; [lia|].
    exists k. unfold SkipList.keyOf. cbv zeta.
    rewrite (proj2 (Z.ltb_ge index 0)) by lia.
    rewrite (proj2 (Z.ltb_ge index 0)) by lia.
    rewrite (proj2 (Z.leb_gt (Z.of_nat (length l)) index)) by lia.
    split; [cbn [orb]; f_equal; exact (f_equal (fmap fst) Hkv)|].
    assert (Hin : k ∈ (fst <$> l)).
    { apply list_elem_of_fmap. exists (k, v). split; [reflexivity|].
      eapply list_elem_of_lookup_2, Hkv. }
    rewrite Forall_forall in Hids. destruct (Hids k Hin) as [Hnil Hhead].
    destruct (String.eqb_spec k "_head"); [congruence|].
    unfold SkipList.indexOf. destruct (String.eqb_spec k ""); [congruence|].
    rewrite (indexOfFrom_lookup l _ 0 k v Hnd Hkv). f_equal. lia.
  - intros k Hk. apply (findElem_findIndex st objId l k Hl).
    destruct Hk as [->|Hin]; [now left | right].
    rewrite Forall_forall in Hids. split; [apply (Hids k Hin) | exact Hin].
Qed.

Lemma buildPath_shape (o : Op) (instance : Instance) (elemCache : ElemCache)
    (path : string) (elemCache' : ElemCache) :
  buildPath o instance elemCache = Ok (path, elemCache') ->
  (exists rest, path = "/" +:+ rest)
  /\ (elemCache' = elemCache
      \/ exists k, op_key o = Some k /\ elemCache' = delete k elemCache).
Proof.
  unfold buildPath. intros Hok.
  apply bind_Ok in Hok as (parent & _ & Hok).
  apply bind_Ok in Hok as ([key cache1] & Hkey & Hok). injection Hok as <- <-.
  split; [eauto|].
  destruct (getObjType (state instance) (op_obj o)).
  - destruct (op_key o) as [k|]; [|discriminate].
    destruct (elemCache !! k) as [cached|].
    + destruct (op_key cached) as [anchor|]; [|discriminate].
      apply bind_Ok in Hkey as (index & _ & Hkey). injection Hkey as _ <-. eauto.
    + apply bind_Ok in Hkey as (index & _ & Hkey). injection Hkey as _ <-. auto.
  - injection Hkey as _ <-. auto.
Qed.

(** X18.  What [opToPatch] hands back when it does not throw: the op was a
    [set], a [del] or a [link], and the patch is one patch op at a path
    that starts with a slash, a [remove] without a value for a [del], an
    [add] or a [replace] with the op's value for a [set] and with an
    empty array or an empty object for a [link]; the element cache is
    the one given, with at most the op's key deleted. *)
Theorem opToPatch_shape (o : Op) (instance : Instance) (elemCache : ElemCache)
    (patch : CloudinaPatch) (elemCache' : ElemCache) :
  opToPatch o instance elemCache = Ok (patch, elemCache') ->
  exists kind rest value,
    patch = [mkPatchOp kind ("/" +:+ rest) value]
    /\ match op_action o with
       | ASet => (kind = PAdd \/ kind = PReplace) /\ value = op_value o
       | ADel => kind = PRemove /\ value = Undefined
       | ALink => (kind = PAdd \/ kind = PReplace) /\ (value = Arr [] \/ value = Obj [])
       | _ => False
       end
    /\ (elemCache' = elemCache
        \/ exists k, op_key o = Some k /\ elemCache' = delete k elemCache).
Proof.
  unfold opToPatch. intros Hok.
  destruct (op_action o); try discriminate;
    apply bind_Ok in Hok as ([path cache1] & Hbuild & Hok);
    injection Hok as <- <-;
    apply buildPath_shape in Hbuild as [[rest ->] Hcache];
    eexists _, rest, _; (split; [reflexivity|]); (split; [|exact Hcache]).
  - auto.
  - split.
    + destruct (keyInCache _ _); auto.
    + destruct (getObjType _ _); auto.
  - split; [|reflexivity].
    destruct (getObjType _ _); [destruct (keyInCache _ _) | destruct (strict_eq _ _)]; auto.
Qed.

Lemma patchopAction_Ok (makeObj : string) (pathCache : PathCache) (patchop : PatchOp)
    (action : OpAction) (acc : list Op) (pathCache' : PathCache) :
  patchopAction makeObj pathCache patchop = Ok (action, acc, pathCache') ->
  supportedPatchOp patchop
  /\ Forall emittedOp acc
  /\ (action = ADel /\ po_op patchop = PRemove
      \/ action = ASet /\ (po_op patchop = PAdd \/ po_op patchop = PReplace)
      \/ action = ALink /\ (po_op patchop = PAdd \/ po_op patchop = PReplace)).
Proof.
  unfold patchopAction, supportedPatchOp. intros Hok.
  destruct (po_op patchop); try discriminate.
  1, 3: (destruct (po_value patchop) as [| | | | |items|[|p props]];
         cbn in Hok; try discriminate; injection Hok as <- <- <-;
         (split; [exact I|]); (split; [|auto 6]);
         repeat constructor; cbn; auto; discriminate).
  injection Hok as <- <- <-. split; [exact I|]. split; [constructor | auto].
Qed.

Lemma patchToOps_callback_Ok (origin : Change) (opIndex : nat) (instance : Instance)
    (pathCache : PathCache) (patchop : PatchOp) (i : nat)
    (ops : list Op) (pathCache' : PathCache) :
  patchToOps_callback origin opIndex instance pathCache patchop i = Ok (ops, pathCache') ->
  supportedPatchOp patchop /\ Forall emittedOp ops.
Proof.
  unfold patchToOps_callback. intros Hok.
  apply bind_Ok in Hok as ([[action acc] pc] & Hact & Hok).
  apply patchopAction_Ok in Hact as (Hsup & Hacc & Haction).
  split; [exact Hsup|].
  destruct (Str.pop _) as [key pathParts].
  apply bind_Ok in Hok as (objId & _ & Hok).
  apply bind_Ok in Hok as (r & Hr & Hok).
  destruct r as [[key' acc']|]; [|injection Hok as <- _; constructor].
  assert (Hobj : objId <> Undefined) by (destruct objId; discriminate).
  assert (Hacc' : Forall emittedOp acc').
  { destruct (getObjType (state instance) objId).
    - destruct (key ≫= Str.parseInt) as [index|]; [|discriminate].
      destruct (po_op patchop).
      + apply bind_Ok in Hr as ([insertAfter|] & _ & Hr); [|discriminate].
        destruct (ch_ops origin !! opIndex) as [originalOp|]; [|discriminate].
        injection Hr as _ <-. apply Forall_app. split; [exact Hacc|].
        repeat constructor; cbn; eauto.
      + apply bind_Ok in Hr as ([insertAt|] & _ & Hr); [|discriminate].
        now injection Hr as _ <-.
      + apply bind_Ok in Hr as ([insertAt|] & _ & Hr); [|discriminate].
        now injection Hr as _ <-.
      + apply bind_Ok in Hr as ([insertAt|] & _ & Hr); [|discriminate].
        now injection Hr as _ <-.
    - now injection Hr as _ <-. }
  assert (Hfinal : exists v, ops = (acc' ++ [mkOp action objId key' v None])%list).
  { destruct objId; try congruence;
      destruct action, (po_op patchop); injection Hok as <- _; eauto. }
  destruct Hfinal as [v ->]. apply Forall_app. split; [exact Hacc'|].
  repeat constructor; [exact Hobj|]. cbn.
  destruct Haction as [[-> _] | [[-> _] | [-> _]]]; reflexivity.
Qed.

Lemma patchToOps_map_Ok (origin : Change) (opIndex : nat) (instance : Instance)
    (patch : CloudinaPatch) :
  forall (pathCache : PathCache) (i : nat) (accs : list (list Op)),
    patchToOps_map origin opIndex instance pathCache patch i = Ok accs ->
    Forall supportedPatchOp patch /\ Forall emittedOp (concat accs).
Proof.
  induction patch as [|patchop rest IH]; intros pathCache i accs Hok; cbn in Hok.
  - injection Hok as <-. split; constructor.
  - apply bind_Ok in Hok as ([acc pc] & Hcb & Hok).
    apply bind_Ok in Hok as (accs' & Hrest & Hok). injection Hok as <-.
    apply patchToOps_callback_Ok in Hcb as [Hsup Hem].
    apply IH in Hrest as [Hsups Hems]. split; [now constructor|].
    cbn. apply Forall_app. auto.
Qed.

(** X19.  [patchToOps] skips nothing it has no case for: when it returns,
    every patch op of the patch is a [remove], or an [add] or [replace]
    whose value is [null], a string, a number, a boolean, an array or the
    empty object. *)
Theorem patchToOps_accepts_only_supported (patch : CloudinaPatch) (origin : Change)
    (opIndex : nat) (instance : Instance) (ops : list Op) :
  patchToOps patch origin opIndex instance = Ok ops ->
  Forall supportedPatchOp patch.
Proof.
  unfold patchToOps. intros Hok. apply bind_Ok in Hok as (accs & Hmap & _).
  now apply patchToOps_map_Ok in Hmap as [Hsup _].
Qed.

(** X20.  The ops [patchToOps] returns are [set], [del], [link], [ins],
    [makeList] and [makeMap] ops on an object that is not [undefined]:
    never an [inc], a [makeText] or a [makeTable].  An [ins] carries the
    key it inserts after and an [elem]; a make op carries neither key nor
    value; a [set], [del] or [link] carries no [elem]. *)
Theorem patchToOps_emits (patch : CloudinaPatch) (origin : Change)
    (opIndex : nat) (instance : Instance) (ops : list Op) :
  patchToOps patch origin opIndex instance = Ok ops ->
  Forall emittedOp ops.
Proof.
  unfold patchToOps. intros Hok. apply bind_Ok in Hok as (accs & Hmap & Hok).
  injection Hok as <-. now apply patchToOps_map_Ok in Hmap as [_ Hem].
Qed.

Lemma pathTo_ne_parentPath (parent : list string) (seg : string) :
  pathTo parent seg <> parentPath parent.
Proof.
  rewrite pathTo_parentPath. intros Heq.
  apply (f_equal String.length) in Heq. rewrite !length_append in Heq. cbn in Heq. lia.
Qed.

Lemma resolveParent_insert_ne (st : BackendState) (pathCache : PathCache)
    (path objPath : string) (v : Value) :
  path <> objPath ->
  resolveParent st (<[path := v]> pathCache) objPath = resolveParent st pathCache objPath.
Proof. intros Hne. unfold resolveParent. now rewrite lookup_insert_ne. Qed.

Lemma parentPath_snoc (parent : list string) (k : string) :
  parentPath (parent ++ [k]) = pathTo parent k.
Proof.
  unfold parentPath, pathTo.
  now rewrite (join_cons "" (parent ++ [k])%list) by (destruct parent; discriminate).
Qed.

Lemma patchopAction_supported (makeObj : string) (pathCache : PathCache)
    (patchop : PatchOp) :
  supportedPatchOp patchop ->
  exists action acc,
    patchopAction makeObj pathCache patchop = Ok (action, acc, pathCache)
    \/ patchopAction makeObj pathCache patchop
       = Ok (action, acc, <[po_path patchop := Str makeObj]> pathCache).
Proof.
  unfold supportedPatchOp, patchopAction.
  destruct (po_op patchop); try contradiction;
    [| eauto |];
    destruct (po_value patchop) as [| | | | |items|[|p props]];
    try contradiction; cbn; eauto.
Qed.

(** The first half of the callback on a patch of one patch op: the parent
    object of the path is the object [getObjId] finds at the parent
    path. *)
Lemma callback_parent (origin : Change) (opIndex : nat) (instance : Instance)
    (kind : PatchKind) (parent : list string) (seg : string) (v : Value) (objId : Value) :
  supportedPatchOp (mkPatchOp kind (pathTo parent seg) v) ->
  occurs Str.slash seg = false ->
  getObjId (state instance) (parentPath parent) = Ok objId ->
  exists action acc pathCache',
    patchopAction (makeObjId origin opIndex 0) {[ "" := Str ROOT_ID ]}
      (mkPatchOp kind (pathTo parent seg) v) = Ok (action, acc, pathCache')
    /\ Str.pop (Str.split Str.slash (pathTo parent seg))
       = (Some seg, Str.split Str.slash (parentPath parent))
    /\ resolveParent (state instance) pathCache'
         (Str.join "/" (Str.split Str.slash (parentPath parent))) = Ok objId.
Proof.
  intros Hsup Hseg Hparent.
  destruct (patchopAction_supported (makeObjId origin opIndex 0)
              {[ "" := Str ROOT_ID ]} _ Hsup) as (action & acc & [Hact | Hact]);
    eexists action, acc, _; (split; [exact Hact|]);
    (split; [apply pop_split_pathTo, Hseg|]); rewrite join_split.
  - now rewrite resolveParent_initial.
  - cbn [po_path]. rewrite resolveParent_insert_ne by apply pathTo_ne_parentPath.
    now rewrite resolveParent_initial.
Qed.

(** X21.  A patch op on a list at an index more than one past its end:
    an [add] throws, since the element to insert after does not exist,
    where a [replace] or a [remove] there is dropped and gives no op. *)
Theorem patchToOps_add_past_end (origin : Change) (opIndex : nat) (instance : Instance)
    (kind : PatchKind) (parent : list string) (index : Z) (v : Value) (objId : Value)
    (l : SkipList) :
  supportedPatchOp (mkPatchOp kind (pathTo parent (Str.ofZ index)) v) ->
  getObjId (state instance) (parentPath parent) = Ok objId ->
  getObjType (state instance) objId = TList ->
  elemIdsOf (state instance) objId = Ok l ->
  Z.of_nat (length l) < index ->
  patchToOps [mkPatchOp kind (pathTo parent (Str.ofZ index)) v] origin opIndex instance
  = match kind with
    | PAdd => Throw (Error "expected to find array element")
    | _ => Ok []
    end.
Proof.
  intros Hsup Hparent Htype Hl Hgt.
  destruct (callback_parent origin opIndex instance kind parent (Str.ofZ index) v objId
              Hsup (ofZ_no_slash index) Hparent)
    as (action & acc & pc & Hact & Hpop & Hres).
  unfold patchToOps. cbn [patchToOps_map]. unfold patchToOps_callback.
  rewrite Hact. cbn [mbind result_bind JS.bind po_path po_op].
  rewrite Hpop, Hres. cbn [mbind result_bind JS.bind].
  rewrite Htype. cbn [mbind option_bind]. rewrite parseInt_ofZ.
  destruct kind; [| | |destruct Hsup].
  - rewrite (findElemOfIndex_past_end _ _ _ _ Hl) by lia. reflexivity.
  - rewrite (findElemOfIndex_past_end _ _ _ _ Hl) by lia. reflexivity.
  - rewrite (findElemOfIndex_past_end _ _ _ _ Hl) by lia. reflexivity.
Qed.

(** X22.  A patch op below a list whose last path segment is not a number
    makes [patchToOps] throw, whatever the op. *)
Theorem patchToOps_list_key_not_a_number (origin : Change) (opIndex : nat)
    (instance : Instance) (kind : PatchKind) (parent : list string) (seg : string)
    (v : Value) (objId : Value) :
  supportedPatchOp (mkPatchOp kind (pathTo parent seg) v) ->
  occurs Str.slash seg = false ->
  getObjId (state instance) (parentPath parent) = Ok objId ->
  getObjType (state instance) objId = TList ->
  Str.parseInt seg = None ->
  patchToOps [mkPatchOp kind (pathTo parent seg) v] origin opIndex instance
  = Throw (Error "Expected array index on path").
Proof.
  intros Hsup Hseg Hparent Htype Hnan.
  destruct (callback_parent origin opIndex instance kind parent seg v objId
              Hsup Hseg Hparent)
    as (action & acc & pc & Hact & Hpop & Hres).
  unfold patchToOps. cbn [patchToOps_map]. unfold patchToOps_callback.
  rewrite Hact. cbn [mbind result_bind JS.bind po_path po_op].
  rewrite Hpop, Hres. cbn [mbind result_bind JS.bind].
  rewrite Htype. cbn [mbind option_bind]. rewrite Hnan. reflexivity.
Qed.

(** The callback on an [add] or [replace] of an array or of the empty
    object below a map: a make op for a new object, and the link to
    it; the path of the new object goes into the path cache. *)
Lemma callback_container (origin : Change) (opIndex : nat) (instance : Instance)
    (kind : PatchKind) (parent : list string) (seg : string) (c : Value) (i : nat)
    (objId : Value) :
  kind = PAdd \/ kind = PReplace ->
  container c ->
  occurs Str.slash seg = false ->
  getObjId (state instance) (parentPath parent) = Ok objId ->
  objId <> Undefined ->
  getObjType (state instance) objId = TObject ->
  patchToOps_callback origin opIndex instance {[ "" := Str ROOT_ID ]}
    (mkPatchOp kind (pathTo parent seg) c) i
  = Ok ([mkOp (makeActionOf c) (Str (makeObjId origin opIndex i)) None Undefined None;
         mkOp ALink objId (Some seg) (Str (makeObjId origin opIndex i)) None],
        <[pathTo parent seg := Str (makeObjId origin opIndex i)]> {[ "" := Str ROOT_ID ]}).
Proof.
  intros Hkind Hc Hseg Hparent Hobj Htype.
  unfold patchToOps_callback.
  assert (Hact : patchopAction (makeObjId origin opIndex i) {[ "" := Str ROOT_ID ]}
                   (mkPatchOp kind (pathTo parent seg) c)
                 = Ok (ALink,
                       [mkOp (makeActionOf c) (Str (makeObjId origin opIndex i))
                          None Undefined None],
                       <[pathTo parent seg := Str (makeObjId origin opIndex i)]>
                         {[ "" := Str ROOT_ID ]})).
  { unfold patchopAction, makeActionOf. cbn [po_op po_value po_path].
    destruct Hkind as [-> | ->], Hc as [Harr | ->];
      try (destruct c; try discriminate Harr); reflexivity. }
  rewrite Hact. cbn [mbind result_bind JS.bind po_path].
  rewrite (pop_split_pathTo _ _ Hseg), join_split.
  rewrite resolveParent_insert_ne by apply pathTo_ne_parentPath.
  rewrite resolveParent_initial, Hparent. cbn [mbind result_bind JS.bind].
  rewrite Htype. cbn [mbind result_bind JS.bind].
  destruct objId; try congruence; reflexivity.
Qed.

(** X23.  A [link] op does not come back as itself.  For a [link] at a
    slash-free key of a map the shadow finds again at its path,
    [patchToOps(opToPatch(X))] is a make op for an object with a new id
    ([makeList] when the linked object is a list or a text in the shadow,
    [makeMap] otherwise) followed by a [link] of the same key to that new
    id: the id of the linked object is not kept. *)
Theorem link_gets_new_object (X : Op) (k : string) (origin : Change) (opIndex : nat)
    (instance : Instance) (elemCache : ElemCache) (parent : option (list string)) :
  op_action X = ALink ->
  op_key X = Some k ->
  occurs Str.slash k = false ->
  op_obj X <> Undefined ->
  getObjType (state instance) (op_obj X) = TObject ->
  parentResolves (state instance) X parent ->
  exists patch,
    opToPatch X instance elemCache = Ok (patch, elemCache)
    /\ patchToOps patch origin opIndex instance
       = Ok [mkOp (match getObjType (state instance) (op_value X) with
                   | TList => AMakeList
                   | TObject => AMakeMap
                   end)
               (Str (makeObjId origin opIndex 0)) None Undefined None;
             mkOp ALink (op_obj X) (Some k) (Str (makeObjId origin opIndex 0)) None].
Proof.
  intros Ha Hkey Hk Hobj Htype [Hpath Hparent].
  assert (Hbuild : buildPath X instance elemCache
                   = Ok (pathTo (default [] parent) k, elemCache)).
  { unfold buildPath. rewrite Hpath. cbn [mbind result_bind JS.bind].
    rewrite Htype, Hkey. reflexivity. }
  eexists. split.
  - unfold opToPatch. rewrite Ha, Hbuild. reflexivity.
  - eapply patchToOps_single.
    rewrite (callback_container origin opIndex instance _ (default [] parent) k _ 0
               (op_obj X)); [| | | assumption ..].
    + unfold makeActionOf. destruct (getObjType (state instance) (op_value X)); reflexivity.
    + destruct (keyInCache _ _); auto.
    + destruct (getObjType (state instance) (op_value X)); [left | right]; reflexivity.
Qed.

(** X24.  An object made earlier in a patch is the parent of the patch ops
    below its path: for a patch that adds an array or the empty object at
    a slash-free key of a map and then a scalar or [null] at a key below
    it, [patchToOps] returns the make op, the link, and a [set] on the
    new object, which it treats as a map whatever was added, the shadow
    having no list under the new id. *)
Theorem patchToOps_child_of_new_object (origin : Change) (opIndex : nat)
    (instance : Instance) (kind1 kind2 : PatchKind) (parent : list string)
    (k k2 : string) (c v : Value) (objId : Value) :
  kind1 = PAdd \/ kind1 = PReplace ->
  kind2 = PAdd \/ kind2 = PReplace ->
  container c ->
  scalarOrNull v ->
  occurs Str.slash k = false ->
  occurs Str.slash k2 = false ->
  getObjId (state instance) (parentPath parent) = Ok objId ->
  objId <> Undefined ->
  getObjType (state instance) objId = TObject ->
  makeObjId origin opIndex 0 <> "" ->
  getObjType (state instance) (Str (makeObjId origin opIndex 0)) = TObject ->
  patchToOps [mkPatchOp kind1 (pathTo parent k) c;
              mkPatchOp kind2 (pathTo (parent ++ [k]) k2) v] origin opIndex instance
  = Ok [mkOp (makeActionOf c) (Str (makeObjId origin opIndex 0)) None Undefined None;
        mkOp ALink objId (Some k) (Str (makeObjId origin opIndex 0)) None;
        mkOp ASet (Str (makeObjId origin opIndex 0)) (Some k2) v None].
Proof.
  intros Hk1 Hk2 Hc Hv Hk Hk2' Hparent Hobj Htype Hfresh Hnew.
  unfold patchToOps. cbn [patchToOps_map].
  rewrite (callback_container origin opIndex instance kind1 parent k c 0 objId)
    by assumption.
  cbn [mbind result_bind JS.bind].
  assert (Hcb : patchToOps_callback origin opIndex instance
                  (<[pathTo parent k := Str (makeObjId origin opIndex 0)]>
                     {[ "" := Str ROOT_ID ]})
                  (mkPatchOp kind2 (pathTo (parent ++ [k]) k2) v) 1
                = Ok ([mkOp ASet (Str (makeObjId origin opIndex 0)) (Some k2) v None],
                      <[pathTo parent k := Str (makeObjId origin opIndex 0)]>
                        {[ "" := Str ROOT_ID ]})).
  { unfold patchToOps_callback.
    assert (Hact : patchopAction (makeObjId origin opIndex 1)
                     (<[pathTo parent k := Str (makeObjId origin opIndex 0)]>
                        {[ "" := Str ROOT_ID ]})
                     (mkPatchOp kind2 (pathTo (parent ++ [k]) k2) v)
                   = Ok (ASet, [],
                         <[pathTo parent k := Str (makeObjId origin opIndex 0)]>
                           {[ "" := Str ROOT_ID ]})).
    { unfold patchopAction. cbn [po_op po_value].
      destruct Hk2 as [-> | ->]; destruct v; try contradiction; reflexivity. }
    rewrite Hact. cbn [mbind result_bind JS.bind po_path].
    rewrite (pop_split_pathTo _ _ Hk2'), join_split, parentPath_snoc.
    unfold resolveParent. rewrite lookup_insert_eq. cbn [truthy].
    destruct (String.eqb_spec (makeObjId origin opIndex 0) ""); [congruence|].
    cbn [negb mbind result_bind JS.bind]. rewrite Hnew.
    cbn [mbind result_bind JS.bind po_op po_value].
    destruct Hk2 as [-> | ->]; reflexivity. }
  rewrite Hcb. reflexivity.
Qed.

(** *** Paths through maps *)

Lemma mapPath_nil (st : BackendState) (obj : string) :
  mapPath st obj [] -> obj = ROOT_ID.
Proof.
  intros Hmp. inversion Hmp; [reflexivity|].
  match goal with Hp : (?p ++ [_])%list = [] |- _ => destruct p; discriminate Hp end.
Qed.

Lemma mapPath_slash_free (st : BackendState) (obj : string) (path : list string) :
  mapPath st obj path -> Forall (fun k => occurs Str.slash k = false) path.
Proof.
  induction 1; [constructor|]. apply Forall_app. split; [assumption|].
  now repeat constructor.
Qed.

Lemma getObjId_loop_mapPath (st : BackendState) (obj : string) (path : list string) :
  mapPath st obj path ->
  forall rest, getObjId_loop st (Str ROOT_ID) (path ++ rest)
               = getObjId_loop st (Str obj) rest.
Proof.
  induction 1 as [|parent path rec k child ref inbound _ IH Htype Hrec Hval _ _ _ _ _];
    intros rest; [reflexivity|].
  rewrite <- app_assoc. cbn [app]. rewrite IH. cbn [getObjId_loop].
  rewrite Htype. cbn [objectRecord]. rewrite Hrec, Hval. reflexivity.
Qed.

Lemma getObjId_mapPath (st : BackendState) (obj : string) (path : list string) :
  mapPath st obj path -> getObjId st (parentPath path) = Ok (Str obj).
Proof.
  intros Hmp. unfold getObjId.
  destruct (String.eqb_spec (parentPath path) "") as [Hnil|_].
  - destruct path as [|k path]; [now rewrite (mapPath_nil _ _ Hmp)|].
    unfold parentPath in Hnil. rewrite join_cons in Hnil by discriminate. discriminate.
  - unfold parentPath. rewrite split_join_slash by (eapply mapPath_slash_free, Hmp).
    change (drop 1 ("" :: path)) with path. rewrite <- (app_nil_r path).
    now rewrite (getObjId_loop_mapPath _ _ _ Hmp).
Qed.

Lemma getPath_loop_mapPath (st : BackendState) (obj : string) (path : list string) :
  mapPath st obj path ->
  forall (fuel : nat) (acc : list string),
    (length path <= fuel)%nat ->
    getPath_loop fuel st (Str obj) acc = Ok (Some (path ++ acc)%list).
Proof.
  induction 1 as [|parent path rec k child ref inbound _ IH Htype _ _ _ Hroot Hin Hobj Hkey];
    intros fuel acc Hfuel.
  - destruct fuel; reflexivity.
  - rewrite length_app in Hfuel. cbn in Hfuel.
    destruct fuel as [|fuel]; [lia|]. cbn [getPath_loop strict_eq].
    destruct (String.eqb_spec child ROOT_ID); [congruence|].
    cbn [objectRecord]. rewrite Hin. unfold default, id. cbn [hd_error].
    rewrite Hobj, Htype, Hkey.
    rewrite IH by lia. now rewrite <- app_assoc.
Qed.

Lemma mapPath_unique (st : BackendState) (obj : string) (p1 p2 : list string) :
  mapPath st obj p1 -> mapPath st obj p2 -> p1 = p2.
Proof.
  intros Hp1 Hp2.
  pose proof (getPath_loop_mapPath _ _ _ Hp1 (length p1 + length p2) [] ltac:(lia)) as E1.
  pose proof (getPath_loop_mapPath _ _ _ Hp2 (length p1 + length p2) [] ltac:(lia)) as E2.
  rewrite E1 in E2. injection E2 as E2. now rewrite !app_nil_r in E2.
Qed.

(** The objects on the way are distinct objects of the state: the path is
    no longer than the state has objects. *)
Lemma mapPath_chain (st : BackendState) (obj : string) (path : list string) :
  mapPath st obj path ->
  exists chain : list string,
    length chain = length path /\ NoDup chain
    /\ forall o, o ∈ chain ->
         is_Some (byObject st !! o)
         /\ exists p, mapPath st o p /\ (length p <= length path)%nat.
Proof.
  induction 1 as [|parent path rec k child ref inbound Hmp IH Htype Hrec Hval Hk Hroot Hin Hobj Hkey].
  - exists []. split; [reflexivity|]. split; [apply NoDup_nil_2|].
    intros o Ho. now apply elem_of_nil in Ho.
  - destruct IH as (chain & Hlen & Hnd & Hchain).
    assert (Hchild : mapPath st child (path ++ [k])) by (econstructor; eauto).
    exists (child :: chain). rewrite length_app. cbn. split; [lia|]. split.
    + constructor; [|exact Hnd]. intros Hmem.
      destruct (Hchain child Hmem) as (_ & p & Hp & Hle).
      rewrite (mapPath_unique _ _ _ _ Hp Hchild), length_app in Hle. cbn in Hle. lia.
    + intros o Ho. apply elem_of_cons in Ho as [->|Ho].
      * split.
        -- destruct (byObject st !! child); [eauto | discriminate].
        -- exists (path ++ [k])%list. split; [exact Hchild|].
           rewrite length_app. cbn. lia.
      * destruct (Hchain o Ho) as (Hsome & p & Hp & Hle).
        split; [exact Hsome|]. exists p. split; [exact Hp | lia].
Qed.

Lemma mapPath_depth (st : BackendState) (obj : string) (path : list string) :
  mapPath st obj path -> (length path <= size (byObject st))%nat.
Proof.
  intros Hmp. destruct (mapPath_chain _ _ _ Hmp) as (chain & <- & Hnd & Hchain).
  rewrite <- length_map_to_list, <- (length_fmap fst).
  apply submseteq_length, NoDup_submseteq; [exact Hnd|].
  intros o Ho. destruct (Hchain o Ho) as [[rec Hrec] _].
  apply list_elem_of_fmap. exists (o, rec). split; [reflexivity|].
  now apply elem_of_map_to_list.
Qed.

(** X25.  Path and object id are inverse to each other along maps: for
    an object reached from the root through maps by slash-free keys,
    [getPath] returns those keys and [getObjId], given the path they
    spell, returns the object. *)
Theorem getPath_getObjId_through_maps (st : BackendState) (obj : string)
    (path : list string) :
  mapPath st obj path ->
  getPath st (Str obj) = Ok (Some path)
  /\ getObjId st (parentPath path) = Ok (Str obj).
Proof.
  intros Hmp. split; [|now apply getObjId_mapPath].
  unfold getPath. rewrite (getPath_loop_mapPath _ _ _ Hmp).
  - now rewrite app_nil_r.
  - pose proof (mapPath_depth _ _ _ Hmp). lia.
Qed.

(** X26.  [getObjId] stops at the first list on the path: the segments
    after the index into the list are not read, and the path resolves to
    what the path up to that index resolves to. *)
Theorem getObjId_stops_at_list (st : BackendState) (obj : string)
    (path : list string) (seg : string) (rest : list string) :
  mapPath st obj path ->
  getObjType st (Str obj) = TList ->
  occurs Str.slash seg = false ->
  Forall (fun k => occurs Str.slash k = false) rest ->
  getObjId st (parentPath (path ++ seg :: rest))
  = getObjId st (parentPath (path ++ [seg])).
Proof.
  intros Hmp Htype Hseg Hrest.
  assert (Hres : forall tail, Forall (fun k => occurs Str.slash k = false) tail ->
            getObjId st (parentPath (path ++ seg :: tail))
            = getObjId_loop st (Str obj) (seg :: tail)).
  { intros tail Htail. unfold getObjId.
    destruct (String.eqb_spec (parentPath (path ++ seg :: tail)) "") as [Hnil|_].
    - unfold parentPath in Hnil. rewrite join_cons in Hnil by (destruct path; discriminate).
      discriminate.
    - unfold parentPath. rewrite split_join_slash.
      + change (drop 1 ("" :: path ++ seg :: tail)) with (path ++ seg :: tail)%list.
        apply (getObjId_loop_mapPath _ _ _ Hmp).
      + apply Forall_app. split; [eapply mapPath_slash_free, Hmp|].
        now constructor. }
  rewrite (Hres rest Hrest), (Hres [] (Forall_nil_2 _)).
  cbn [getObjId_loop]. now rewrite Htype.
Qed.

End MoreTranslatorProperties.

Section ReplayProperties.
Context `{!AutomergeBackend, !CambriaLenses, !Uuid}.

(** X27.  [applyOps(instance, ops, actor)] hands the backend one change:
    by [actor], numbered one past what the instance's clock has for the
    actor, with the instance's deps and the ops given.  The instance it
    returns has the same schema and is bootstrapped; of the insertion
    counters only the actor's changes, to the highest of its old value
    and the [elem]s of the ops. *)
Theorem applyOps_one_change (instance : Instance) (ops : list Op) (actor : string)
    (instance' : Instance) :
  applyOps instance ops actor = Ok instance' ->
  (exists p,
     Backend_applyChanges (state instance)
       [ {| ch_actor := actor; ch_seq := orZero (clock instance !! actor) + 1;
            ch_deps := deps instance; ch_message := ""; ch_ops := ops |} ]
     = Ok (state instance', p)
     /\ clock instance' = default ∅ (ap_clock p)
     /\ deps instance' = default ∅ (ap_deps p))
  /\ schema instance' = schema instance
  /\ bootstrapped instance' = true
  /\ (forall A, A <> actor -> elem instance' !! A = elem instance !! A)
  /\ elem instance' !! actor
     = Some (fold_left Z.max (map (fun o => orZero (op_elem o)) ops)
               (orZero (elem instance !! actor))).
Proof.
  unfold applyOps. intros Hok. apply bind_Ok in Hok as ([i p] & Hinst & Hok).
  injection Hok as <-. apply applyChangesToInstance_Ok in Hinst as (bs & Hback & ->).
  cbn. split; [eauto|]. split; [reflexivity|]. split; [reflexivity|]. split.
  - intros A HA. unfold maxElemStep. cbn. now apply lookup_insert_ne.
  - unfold maxElemStep. cbn. apply lookup_insert_eq.
Qed.

Lemma applyOps_schema (instance : Instance) (ops : list Op) (actor : string)
    (instance' : Instance) :
  applyOps instance ops actor = Ok instance' -> schema instance' = schema instance.
Proof.
  unfold applyOps. intros Hok. apply bind_Ok in Hok as ([i p] & Hinst & Hok).
  injection Hok as <-. eapply applyChangesToInstance_schema, Hinst.
Qed.

Lemma convertChange_loop_schema (actor : string) (sortedChange : Change)
    (lensState : LensState) (todo : list Op) :
  forall (i : nat) (ops : list Op) (from to : Instance) (elemCache : ElemCache)
         (ops' : list Op) (from' to' : Instance),
    convertChange_loop actor sortedChange lensState todo i ops from to elemCache
      = Ok (ops', from', to') ->
    schema from' = schema from /\ schema to' = schema to.
Proof.
  induction todo as [|op rest IH]; intros i ops from to elemCache ops' from' to' Hok.
  - cbn in Hok. now injection Hok as _ <- <-.
  - cbn [convertChange_loop] in Hok.
    destruct (op_action op).
    1, 6, 7, 8, 9:
      apply bind_Ok in Hok as (from1 & Hfrom & Hok);
      apply IH in Hok as [Hf Ht]; apply applyOps_schema in Hfrom; split; congruence.
    all: apply bind_Ok in Hok as ([cops cache1] & _ & Hok);
      apply bind_Ok in Hok as (from1 & Hfrom & Hok);
      apply bind_Ok in Hok as (to1 & Hto & Hok);
      apply IH in Hok as [Hf Ht];
      apply applyOps_schema in Hfrom; apply applyOps_schema in Hto; split; congruence.
Qed.

(** X28.  The change [convertChange] returns is the block's change with
    other ops: same actor, same seq, same deps, same message.  The two
    instances it returns are in the schemas of the two instances given,
    and the second is bootstrapped if the one given was. *)
Theorem convertChange_keeps_identity (σ : Heap) (block : CambriaBlock)
    (fromInstance toInstance : Instance) (lensState : LensState)
    (change : Change) (fromInstance' toInstance' : Instance) :
  convertChange σ block fromInstance toInstance lensState
    = Ok (change, fromInstance', toInstance') ->
  ch_actor change = ch_actor (σ !!! b_change block)
  /\ ch_seq change = ch_seq (σ !!! b_change block)
  /\ ch_deps change = ch_deps (σ !!! b_change block)
  /\ ch_message change = ch_message (σ !!! b_change block)
  /\ schema fromInstance' = schema fromInstance
  /\ schema toInstance' = schema toInstance
  /\ (bootstrapped toInstance = true -> bootstrapped toInstance' = true).
Proof.
  intros Hok. pose proof (convertChange_bootstrapped _ _ _ _ _ _ _ _ Hok) as Hb.
  unfold convertChange in Hok.
  apply bind_Ok in Hok as (sorted & _ & Hok).
  apply bind_Ok in Hok as ([[ops f1] t1] & Hloop & Hok).
  injection Hok as <- <- <-. cbn.
  apply convertChange_loop_schema in Hloop as [Hf Ht]. auto 10.
Qed.

(** X29.  The more the peer has, the less there is to send: when
    [haveDeps1] is below [haveDeps2] actor by actor (as [lessOrEqual]
    tells), the blocks missing for [haveDeps2] are those of the blocks
    missing for [haveDeps1] that [haveDeps2] does not cover, in the same
    order. *)
Theorem getMissingChanges_antitone (σ : Heap) (doc : CambriaBackend)
    (haveDeps1 haveDeps2 : Clock) :
  lessOrEqual haveDeps1 haveDeps2 = true ->
  getMissingChanges σ doc haveDeps2
  = filter (fun block =>
              orZero (haveDeps2 !! ch_actor (σ !!! b_change block))
              < ch_seq (σ !!! b_change block))
      (getMissingChanges σ doc haveDeps1).
Proof.
  intros Hle. unfold getMissingChanges, CambriaBackend_getMissingChanges.
  rewrite list_filter_filter. apply list_filter_iff. intros b. split; [|tauto].
  intros Hb. split; [exact Hb|].
  pose proof (lessOrEqual_true _ _ Hle (ch_actor (σ !!! b_change b))). lia.
Qed.

(** *** The replay reads only the past *)

Lemma findBlockIndex_app (σ : Heap) (actorId : string) (seq : Z)
    (P tail : list CambriaBlock) :
  forall (i idx : nat),
    findBlockIndex σ actorId seq P i = Some idx ->
    findBlockIndex σ actorId seq (P ++ tail) i = Some idx.
Proof.
  induction P as [|b P IH]; intros i idx Hfind; cbn in Hfind; [discriminate|].
  cbn [app findBlockIndex]. destruct (_ && _); [exact Hfind | now apply IH].
Qed.

Lemma applySchemaChanges_past (σ : Heap) (P : list CambriaBlock) (n : nat) :
  forall (fuel : nat) (tail1 tail2 : list CambriaBlock)
         (blocks : list CambriaBlock) (instance : Instance) (lensState : LensState),
    (forall b, b ∈ blocks -> exists j, (j < n)%nat /\ P !! j = Some b) ->
    applySchemaChanges fuel σ blocks instance lensState (P ++ tail1)
    = applySchemaChanges fuel σ blocks instance lensState (P ++ tail2).
Proof.
  induction n as [n IH] using lt_wf_ind.
  intros [|fuel] tail1 tail2 blocks instance lensState Hpast; [reflexivity|].
  cbn [applySchemaChanges].
  match goal with
  | |- mbind _ (applySchemaChanges_loop ?g1 _ _ _ _)
       = mbind _ (applySchemaChanges_loop ?g2 _ _ _ _) =>
      rewrite (applySchemaChanges_loop_ext g1 g2); [reflexivity|]
  end.
  intros b Hb ls. cbv beta.
  destruct (Hpast b Hb) as (j & Hj & HPj).
  destruct (findBlockIndex_before σ P 0 j b HPj) as (idx & Hidx & Hle).
  rewrite !(findBlockIndex_app _ _ _ _ _ _ _ Hidx).
  pose proof (findBlockIndex_range _ _ _ _ _ _ Hidx) as Hrange.
  rewrite !take_app_le by lia.
  rewrite (IH idx ltac:(lia) fuel tail1 tail2); [reflexivity|].
  intros b' Hb'. apply list_elem_of_lookup in Hb' as [j' Hj'].
  pose proof (lookup_lt_Some _ _ _ Hj') as Hlt. rewrite length_take in Hlt.
  exists j'. split; [lia|]. rewrite lookup_take_lt in Hj' by lia. exact Hj'.
Qed.

(** X30.  [getInstanceAt] reads only the past: the instance it builds for
    a block of the history is the same whatever blocks come after that
    block in the history. *)
Theorem getInstanceAt_reads_the_past (fuel : nat) (σ : Heap) (schema : string)
    (before after1 after2 : list CambriaBlock) (block : CambriaBlock)
    (lensState : LensState) :
  getInstanceAt fuel σ schema (ch_actor (σ !!! b_change block))
    (ch_seq (σ !!! b_change block)) lensState (before ++ block :: after1)
  = getInstanceAt fuel σ schema (ch_actor (σ !!! b_change block))
      (ch_seq (σ !!! b_change block)) lensState (before ++ block :: after2).
Proof.
  unfold getInstanceAt.
  assert (HP : (before ++ [block])%list !! length before = Some block)
    by now rewrite list_lookup_middle.
  destruct (findBlockIndex_before σ (before ++ [block]) 0 (length before) block HP)
    as (idx & Hidx & Hle).
  pose proof (findBlockIndex_range _ _ _ _ _ _ Hidx) as Hrange.
  replace (before ++ block :: after1)%list with ((before ++ [block]) ++ after1)%list
    by now rewrite <- app_assoc.
  replace (before ++ block :: after2)%list with ((before ++ [block]) ++ after2)%list
    by now rewrite <- app_assoc.
  rewrite !(findBlockIndex_app _ _ _ _ _ _ _ Hidx).
  rewrite !take_app_le by lia.
  rewrite (applySchemaChanges_past σ (before ++ [block]) idx fuel after1 after2);
    [reflexivity|].
  intros b' Hb'. apply list_elem_of_lookup in Hb' as [j' Hj'].
  pose proof (lookup_lt_Some _ _ _ Hj') as Hlt. rewrite length_take in Hlt.
  exists j'. split; [lia|]. rewrite lookup_take_lt in Hj' by lia.
  rewrite lookup_app_l by lia. exact Hj'.
Qed.

End ReplayProperties.

(* ===================================================================== *)
(** ** The properties on the sample shadow and engine *)
(* ===================================================================== *)

Section OnTheSample.
Import Sample.
Local Existing Instances Sample.backend Sample.lensLib Sample.uuidLib.

(** C1, the claim as stated fails: a [set] of the root key [a/b] comes
    back as a [set] of key [b] on the object [null]. *)
Lemma roundtrip_slash_key_counterexample :
  opToPatch (rootSet "a/b" (Str "hello")) shadow ∅
    = Ok ([mkPatchOp PReplace "/a/b" (Str "hello")], ∅)
  /\ patchToOps [mkPatchOp PReplace "/a/b" (Str "hello")]
       (changeOf 1 [rootSet "a/b" (Str "hello")]) 0 shadow
     = Ok [mkOp ASet Null (Some "b") (Str "hello") None]
  /\ [mkOp ASet Null (Some "b") (Str "hello") None] <> [rootSet "a/b" (Str "hello")].
Proof. split; [reflexivity|]. split; [reflexivity|]. discriminate. Qed.

Lemma roundtrip_witness :
  (exists patch,
     opToPatch (rootSet "name" (Str "hello")) shadow ∅ = Ok (patch, ∅) /\
     patchToOps patch (changeOf 1 [rootSet "name" (Str "hello")]) 0 shadow
     = Ok [rootSet "name" (Str "hello")])
  /\
  (exists patch,
     opToPatch (listSet "A:3" (Str "z")) shadow
       {[ "A:3" := mkOp AIns (Str "list-1") (Some "A:2") Undefined (Some 3) ]}
     = Ok (patch, delete "A:3"
                    {[ "A:3" := mkOp AIns (Str "list-1") (Some "A:2") Undefined (Some 3) ]}) /\
     patchToOps patch (changeOf 1 [listSet "A:3" (Str "z")]) 0 shadow
     = Ok [mkOp AIns (Str "list-1") (Some "A:2") Undefined (Some 3);
           mkOp ASet (Str "list-1") (Some "A:3") (Str "z") None])
  /\
  (exists patch,
     opToPatch (listSet "fresh" (Str "z")) shadow
       {[ "fresh" := mkOp AIns (Str "list-1") (Some "_head") Undefined (Some 7) ]}
     = Ok (patch, delete "fresh"
                    {[ "fresh" := mkOp AIns (Str "list-1") (Some "_head") Undefined (Some 7) ]}) /\
     patchToOps patch (changeOf 1 [listSet "fresh" (Str "z")]) 0 shadow
     = Ok [mkOp AIns (Str "list-1") (Some "_head") Undefined
             (Some (orZero (elem shadow !! "A") + 1));
           mkOp ASet (Str "list-1")
             (Some ("A" +:+ ":" +:+ Str.ofZ (orZero (elem shadow !! "A") + 1)))
             (Str "z") None]).
Proof.
  split; [|split].
  - assert (Hplain : plainSetOrDel (rootSet "name" (Str "hello")) "name")
      by (repeat split; discriminate).
    assert (Hres : parentResolves (state shadow) (rootSet "name" (Str "hello")) (Some []))
      by (split; reflexivity).
    apply (proj1 (opToPatch_patchToOps_roundtrip _ _
                    (changeOf 1 [rootSet "name" (Str "hello")]) 0 shadow ∅ _
                    Hplain Hres)).
    reflexivity.
  - assert (Hplain : plainSetOrDel (listSet "A:3" (Str "z")) "A:3")
      by (repeat split; discriminate).
    assert (Hres : parentResolves (state shadow) (listSet "A:3" (Str "z")) (Some ["tags"]))
      by (split; reflexivity).
    apply (proj2 (opToPatch_patchToOps_roundtrip _ _
                    (changeOf 1 [listSet "A:3" (Str "z")]) 0 shadow
                    {[ "A:3" := mkOp AIns (Str "list-1") (Some "A:2") Undefined (Some 3) ]}
                    _ Hplain Hres) "A:2").
    + reflexivity.
    + split; [reflexivity|]. split; [discriminate|]. split.
      * eexists. split; reflexivity.
      * eexists. split; [reflexivity|]. right. split; [discriminate|].
        cbn. apply list_elem_of_further, list_elem_of_here.
    + reflexivity.
  - assert (Hplain : plainSetOrDel (listSet "fresh" (Str "z")) "fresh")
      by (repeat split; discriminate).
    assert (Hres : parentResolves (state shadow) (listSet "fresh" (Str "z")) (Some ["tags"]))
      by (split; reflexivity).
    apply (proj2 (opToPatch_patchToOps_roundtrip _ _
                    (changeOf 1 [listSet "fresh" (Str "z")]) 0 shadow
                    {[ "fresh" := mkOp AIns (Str "list-1") (Some "_head") Undefined (Some 7) ]}
                    _ Hplain Hres) "_head").
    + reflexivity.
    + split; [reflexivity|]. split; [discriminate|]. split.
      * eexists. split; reflexivity.
      * eexists. split; [reflexivity|]. now left.
    + reflexivity.
Defined.

Lemma phantom_invisibility_witness :
  exists doc' p, applyChanges heap engine [block1] = Ok (doc', p) /\ phantomFree p.
Proof.
  eexists _, _. split; [reflexivity|].
  apply phantom_invisibility. eapply (emitted_applyChanges heap engine [block1]).
  reflexivity.
Defined.

(** C3, the claim as stated fails: [block2] carries the second change of
    actor [A], the first has not come; the backend keeps the change
    waiting and the clock of the primary instance has no entry for [A];
    the second [applyChanges] does not filter the block out and appends
    it to the history once more. *)
Lemma applyChanges_twice_counterexample :
  exists doc1 p1 doc2 p2,
    CambriaBackend_applyChanges heap engine [block2] = Ok (doc1, p1) /\
    CambriaBackend_applyChanges heap doc1 [block2] = Ok (doc2, p2) /\
    history doc1 = [block2] /\
    history doc2 = [block2; block2] /\
    history doc2 <> history doc1.
Proof.
  eexists _, _, _, _. split; [reflexivity|]. split; [reflexivity|].
  split; [reflexivity|]. split; [reflexivity|]. discriminate.
Qed.

Lemma applyChanges_twice_witness :
  exists doc1 p1 p2,
    CambriaBackend_applyChanges heap engine [block1] = Ok (doc1, p1) /\
    CambriaBackend_applyChanges heap doc1 [block1] = Ok (doc1, p2) /\
    ap_diffs p2 = [].
Proof.
  eexists _, _, _. split; [reflexivity|].
  eapply (applyChanges_twice_unchanged heap engine block1).
  - reflexivity.
  - reflexivity.
  - vm_compute. discriminate.
  - reflexivity.
  - reflexivity.
  - reflexivity.
  - reflexivity.
Defined.



(** C5, the claim as stated fails: a [replace] past the end of the list
    whose value is not of an accepted shape raises an error; and a
    [replace] at index [-1], where no element is, emits a [set] keyed
    by the head marker. *)
Lemma patchToOps_soft_drop_counterexample :
  patchToOps [mkPatchOp PReplace "/tags/5" (Obj [("a", Num 1)])] (changeOf 1 []) 0 shadow
  = Throw (RangeError "bad value for patchop")
  /\ patchToOps [mkPatchOp PReplace "/tags/-1" (Str "q")] (changeOf 1 []) 0 shadow
     = Ok [mkOp ASet (Str "list-1") (Some "_head") (Str "q") None].
Proof. split; reflexivity. Qed.

Lemma patchToOps_soft_drop_witness :
  patchToOps_callback (changeOf 1 []) 0 shadow {[ "" := Str ROOT_ID ]}
    (mkPatchOp PReplace "/tags/5" (Str "q")) 0
  = Ok ([], {[ "" := Str ROOT_ID ]}).
Proof.
  apply (patchToOps_soft_drop (changeOf 1 []) 0 shadow {[ "" := Str ROOT_ID ]}
           (mkPatchOp PReplace "/tags/5" (Str "q")) 0 ASet [] {[ "" := Str ROOT_ID ]}
           "5" [""; "tags"] (Str "list-1") [("A:1", Str "x"); ("A:2", Str "y")] 5);
    try reflexivity.
  vm_compute. discriminate.
Defined.

Lemma applyChangesToInstance_elem_max_witness :
  exists instance' patch,
    applyChangesToInstance shadow
      [changeOf 1 [mkOp AIns (Str "list-1") (Some "A:2") Undefined (Some 3)]]
    = Ok (instance', patch) /\
    isMaximumOf (orZero (elem instance' !! "A")) (orZero (elem shadow !! "A"))
      (elemsBy "A" [changeOf 1 [mkOp AIns (Str "list-1") (Some "A:2") Undefined (Some 3)]])
    /\ orZero (elem shadow !! "A") <= orZero (elem instance' !! "A").
Proof.
  eexists _, _. split; [reflexivity|].
  eapply (applyChangesToInstance_elem_max shadow
            [changeOf 1 [mkOp AIns (Str "list-1") (Some "A:2") Undefined (Some 3)]]).
  reflexivity.
Defined.

(** C7, the code against its own comment: on the change [twoLists]
    [sortOps] returns the first [set] twice and loses the [set] that
    fills the inserted element; what it returns is no permutation of the
    ops it was given. *)
Theorem sortOps_not_a_permutation :
  exists sorted,
    sortOps twoLists = Ok sorted /\
    ch_ops sorted
    = [ mkOp ASet (Str "list-1") (Some "A:1") (Str "x") None;
        mkOp AIns (Str "list-2") (Some "_head") Undefined (Some 1);
        mkOp ASet (Str "list-1") (Some "A:1") (Str "x") None ] /\
    ~ ch_ops sorted ≡ₚ ch_ops twoLists.
Proof.
  eexists. split; [reflexivity|]. split; [reflexivity|].
  intros Hperm.
  assert (Hin : mkOp ASet (Str "list-2") (Some "A:1") (Str "y") None
                ∈ ch_ops twoLists).
  { cbn. apply list_elem_of_further, list_elem_of_further, list_elem_of_here. }
  rewrite <- Hperm in Hin. cbn in Hin.
  repeat (apply elem_of_cons in Hin as [Heq|Hin]; [discriminate Heq|]).
  now apply elem_of_nil in Hin.
Qed.

Lemma bootstrap_construction_witness :
  bootstrap (initInstance "v1") (lensState engine)
  = Ok (phantomChange
          [ mkOp ASet (Str ROOT_ID) (Some "name") (Str "") None;
            mkOp AMakeList (Str (makeObjId (phantomChange []) 1 1)) None Undefined None;
            mkOp ALink (Str ROOT_ID) (Some "tags")
              (Str (makeObjId (phantomChange []) 1 1)) None ]).
Proof.
  apply (proj2 (bootstrap_construction (initInstance "v1") (lensState engine)
                  (rl_lens lensV1) _ eq_refl)).
  eexists _, _. split; [reflexivity|]. split; reflexivity.
Defined.

Lemma applyLocalChange_first_witness :
  exists σ' this' patch block,
    CambriaBackend_applyLocalChange heap engine 0%nat = Ok (σ', this', patch, block) /\
    (b_change block = 0%nat
     /\ σ' = <[0%nat := withPhantomDep (heap !!! 0%nat)]> heap
     /\ ch_deps (σ' !!! b_change block) !! "0000000000" = Some 1
     /\ history this' = (history engine ++ [block])%list
     /\ exists st st' p,
          Backend_applyLocalChange st (σ' !!! 0%nat) = Ok (st', p)
          /\ (state <$> instances this' !! cb_schema this') = Some st').
Proof.
  eexists _, _, _, _. split; [reflexivity|].
  eapply (applyLocalChange_first_depends_on_phantom heap engine 0%nat); reflexivity.
Defined.

(** C10 on instances that start out not bootstrapped: the empty instance
    after an empty change list, and after one op played through
    [applyOps]. *)
Lemma applyChangesToInstance_marks_bootstrapped_witness :
  bootstrapped (initInstance "v1") = false
  /\ (exists instance' patch,
        applyChangesToInstance (initInstance "v1") [] = Ok (instance', patch)
        /\ treatedAsBootstrapped instance')
  /\ (exists instance',
        applyOps (initInstance "v1") [rootSet "name" (Str "hi")] "A" = Ok instance'
        /\ treatedAsBootstrapped instance').
Proof.
  split; [reflexivity|]. split.
  - eexists _, _. split; [reflexivity|].
    eapply (proj1 applyChangesToInstance_marks_bootstrapped (initInstance "v1") []).
    reflexivity.
  - eexists. split; [reflexivity|].
    eapply (proj2 applyChangesToInstance_marks_bootstrapped (initInstance "v1")
              [rootSet "name" (Str "hi")] "A").
    reflexivity.
Defined.

End OnTheSample.

(* ===================================================================== *)
(** ** The further properties on the sample shadow and engine *)
(* ===================================================================== *)

Section FurtherOnTheSample.
Import Sample.
Local Existing Instances Sample.backend Sample.lensLib Sample.uuidLib.

Lemma history_append_only_witness :
  exists e1 p,
    CambriaBackend_applyChanges heap engine [block1] = Ok (e1, p) /\
    (history engine `prefix_of` history e1
     /\ cb_schema e1 = cb_schema engine /\ lenses e1 = lenses engine
     /\ inDoc (lensState engine) ⊆ inDoc (lensState e1)).
Proof.
  eexists _, _. split; [reflexivity|].
  apply history_append_only. apply rtc_once.
  eapply (step_applyChanges heap engine [block1]). reflexivity.
Defined.

Lemma init_fresh_witness :
  init (mkInitOptions "v1" [lensV1]) = Ok engine /\
  (cb_schema engine = "v1" /\ lenses engine = [lensV1]
   /\ history engine = [] /\ inDoc (lensState engine) = ∅
   /\ fst (primaryInstance engine) = initInstance "v1"
   /\ (forall σ haveDeps, getMissingChanges σ engine haveDeps = [])
   /\ reduceLenses initLensGraph [lensV1] = Ok (graph (lensState engine))
   /\ exists lensStack, lensFromTo (graph (lensState engine)) "mu" "v1" = Ok lensStack).
Proof.
  split; [reflexivity|].
  apply (init_fresh (mkInitOptions "v1" [lensV1]) engine). reflexivity.
Defined.

(** X6 on the sample engine: after a local change, and after an
    [applyChanges] that threw on a block whose lens starts from a schema
    the graph does not have. *)
Lemma inDoc_is_lens_targets_of_history_witness :
  (exists σ1 e1 p b,
     CambriaBackend_applyLocalChange heap engine 0%nat = Ok (σ1, e1, p, b) /\
     inDoc (lensState e1) = lensTargets (history e1))
  /\
  (let block :=
     {| b_schema := "v1";
        b_lenses := [ {| rl_from := "v7"; rl_to := "v8"; rl_lens := [] |} ];
        b_change := 0%nat; b_actor := "A"; b_seq := 1 |} in
   let e1 := CambriaBackend_applyChanges_thrown engine [block] false in
   CambriaBackend_applyChanges heap engine [block] = Throw (RangeError "unknown schema")
   /\ history e1 = [block]
   /\ inDoc (lensState e1) = ∅
   /\ lensTargets (history e1) = {[ "v8" ]}
   /\ inDoc (lensState e1) ⊆ lensTargets (history e1)).
Proof.
  assert (Hinit : init (mkInitOptions "v1" [lensV1]) = Ok engine) by reflexivity.
  split.
  - eexists _, _, _, _. split; [reflexivity|].
    apply (proj1 (inDoc_is_lens_targets_of_history (mkInitOptions "v1" [lensV1]) engine
                    _ Hinit)).
    apply rtc_once. eapply (step_applyLocalChange heap engine 0%nat). reflexivity.
  - cbv zeta. split; [reflexivity|]. split; [reflexivity|]. split; [reflexivity|].
    split; [unfold lensTargets; cbn; set_solver|].
    apply (proj2 (inDoc_is_lens_targets_of_history (mkInitOptions "v1" [lensV1]) engine
                    _ Hinit)).
    apply rtc_once. right.
    eapply (throws_applyChanges heap engine _ (RangeError "unknown schema") false).
    reflexivity.
Defined.

Lemma engine_keeps_only_primary_witness :
  exists e1 p,
    CambriaBackend_applyChanges heap engine [block1] = Ok (e1, p) /\
    keepsOnlyPrimary e1.
Proof.
  eexists _, _. split; [reflexivity|].
  apply (engine_keeps_only_primary (mkInitOptions "v1" [lensV1]) engine);
    [reflexivity|].
  apply rtc_once. eapply (step_applyChanges heap engine [block1]). reflexivity.
Defined.

Lemma shadow_clock_is_patch_clock_witness :
  exists doc' p,
    applyChanges heap engine [block1] = Ok (doc', p) /\
    exists i, instances doc' !! cb_schema doc' = Some i /\ bootstrapped i = true
              /\ clock i = default ∅ (ap_clock p) /\ deps i = default ∅ (ap_deps p)
              /\ clock i !! CAMBRIA_MAGIC_ACTOR = None
              /\ deps i !! CAMBRIA_MAGIC_ACTOR = None.
Proof.
  eexists _, _. split; [reflexivity|].
  apply shadow_clock_is_patch_clock.
  eapply (answered_applyChanges heap engine [block1]). reflexivity.
Defined.

Lemma lenses_shipped_once_witness :
  exists σ1 this1 p1 b1,
    CambriaBackend_applyLocalChange heap engine 0%nat = Ok (σ1, this1, p1, b1) /\
    ((cb_schema engine ∉ inDoc (lensState engine) -> b_lenses b1 = lenses engine)
     /\ forall this2 σ2 request2 σ3 this3 p2 block2,
          evolves this1 this2 ->
          CambriaBackend_applyLocalChange σ2 this2 request2 = Ok (σ3, this3, p2, block2) ->
          b_lenses block2 = []).
Proof.
  eexists _, _, _, _. split; [reflexivity|].
  eapply (lenses_shipped_once heap engine 0%nat); [reflexivity|].
  apply list_elem_of_here.
Defined.

Lemma merge_history_witness :
  exists remote p0 local' p,
    CambriaBackend_applyChanges heap engine [block1] = Ok (remote, p0) /\
    merge heap engine remote = Ok (local', p) /\
    (history local'
     = (history engine
        ++ filter (fun b => orZero (clock (fst (primaryInstance engine)) !! b_actor b)
                            < b_seq b)
             (filter (fun b =>
                        orZero (clock (fst (primaryInstance engine))
                                  !! ch_actor (heap !!! b_change b))
                        < ch_seq (heap !!! b_change b))
                (history remote)))%list
     /\ cb_schema local' = cb_schema engine).
Proof.
  eexists _, _, _, _. split; [reflexivity|]. split; [reflexivity|].
  eapply (merge_history heap engine). reflexivity.
Defined.

Lemma applyLocalChange_keeps_elem_witness :
  exists doc1 p1 primary σ' this' patch block,
    CambriaBackend_applyChanges heap engine [block1] = Ok (doc1, p1) /\
    instances doc1 !! cb_schema doc1 = Some primary /\
    CambriaBackend_applyLocalChange heap doc1 1%nat = Ok (σ', this', patch, block) /\
    exists primary',
      instances this' !! cb_schema this' = Some primary'
      /\ elem primary' = elem primary
      /\ Backend_applyLocalChange (state primary) (σ' !!! 1%nat)
         = Ok (state primary', {| ap_diffs := ap_diffs patch;
                                  ap_clock := ap_clock patch;
                                  ap_deps := ap_deps patch |}).
Proof.
  eexists _, _, _, _, _, _, _. split; [reflexivity|].
  match goal with
  | |- instances ?doc1 !! _ = Some _ /\ _ =>
      split; [reflexivity|]; split; [reflexivity|];
      eapply (applyLocalChange_keeps_elem heap doc1 1%nat); reflexivity
  end.
Defined.

Lemma applySchemaChanges_same_schema_witness :
  applySchemaChanges 1 heap [block1; block2] (initInstance "v1") (lensState engine) []
  = lensState' ← registerAll (lensState engine) [block1; block2];
    changesToApply ←
      (bootstrapChange ← bootstrap (initInstance "v1") lensState';
       Ok (bootstrapChange :: ((fun b => heap !!! b_change b) <$> [block1; block2])));
    '(newInstance, patch) ← applyChangesToInstance (initInstance "v1") changesToApply;
    Ok (newInstance, patch, lensState').
Proof.
  apply (applySchemaChanges_same_schema 0 heap [block1; block2] (initInstance "v1")
           (lensState engine) []).
  repeat constructor.
Defined.

Lemma getPatch_only_bootstraps_witness :
  exists this' patch,
    CambriaBackend_getPatch heap engine = Ok (this', patch) /\
    (history this' = history engine
     /\ lensState this' = lensState engine
     /\ cb_schema this' = cb_schema engine
     /\ lenses this' = lenses engine
     /\ (forall s, s <> cb_schema engine -> instances this' !! s = instances engine !! s)
     /\ exists i, instances this' !! cb_schema engine = Some i
                  /\ bootstrapped i = true
                  /\ Backend_getPatch (state i) = Ok patch).
Proof.
  eexists _, _. split; [reflexivity|].
  eapply (getPatch_only_bootstraps heap engine). reflexivity.
Defined.

Lemma sortOps_no_insert_witness :
  sortOps (changeOf 1 [rootSet "name" (Str "hi"); listSet "A:1" (Str "z")])
  = Ok (changeOf 1 [rootSet "name" (Str "hi"); listSet "A:1" (Str "z")]).
Proof. apply sortOps_no_insert. repeat constructor. Defined.

Lemma sortOps_dangling_insert_witness :
  sortOps (changeOf 1 [rootSet "name" (Str "hi");
                       mkOp AIns (Str "list-1") (Some "_head") Undefined (Some 3);
                       listSet "A:1" (Str "z")])
  = Throw (Error "expected to find a reifying op corresponding to ins op").
Proof.
  apply (sortOps_dangling_insert _ [rootSet "name" (Str "hi")] [listSet "A:1" (Str "z")]
           (mkOp AIns (Str "list-1") (Some "_head") Undefined (Some 3)));
    [reflexivity | repeat constructor | reflexivity | repeat constructor].
Defined.

Lemma sortOps_single_insert_witness :
  sortOps (changeOf 1 [rootSet "name" (Str "hi");
                       mkOp AIns (Str "list-1") (Some "A:2") Undefined (Some 3);
                       rootSet "assignee" (Str "Joe");
                       listSet "A:3" (Str "z");
                       rootSet "name" (Str "ho")])
  = Ok (withOps
          (changeOf 1 [rootSet "name" (Str "hi");
                       mkOp AIns (Str "list-1") (Some "A:2") Undefined (Some 3);
                       rootSet "assignee" (Str "Joe");
                       listSet "A:3" (Str "z");
                       rootSet "name" (Str "ho")])
          ([rootSet "name" (Str "hi")]
           ++ mkOp AIns (Str "list-1") (Some "A:2") Undefined (Some 3)
              :: listSet "A:3" (Str "z")
              :: [rootSet "assignee" (Str "Joe")] ++ [rootSet "name" (Str "ho")])).
Proof.
  apply (sortOps_single_insert _ [rootSet "name" (Str "hi")]
           [rootSet "assignee" (Str "Joe")] [rootSet "name" (Str "ho")]
           (mkOp AIns (Str "list-1") (Some "A:2") Undefined (Some 3))
           (listSet "A:3" (Str "z")));
    [reflexivity | reflexivity | reflexivity | reflexivity
    | repeat constructor | repeat constructor].
Defined.

Lemma findElemOfIndex_findIndexOfElem_witness :
  (forall index,
     -1 <= index < Z.of_nat (length [("A:1", Str "x"); ("A:2", Str "y")]) ->
     exists k, findElemOfIndex (state shadow) (Str "list-1") index = Ok (Some k)
               /\ findIndexOfElem (state shadow) (Str "list-1") k = Ok index)
  /\ (forall k, k = "_head" \/ k ∈ (fst <$> [("A:1", Str "x"); ("A:2", Str "y")]) ->
        exists index, findIndexOfElem (state shadow) (Str "list-1") k = Ok index
                      /\ findElemOfIndex (state shadow) (Str "list-1") index = Ok (Some k)).
Proof.
  apply (findElemOfIndex_findIndexOfElem (state shadow) (Str "list-1")
           [("A:1", Str "x"); ("A:2", Str "y")]).
  - reflexivity.
  - apply NoDup_cons. split; [|apply NoDup_singleton].
    intros Hin. apply list_elem_of_singleton in Hin. discriminate Hin.
  - repeat constructor; discriminate.
Defined.

Lemma opToPatch_shape_witness :
  exists kind rest value,
    [mkPatchOp PAdd "/assignee" (Str "Joe")] = [mkPatchOp kind ("/" +:+ rest) value]
    /\ ((kind = PAdd \/ kind = PReplace) /\ value = Str "Joe")
    /\ ((∅ : ElemCache) = ∅
        \/ exists k, Some "assignee" = Some k /\ (∅ : ElemCache) = delete k ∅).
Proof.
  apply (opToPatch_shape (rootSet "assignee" (Str "Joe")) shadow ∅
           [mkPatchOp PAdd "/assignee" (Str "Joe")] ∅).
  reflexivity.
Defined.

Lemma patchToOps_accepts_only_supported_witness :
  Forall supportedPatchOp
    [mkPatchOp PAdd "/meta" (Obj []); mkPatchOp PRemove "/tags/0" Undefined].
Proof.
  eapply (patchToOps_accepts_only_supported _ (changeOf 1 []) 0 shadow).
  reflexivity.
Defined.

Lemma patchToOps_emits_witness :
  Forall emittedOp
    [mkOp AMakeMap (Str (makeObjId (changeOf 1 []) 0 0)) None Undefined None;
     mkOp ALink (Str ROOT_ID) (Some "meta") (Str (makeObjId (changeOf 1 []) 0 0)) None;
     mkOp ADel (Str "list-1") (Some "A:1") Undefined None].
Proof.
  eapply (patchToOps_emits
            [mkPatchOp PAdd "/meta" (Obj []); mkPatchOp PRemove "/tags/0" Undefined]
            (changeOf 1 []) 0 shadow).
  reflexivity.
Defined.

Lemma patchToOps_add_past_end_witness :
  patchToOps [mkPatchOp PAdd (pathTo ["tags"] (Str.ofZ 5)) (Str "q")]
    (changeOf 1 []) 0 shadow
  = Throw (Error "expected to find array element")
  /\ patchToOps [mkPatchOp PReplace (pathTo ["tags"] (Str.ofZ 5)) (Str "q")]
       (changeOf 1 []) 0 shadow
     = Ok []
  /\ patchToOps [mkPatchOp PRemove (pathTo ["tags"] (Str.ofZ 5)) Undefined]
       (changeOf 1 []) 0 shadow
     = Ok [].
Proof.
  split; [|split].
  - apply (patchToOps_add_past_end (changeOf 1 []) 0 shadow PAdd ["tags"] 5 (Str "q")
             (Str "list-1") [("A:1", Str "x"); ("A:2", Str "y")]);
      [exact I | reflexivity | reflexivity | reflexivity | reflexivity].
  - apply (patchToOps_add_past_end (changeOf 1 []) 0 shadow PReplace ["tags"] 5 (Str "q")
             (Str "list-1") [("A:1", Str "x"); ("A:2", Str "y")]);
      [exact I | reflexivity | reflexivity | reflexivity | reflexivity].
  - apply (patchToOps_add_past_end (changeOf 1 []) 0 shadow PRemove ["tags"] 5 Undefined
             (Str "list-1") [("A:1", Str "x"); ("A:2", Str "y")]);
      [exact I | reflexivity | reflexivity | reflexivity | reflexivity].
Defined.

Lemma patchToOps_list_key_not_a_number_witness :
  patchToOps [mkPatchOp PReplace (pathTo ["tags"] "first") (Str "q")]
    (changeOf 1 []) 0 shadow
  = Throw (Error "Expected array index on path").
Proof.
  apply (patchToOps_list_key_not_a_number (changeOf 1 []) 0 shadow PReplace ["tags"]
           "first" (Str "q") (Str "list-1"));
    [exact I | reflexivity | reflexivity | reflexivity | reflexivity].
Defined.

Lemma link_gets_new_object_witness :
  exists patch,
    opToPatch tagsLink shadow ∅ = Ok (patch, ∅)
    /\ patchToOps patch (changeOf 1 [tagsLink]) 0 shadow
       = Ok [mkOp AMakeList (Str (makeObjId (changeOf 1 [tagsLink]) 0 0))
               None Undefined None;
             mkOp ALink (Str ROOT_ID) (Some "tags")
               (Str (makeObjId (changeOf 1 [tagsLink]) 0 0)) None].
Proof.
  apply (link_gets_new_object tagsLink "tags" (changeOf 1 [tagsLink]) 0 shadow ∅
           (Some []));
    [reflexivity | reflexivity | reflexivity | discriminate | reflexivity
    | split; reflexivity].
Defined.

Lemma patchToOps_child_of_new_object_witness :
  patchToOps [mkPatchOp PAdd (pathTo [] "meta") (Arr []);
              mkPatchOp PAdd (pathTo ([] ++ ["meta"]) "0") (Str "t")]
    (changeOf 1 []) 0 shadow
  = Ok [mkOp (makeActionOf (Arr [])) (Str (makeObjId (changeOf 1 []) 0 0))
          None Undefined None;
        mkOp ALink (Str ROOT_ID) (Some "meta") (Str (makeObjId (changeOf 1 []) 0 0)) None;
        mkOp ASet (Str (makeObjId (changeOf 1 []) 0 0)) (Some "0") (Str "t") None].
Proof.
  apply (patchToOps_child_of_new_object (changeOf 1 []) 0 shadow PAdd PAdd []
           "meta" "0" (Arr []) (Str "t") (Str ROOT_ID));
    [now left | now left | now left | exact I | reflexivity | reflexivity
    | reflexivity | discriminate | reflexivity | discriminate | reflexivity].
Defined.

Lemma getPath_getObjId_through_maps_witness :
  getPath (state shadow) (Str "list-1") = Ok (Some ([] ++ ["tags"])%list)
  /\ getObjId (state shadow) (parentPath ([] ++ ["tags"])) = Ok (Str "list-1").
Proof.
  apply (getPath_getObjId_through_maps (state shadow) "list-1").
  eapply (mapPath_child (state shadow) ROOT_ID [] _ "tags" "list-1" tagsLink []);
    [apply mapPath_root | reflexivity | reflexivity | reflexivity | reflexivity
    | discriminate | reflexivity | reflexivity | reflexivity].
Defined.

Lemma getObjId_stops_at_list_witness :
  getObjId (state shadow) (parentPath (([] ++ ["tags"]) ++ "0" :: ["name"; "first"]))
  = getObjId (state shadow) (parentPath (([] ++ ["tags"]) ++ ["0"])).
Proof.
  apply (getObjId_stops_at_list (state shadow) "list-1" ([] ++ ["tags"]) "0" ["name"; "first"]);
    [| reflexivity | reflexivity | repeat constructor].
  eapply (mapPath_child (state shadow) ROOT_ID [] _ "tags" "list-1" tagsLink []);
    [apply mapPath_root | reflexivity | reflexivity | reflexivity | reflexivity
    | discriminate | reflexivity | reflexivity | reflexivity].
Defined.

Lemma applyOps_one_change_witness :
  exists instance',
    applyOps shadow [mkOp AIns (Str "list-1") (Some "A:2") Undefined (Some 3)] "A"
    = Ok instance' /\
    ((exists p,
        Backend_applyChanges (state shadow)
          [ {| ch_actor := "A"; ch_seq := orZero (clock shadow !! "A") + 1;
               ch_deps := deps shadow; ch_message := "";
               ch_ops := [mkOp AIns (Str "list-1") (Some "A:2") Undefined (Some 3)] |} ]
        = Ok (state instance', p)
        /\ clock instance' = default ∅ (ap_clock p)
        /\ deps instance' = default ∅ (ap_deps p))
     /\ schema instance' = schema shadow
     /\ bootstrapped instance' = true
     /\ (forall A, A <> "A" -> elem instance' !! A = elem shadow !! A)
     /\ elem instance' !! "A"
        = Some (fold_left Z.max
                  (map (fun o => orZero (op_elem o))
                     [mkOp AIns (Str "list-1") (Some "A:2") Undefined (Some 3)])
                  (orZero (elem shadow !! "A")))).
Proof.
  eexists. split; [reflexivity|].
  eapply (applyOps_one_change shadow). reflexivity.
Defined.

Lemma convertChange_keeps_identity_witness :
  exists change fromInstance' toInstance',
    convertChange heap block1 shadow shadow (mkLensState ∅ {[ "doc" := [] ]})
    = Ok (change, fromInstance', toInstance') /\
    (ch_actor change = ch_actor (heap !!! b_change block1)
     /\ ch_seq change = ch_seq (heap !!! b_change block1)
     /\ ch_deps change = ch_deps (heap !!! b_change block1)
     /\ ch_message change = ch_message (heap !!! b_change block1)
     /\ schema fromInstance' = schema shadow
     /\ schema toInstance' = schema shadow
     /\ (bootstrapped shadow = true -> bootstrapped toInstance' = true)).
Proof.
  eexists _, _, _. split; [reflexivity|].
  eapply (convertChange_keeps_identity heap block1 shadow shadow
            (mkLensState ∅ {[ "doc" := [] ]})).
  reflexivity.
Defined.

Lemma getMissingChanges_antitone_witness :
  exists doc1 p1,
    CambriaBackend_applyChanges heap engine [block1; block2] = Ok (doc1, p1) /\
    getMissingChanges heap doc1 {[ "A" := 1 ]}
    = filter (fun block =>
                orZero (({[ "A" := 1 ]} : Clock) !! ch_actor (heap !!! b_change block))
                < ch_seq (heap !!! b_change block))
        (getMissingChanges heap doc1 ∅).
Proof.
  eexists _, _. split; [reflexivity|].
  apply getMissingChanges_antitone. reflexivity.
Defined.

End FurtherOnTheSample.
